(** * llist: a doubly linked chain with cached endpoints and a value index

    A shallow embedding of [llist.go] (package [llist] of
    github.com/KarelKubat/llist).  The Go type [LList[V]] keeps three derived
    views of a chain of [lnode.Node[V]] values: the cached [head] and [tail]
    pointers and the map [nodes] from a value to the slice of the nodes
    holding it.

    - Go pointers [*lnode.Node[V]] are references into an explicit heap
      ([mem]); the nil pointer is [None].
    - The map [map[V][]*lnode.Node[V]] is a [gmap V (list ref)]; a bucket is
      the sequence of elements of the Go slice.  Section [go_slices] below
      refines buckets to slice headers over shared backing arrays, where
      aliasing is visible.
    - Every operation returns an [outcome]: it completes ([Done]), hits a
      nil-pointer dereference ([Panic]), or walks a circular chain for ever
      ([Diverge]).
    - The node a method inserts, deletes or changes ([n], [node]) is a
      reference: with nil there, every one of these methods dereferences nil
      at [n.Value] at the latest.  An anchor may be nil ([l.Tail()] of an
      empty list).
    - The type parameter [V comparable] is a type with decidable equality
      whose values are keys of a finite map; values that differ from
      themselves (floating-point NaN) are not modelled.
    - Package [lnode] is an external module; its operations are modelled
      from the contract the specification gives for the node primitive. *)

From stdpp Require Import base option list gmap strings pretty.

(** ** Outcomes of running Go code *)

Inductive outcome (A : Type) : Type :=
  | Done (a : A)
  | Panic
  | Diverge.
Arguments Done {A} a.
Arguments Panic {A}.
Arguments Diverge {A}.

Definition obind {A B : Type} (m : outcome A) (k : A → outcome B) : outcome B :=
  match m with
  | Done a => k a
  | Panic => Panic
  | Diverge => Diverge
  end.

Notation "'do' x <- m ; k" := (obind m (fun x => k))
  (at level 10, x name, m at level 100, k at level 200,
   format "'[v' 'do'  x  <-  m ; '/' k ']'").

(** A node reference: the address of a [lnode.Node[V]]. *)
Definition ref := positive.

Section llist.
Context {V : Type} `{Countable V}.

(** ** The node primitive (package [lnode]) *)

(** [lnode.Node[V]]: the exported fields [Value], [Next] and [Prev], which
    [llist.go] reads and writes directly. *)
Record Node : Type := mkNode {
  Value : V;
  Next : option ref;
  Prev : option ref;
}.

(** The heap of nodes constructed so far. *)
Local Abbreviation mem := (gmap ref Node).

(** [*p]: nil and dangling references cannot be read. *)
Definition load (h : mem) (r : ref) : outcome Node :=
  match h !! r with
  | Some nd => Done nd
  | None => Panic
  end.

Definition set_Value (h : mem) (r : ref) (v : V) : outcome mem :=
  do nd <- load h r;
  Done (<[r := mkNode v (Next nd) (Prev nd)]> h).

Definition set_Next (h : mem) (r : ref) (x : option ref) : outcome mem :=
  do nd <- load h r;
  Done (<[r := mkNode (Value nd) x (Prev nd)]> h).

Definition set_Prev (h : mem) (r : ref) (x : option ref) : outcome mem :=
  do nd <- load h r;
  Done (<[r := mkNode (Value nd) (Next nd) x]> h).

(** Modelled from the spec: [lnode.New], missing from the sources (package
    [lnode] is an external module).  Spec section 6: "construct(value) -> new,
    unlinked node". *)
Definition lnode_New (h : mem) (v : V) : mem * ref :=
  let r := fresh (dom h) in (<[r := mkNode v None None]> h, r).

(** Modelled from the spec: [Node.Append], missing from the sources.  Spec
    section 6: "link-after(anchor, node): O(1) splice, caller guarantees anchor
    is in a chain".  Linking after a nil receiver has no field to write and
    panics. *)
Definition lnode_Append (h : mem) (recv : option ref) (m : ref) : outcome mem :=
  match recv with
  | None => Panic
  | Some n =>
      do nd <- load h n;
      do h1 <- set_Prev h m (Some n);
      do h2 <- set_Next h1 m (Next nd);
      do h3 <- match Next nd with
               | Some x => set_Prev h2 x (Some m)
               | None => Done h2
               end;
      set_Next h3 n (Some m)
  end.

(** Modelled from the spec: [Node.Prepend], missing from the sources.  Spec
    section 6: "link-before(anchor, node)", the mirror image of link-after. *)
Definition lnode_Prepend (h : mem) (recv : option ref) (m : ref) : outcome mem :=
  match recv with
  | None => Panic
  | Some n =>
      do nd <- load h n;
      do h1 <- set_Next h m (Some n);
      do h2 <- set_Prev h1 m (Prev nd);
      do h3 <- match Prev nd with
               | Some x => set_Next h2 x (Some m)
               | None => Done h2
               end;
      set_Prev h3 n (Some m)
  end.

(** Modelled from the spec: [Node.Delete], missing from the sources.  Spec
    section 6: "unlink(node): O(1) removal from whatever chain it is in; leaves
    former neighbors correctly relinked to each other".  The two neighbours
    are the only nodes written: the fields of the node itself stay as they
    are. *)
Definition lnode_Delete (h : mem) (n : ref) : outcome mem :=
  do nd <- load h n;
  do h1 <- match Prev nd with
           | Some p => set_Next h p (Next nd)
           | None => Done h
           end;
  match Next nd with
  | Some x => set_Prev h1 x (Prev nd)
  | None => Done h1
  end.

(** The boundary walks and the traversal follow one link per step.  On a
    chain without cycle a walk visits each node at most once, so
    [S (size h)] steps are enough; a walk that needs more is caught in a
    cycle and never returns. *)
Fixpoint walk_prev (fuel : nat) (h : mem) (n : ref) : outcome ref :=
  match fuel with
  | O => Diverge
  | S k =>
      do nd <- load h n;
      match Prev nd with
      | None => Done n
      | Some p => walk_prev k h p
      end
  end.

Fixpoint walk_next (fuel : nat) (h : mem) (n : ref) : outcome ref :=
  match fuel with
  | O => Diverge
  | S k =>
      do nd <- load h n;
      match Next nd with
      | None => Done n
      | Some x => walk_next k h x
      end
  end.

(** What [lnode]'s [Head()] and [Tail()] do when the receiver is nil is not
    fixed by the spec (a Go method may test its receiver against nil, or
    panic on the first field access): it is a parameter of the model. *)
Variable Head_nil Tail_nil : outcome (option ref).

(** Modelled from the spec: [Node.Head], missing from the sources.  Spec
    section 6: "walk-to-head(node): O(n) directional walk to the true
    boundary". *)
Definition lnode_Head (h : mem) (recv : option ref) : outcome (option ref) :=
  match recv with
  | None => Head_nil
  | Some n => do r <- walk_prev (S (size h)) h n; Done (Some r)
  end.

(** Modelled from the spec: [Node.Tail], missing from the sources.  Spec
    section 6: "walk-to-tail(node)". *)
Definition lnode_Tail (h : mem) (recv : option ref) : outcome (option ref) :=
  match recv with
  | None => Tail_nil
  | Some n => do r <- walk_next (S (size h)) h n; Done (Some r)
  end.

(** Modelled from the spec: [Node.VisitByNext], missing from the sources.
    Spec section 6: "traverse-forward(start, visitor): produces a lazy,
    finite, restartable sequence of nodes starting at start; visitor may
    signal early termination".  The visitor is a closure over a state [St]
    of its own; it returns [false] to stop. *)
Fixpoint visit_next {St : Type} (fuel : nat) (h : mem) (n : ref)
    (visitor : ref → St → outcome (St * bool)) (s : St) : outcome St :=
  match fuel with
  | O => Diverge
  | S k =>
      do r <- visitor n s;
      let '(s1, continue) := r in
      if continue : bool then
        do nd <- load h n;
        match Next nd with
        | None => Done s1
        | Some x => visit_next k h x visitor s1
        end
      else Done s1
  end.

Definition lnode_VisitByNext {St : Type} (h : mem) (n : ref)
    (visitor : ref → St → outcome (St * bool)) (s : St) : outcome St :=
  visit_next (S (size h)) h n visitor s.

(** ** The list (llist.go) *)

(** [type LList[V comparable] struct { head, tail *lnode.Node[V];
    nodes map[V][]*lnode.Node[V] }] *)
Record LList : Type := mkLList {
  head : option ref;
  tail : option ref;
  nodes : gmap V (list ref);
}.

Definition with_head (l : LList) (x : option ref) : LList :=
  mkLList x (tail l) (nodes l).
Definition with_tail (l : LList) (x : option ref) : LList :=
  mkLList (head l) x (nodes l).
Definition with_nodes (l : LList) (m : gmap V (list ref)) : LList :=
  mkLList (head l) (tail l) m.

(** [func New[V comparable]() *LList[V]] *)
Definition New : LList := mkLList None None ∅.

(** [func (l *LList[V]) Head() *lnode.Node[V]] *)
Definition Head (l : LList) : option ref := head l.

(** [func (l *LList[V]) Tail() *lnode.Node[V]] *)
Definition Tail (l : LList) : option ref := tail l.

(** [func (l *LList[V]) addCount(n *lnode.Node[V])]: create the bucket of
    [n.Value] when the key is absent, then [append] to it. *)
Definition addCount (h : mem) (l : LList) (n : ref) : outcome LList :=
  do nd <- load h n;
  let m1 := match nodes l !! Value nd with
            | Some _ => nodes l
            | None => <[Value nd := []]> (nodes l)
            end in
  Done (with_nodes l (<[Value nd := default [] (m1 !! Value nd) ++ [n]]> m1)).

(** The loop of [subCount]: [newNds] starts empty and receives, in order,
    every [nd] of the bucket with [nd != n]. *)
Definition subCount_loop (n : ref) (nds : list ref) : list ref :=
  foldl (λ newNds nd, if decide (nd = n) then newNds else newNds ++ [nd]) [] nds.

(** [func (l *LList[V]) subCount(n *lnode.Node[V])] *)
Definition subCount (h : mem) (l : LList) (n : ref) : outcome LList :=
  do nd <- load h n;
  match nodes l !! Value nd with
  | None => Done l
  | Some nds => Done (with_nodes l (<[Value nd := subCount_loop n nds]> (nodes l)))
  end.

(** [func (l *LList[V]) Append(anchor, n *lnode.Node[V])] *)
Definition Append (h : mem) (l : LList) (anchor : option ref) (n : ref)
    : outcome (mem * LList) :=
  do r <-
    match head l with
    | None => Done (h, with_tail (with_head l (Some n)) (Some n))
    | Some _ =>
        if decide (anchor = tail l) then
          do h1 <- lnode_Append h (tail l) n;
          Done (h1, with_tail l (Some n))
        else
          do h1 <- lnode_Append h anchor n;
          Done (h1, l)
    end;
  let '(h1, l1) := r in
  do l2 <- addCount h1 l1 n;
  Done (h1, l2).

(** [func (l *LList[V]) Prepend(anchor, n *lnode.Node[V])] *)
Definition Prepend (h : mem) (l : LList) (anchor : option ref) (n : ref)
    : outcome (mem * LList) :=
  do r <-
    match head l, tail l with
    | None, None => Done (h, with_tail (with_head l (Some n)) (Some n))
    | _, _ =>
        if decide (anchor = head l) then
          do h1 <- lnode_Prepend h (head l) n;
          Done (h1, with_head l (Some n))
        else
          do h1 <- lnode_Prepend h anchor n;
          Done (h1, l)
    end;
  let '(h1, l1) := r in
  do l2 <- addCount h1 l1 n;
  Done (h1, l2).

(** [func (l *LList[V]) FixHead()] *)
Definition FixHead (h : mem) (l : LList) : outcome LList :=
  do r <- lnode_Head h (head l);
  Done (with_head l r).

(** [func (l *LList[V]) FixTail()] *)
Definition FixTail (h : mem) (l : LList) : outcome LList :=
  do r <- lnode_Tail h (tail l);
  Done (with_tail l r).

(** [func (l *LList[V]) FixCounts()] *)
Definition FixCounts (h : mem) (l : LList) : outcome LList :=
  match Head l with
  | None => Done l
  | Some hd =>
      lnode_VisitByNext h hd
        (λ node l0, do l1 <- addCount h l0 node; Done (l1, true))
        (with_nodes l ∅)
  end.

(** [func (l *LList[V]) FindNodes(v V) []*lnode.Node[V]]: the nil slice
    returned for an absent key is the empty sequence. *)
Definition FindNodes (l : LList) (v : V) : list ref :=
  match nodes l !! v with
  | None => []
  | Some nds => nds
  end.

(** [func (l *LList[V]) Delete(node *lnode.Node[V])].  A Go [switch] runs the
    first case that matches and no other. *)
Definition Delete (h : mem) (l : LList) (node : ref) : outcome (mem * LList) :=
  do l1 <-
    (if decide (Some node = head l) then
       do nd <- load h node; Done (with_head l (Next nd))
     else if decide (Some node = tail l) then
       do nd <- load h node; Done (with_tail l (Prev nd))
     else Done l);
  do h1 <- lnode_Delete h node;
  do l2 <- subCount h1 l1 node;
  Done (h1, l2).

(** [func (l *LList[V]) SetValue(node *lnode.Node[V], value V)] *)
Definition SetValue (h : mem) (l : LList) (node : ref) (value : V)
    : outcome (mem * LList) :=
  do l1 <- subCount h l node;
  do h1 <- set_Value h node value;
  do l2 <- addCount h1 l1 node;
  Done (h1, l2).

(** ** Sequences of calls through the API *)

(** One call of a mutating method of [LList]. *)
Inductive op : Type :=
  | OAppend (anchor : option ref) (n : ref)
  | OPrepend (anchor : option ref) (n : ref)
  | ODelete (node : ref)
  | OSetValue (node : ref) (value : V).

Definition step (st : mem * LList) (o : op) : outcome (mem * LList) :=
  match o with
  | OAppend anchor n => Append st.1 st.2 anchor n
  | OPrepend anchor n => Prepend st.1 st.2 anchor n
  | ODelete node => Delete st.1 st.2 node
  | OSetValue node value => SetValue st.1 st.2 node value
  end.

Fixpoint run (ops : list op) (st : mem * LList) : outcome (mem * LList) :=
  match ops with
  | [] => Done st
  | o :: ops' => do st1 <- step st o; run ops' st1
  end.

(** The nodes of the list: those inserted and not deleted since. *)
Definition members_step (M : gset ref) (o : op) : gset ref :=
  match o with
  | OAppend _ n | OPrepend _ n => M ∪ {[n]}
  | ODelete node => M ∖ {[node]}
  | OSetValue _ _ => M
  end.

Definition members_after (M : gset ref) (ops : list op) : gset ref :=
  foldl members_step M ops.

(** The life cycle of a node (spec section 3): it is inserted while it is
    not in the list, and its value is set while it is. *)
Definition op_ok (M : gset ref) (o : op) : bool :=
  match o with
  | OAppend _ n | OPrepend _ n => bool_decide (n ∉ M)
  | ODelete _ => true
  | OSetValue node _ => bool_decide (node ∈ M)
  end.

Fixpoint trace_ok (M : gset ref) (ops : list op) : bool :=
  match ops with
  | [] => true
  | o :: ops' => op_ok M o && trace_ok (members_step M o) ops'
  end.

(** ** The chain and the views kept of it *)

(** [has_value h n v]: node [n] currently holds [v]. *)
Definition has_value (h : mem) (n : ref) (v : V) : Prop :=
  ∃ nd, h !! n = Some nd ∧ Value nd = v.

(** The test behind [has_value]. *)
Definition value_is (h : mem) (v : V) (n : ref) : bool :=
  match h !! n with
  | Some nd => bool_decide (Value nd = v)
  | None => false
  end.

(** [same_values h h']: the two heaps hold the same nodes with the same
    values; only links may differ. *)
Definition same_values (h h' : mem) : Prop :=
  ∀ r, Value <$> (h' !! r) = Value <$> (h !! r).

(** [linked h p c]: the nodes of [c] follow each other through [Next] and
    [Prev]; the first has predecessor [p], the last has no successor. *)
Fixpoint linked (h : mem) (p : option ref) (c : list ref) : Prop :=
  match c with
  | [] => True
  | n :: c' =>
      ∃ nd, h !! n = Some nd ∧ Prev nd = p ∧ Next nd = hd_error c' ∧
            linked h (Some n) c'
  end.

(** [lseg h p c q]: a segment of a chain, from the successor of [p] to the
    predecessor of [q]. *)
Fixpoint lseg (h : mem) (p : option ref) (c : list ref) (q : option ref) : Prop :=
  match c with
  | [] => True
  | n :: c' =>
      ∃ nd, h !! n = Some nd ∧ Prev nd = p ∧
            Next nd = from_option Some q (hd_error c') ∧
            lseg h (Some n) c' q
  end.

(** The index registers exactly the nodes of [M], each once and under its
    current value. *)
Definition index_ok (M : gset ref) (h : mem) (l : LList) : Prop :=
  ∀ v, NoDup (FindNodes l v) ∧
       ∀ n, n ∈ FindNodes l v ↔ n ∈ M ∧ has_value h n v.

(** The cached state matches the chain [c]. *)
Definition matches_chain (h : mem) (l : LList) (c : list ref) : Prop :=
  NoDup c ∧ linked h None c ∧
  Head l = hd_error c ∧ Tail l = last c ∧
  index_ok (list_to_set c) h l.

(** [chain_call h c o c']: on a list whose chain is [c], the call [o]
    respects the preconditions of the API (spec section 4.1), does not
    delete the sole node of the chain, and leaves the chain [c']. *)
Inductive chain_call (h : mem) : list ref → op → list ref → Prop :=
  | call_Append_empty anchor n nd :
      h !! n = Some nd → Next nd = None → Prev nd = None →
      chain_call h [] (OAppend anchor n) [n]
  | call_Prepend_empty anchor n nd :
      h !! n = Some nd → Next nd = None → Prev nd = None →
      chain_call h [] (OPrepend anchor n) [n]
  | call_Append c1 a c2 n :
      n ∉ c1 ++ a :: c2 → is_Some (h !! n) →
      chain_call h (c1 ++ a :: c2) (OAppend (Some a) n) (c1 ++ a :: n :: c2)
  | call_Prepend c1 a c2 n :
      n ∉ c1 ++ a :: c2 → is_Some (h !! n) →
      chain_call h (c1 ++ a :: c2) (OPrepend (Some a) n) (c1 ++ n :: a :: c2)
  | call_Delete c1 n c2 :
      c1 ++ c2 ≠ [] →
      chain_call h (c1 ++ n :: c2) (ODelete n) (c1 ++ c2)
  | call_SetValue c n v :
      n ∈ c → chain_call h c (OSetValue n v) c.

(** [chain_calls st c ops c']: a run of such calls from the state [st],
    each on the chain the calls before it have left. *)
Inductive chain_calls : mem * LList → list ref → list op → list ref → Prop :=
  | calls_nil st c : chain_calls st c [] c
  | calls_cons st c o c1 st1 ops c2 :
      chain_call st.1 c o c1 → step st o = Done st1 →
      chain_calls st1 c1 ops c2 →
      chain_calls st c (o :: ops) c2.

(** No node points outside the heap (Go has no dangling pointer). *)
Definition closed (h : mem) : Prop :=
  ∀ r nd, h !! r = Some nd →
    (∀ x, Next nd = Some x → is_Some (h !! x)) ∧
    (∀ x, Prev nd = Some x → is_Some (h !! x)).

(** A checker for [closed]. *)
Definition points_inside (h : mem) (o : option ref) : bool :=
  match o with
  | None => true
  | Some x => bool_decide (is_Some (h !! x))
  end.

Definition closedb (h : mem) : bool :=
  bool_decide (map_Forall (λ _ nd, points_inside h (Next nd) ∧
                                   points_inside h (Prev nd)) h).

End llist.

Arguments Node V : clear implicits.
Abbreviation mem V := (gmap ref (Node V)).
Arguments LList V {_ _}.
Arguments op V : clear implicits.

(** ** Buckets as Go slices

    A Go slice is a header (pointer to a backing array, length, capacity);
    copying the header, as [FindNodes] does when it returns [nodes], shares
    the backing array.  This section gives the methods that touch the field
    [nodes] over slice headers and a store of backing arrays.  The code never
    reslices, so every header points to the start of its array. *)

Definition loc := positive.

Record slice : Type := mkSlice {
  s_arr : loc;
  s_len : nat;
  s_cap : nat;
}.

(** The backing arrays; a slot of an array holds a node pointer, nil until
    it is written. *)
Abbreviation arrays := (gmap loc (list (option ref))).

(** The address shared by all zero-sized allocations. *)
Definition zerobase : loc := 1%positive.

(** The composite literal [[]*lnode.Node[V]{}]. *)
Definition empty_slice : slice := mkSlice zerobase 0 0.

Definition array_at (A : arrays) (a : loc) : list (option ref) :=
  default [] (A !! a).

(** The elements seen through a header. *)
Definition slice_elems (A : arrays) (s : slice) : list (option ref) :=
  take (s_len s) (array_at A (s_arr s)).

(** [s[i]] and [s[i] = x]; an index beyond the length panics. *)
Definition slice_get (A : arrays) (s : slice) (i : nat) : outcome (option ref) :=
  if decide (i < s_len s) then Done (default None (array_at A (s_arr s) !! i))
  else Panic.

Definition slice_set (A : arrays) (s : slice) (i : nat) (x : option ref)
    : outcome arrays :=
  if decide (i < s_len s) then Done (alter (λ a, <[i := x]> a) (s_arr s) A)
  else Panic.

Section go_slices.
Context {V : Type} `{Countable V}.

(** The capacity [append] gives the array it allocates when the old one is
    full; the Go language leaves it to the implementation. *)
Variable grow : nat → nat.

(** [append(s, x)]: write in place while the capacity allows it, else move
    the elements to a new, larger array. *)
Definition go_append (A : arrays) (s : slice) (x : option ref) : arrays * slice :=
  if decide (s_len s < s_cap s) then
    (alter (λ a, <[s_len s := x]> a) (s_arr s) A,
     mkSlice (s_arr s) (S (s_len s)) (s_cap s))
  else
    let a' := fresh ({[zerobase]} ∪ dom A) in
    let c' := grow (s_cap s) in
    (<[a' := slice_elems A s ++ x :: replicate (c' - S (s_len s)) None]> A,
     mkSlice a' (S (s_len s)) c').

(** The field [nodes] of [LList] together with the arrays of its slices. *)
Record SIndex : Type := mkSIndex {
  s_nodes : gmap V slice;
  s_arrays : arrays;
}.

Definition empty_index : SIndex := mkSIndex ∅ ∅.

(** [addCount] over slices. *)
Definition addCount_s (h : mem V) (ix : SIndex) (n : ref) : outcome SIndex :=
  do nd <- load h n;
  let m1 := match s_nodes ix !! Value nd with
            | Some _ => s_nodes ix
            | None => <[Value nd := empty_slice]> (s_nodes ix)
            end in
  let '(A, s) := go_append (s_arrays ix) (default empty_slice (m1 !! Value nd))
                           (Some n) in
  Done (mkSIndex (<[Value nd := s]> m1) A).

(** The loop of [subCount] over slices: [range nds] reads the elements
    [0 .. len(nds)-1] of the bucket, [newNds] grows by [append]. *)
Definition subCount_s_body (n : ref) (nds : slice) (acc : arrays * slice)
    (i : nat) : arrays * slice :=
  let nd := default None (array_at acc.1 (s_arr nds) !! i) in
  if decide (nd = Some n) then acc else go_append acc.1 acc.2 nd.

Definition subCount_s_loop (n : ref) (nds : slice) (A : arrays) : arrays * slice :=
  foldl (subCount_s_body n nds) (A, empty_slice) (seq 0 (s_len nds)).

(** [subCount] over slices. *)
Definition subCount_s (h : mem V) (ix : SIndex) (n : ref) : outcome SIndex :=
  do nd <- load h n;
  match s_nodes ix !! Value nd with
  | None => Done ix
  | Some nds =>
      let '(A, newNds) := subCount_s_loop n nds (s_arrays ix) in
      Done (mkSIndex (<[Value nd := newNds]> (s_nodes ix)) A)
  end.

(** [FindNodes] over slices: the header stored in the map, or the nil slice
    ([None]). *)
Definition FindNodes_s (ix : SIndex) (v : V) : option slice := s_nodes ix !! v.

(** What a list operation can do to the index: [Append] and [Prepend] call
    [addCount], [Delete] calls [subCount], [SetValue] calls both, and
    [FixCounts] replaces the map by an empty one before it calls
    [addCount]. *)
Inductive index_step : SIndex → SIndex → Prop :=
  | step_addCount h ix n ix' :
      addCount_s h ix n = Done ix' → index_step ix ix'
  | step_subCount h ix n ix' :
      subCount_s h ix n = Done ix' → index_step ix ix'
  | step_reset ix :
      index_step ix (mkSIndex ∅ (s_arrays ix)).

(** The bucket of [v] as the sequence the list model works with. *)
Definition bucket_contents (ix : SIndex) (v : V) : list (option ref) :=
  match FindNodes_s ix v with
  | None => []
  | Some s => slice_elems (s_arrays ix) s
  end.

(** A header is in order when its length is within its capacity and its
    capacity within its array. *)
Definition slice_ok (A : arrays) (s : slice) : Prop :=
  s_len s ≤ s_cap s ∧ s_cap s ≤ length (array_at A (s_arr s)).

(** The buckets of an index are in order and no two of them can write to
    the same array. *)
Definition index_wf (ix : SIndex) : Prop :=
  (∀ v s, s_nodes ix !! v = Some s → slice_ok (s_arrays ix) s) ∧
  (∀ v v' s s', v ≠ v' →
     s_nodes ix !! v = Some s → s_nodes ix !! v' = Some s' →
     s_arr s = s_arr s' → s_cap s = 0 ∨ s_cap s' = 0).

(** [guarded b s]: an [append] to [b] that writes in place does not write
    into the elements of [s]. *)
Definition guarded (b s : slice) : Prop :=
  s_arr b = s_arr s → s_len b < s_cap b → s_len s ≤ s_len b.

(** [away b X]: [b] has no room to write in place, or its array is none of
    [X]. *)
Definition away (b : slice) (X : gset loc) : Prop := s_cap b = 0 ∨ s_arr b ∉ X.

(** [stable_view ix s]: [s] has elements in an allocated array only, and no
    bucket of the index can write into them. *)
Definition stable_view (ix : SIndex) (s : slice) : Prop :=
  (s_len s = 0 ∨ s_arr s ∈ dom (s_arrays ix)) ∧
  ∀ v b, s_nodes ix !! v = Some b → guarded b s.

(** The list model keeps of a bucket the sequence of its elements:
    [index_rel ix l] relates an index over slices to a list whose buckets
    are these sequences. *)
Definition index_rel (ix : SIndex) (l : LList V) : Prop :=
  ∀ v, bucket_contents ix v = Some <$> FindNodes l v.

End go_slices.

Arguments SIndex V {_ _}.

(** ** Callers: the loops of the demo program and of the tests *)

Section callers.
Context {V : Type} `{Countable V}.

(** [for _, w := range words { l.Append(l.Tail(), lnode.New(w)) }]: the loop
    that builds a list from left to right ([main] and [mkList]). *)
Fixpoint append_all (vs : list V) (st : mem V * LList V)
    : outcome (mem V * LList V) :=
  match vs with
  | [] => Done st
  | v :: vs' =>
      let '(h1, n) := lnode_New st.1 v in
      do st1 <- Append h1 st.2 (Tail st.2) n;
      append_all vs' st1
  end.

(** [for ... { l.Prepend(l.Head(), lnode.New(i)) }]: the loop of
    [TestEmptyPrepend]. *)
Fixpoint prepend_all (vs : list V) (st : mem V * LList V)
    : outcome (mem V * LList V) :=
  match vs with
  | [] => Done st
  | v :: vs' =>
      let '(h1, n) := lnode_New st.1 v in
      do st1 <- Prepend h1 st.2 (Head st.2) n;
      prepend_all vs' st1
  end.

(** [for n := l.Head(); n != nil; n = n.Next { ... n.Value ... }]: the
    values that the walk of the tests reads, from the node [x] on.  As for
    the walks of the primitive, [S (size h)] steps are enough on a chain
    without cycle. *)
Fixpoint values_by_next (fuel : nat) (h : mem V) (x : option ref)
    : outcome (list V) :=
  match fuel with
  | O => Diverge
  | S k =>
      match x with
      | None => Done []
      | Some r =>
          do nd <- load h r;
          do vs <- values_by_next k h (Next nd);
          Done (Value nd :: vs)
      end
  end.

(** [x.Value], for [x] the result of [l.Head()] or [l.Tail()]. *)
Definition value_of (h : mem V) (x : option ref) : outcome V :=
  match x with
  | None => Panic
  | Some r => do nd <- load h r; Done (Value nd)
  end.

(** [x.Next. ... .Next], [k] field reads; reading a field of nil panics. *)
Fixpoint follow_next (k : nat) (h : mem V) (x : option ref) : outcome (option ref) :=
  match k with
  | O => Done x
  | S k' =>
      match x with
      | None => Panic
      | Some r => do nd <- load h r; follow_next k' h (Next nd)
      end
  end.

(** [x.Prev. ... .Prev] *)
Fixpoint follow_prev (k : nat) (h : mem V) (x : option ref) : outcome (option ref) :=
  match k with
  | O => Done x
  | S k' =>
      match x with
      | None => Panic
      | Some r => do nd <- load h r; follow_prev k' h (Prev nd)
      end
  end.

(** [for _, node := range nds { l.SetValue(node, value) }] ([main]).  The
    [range] clause reads the elements of the slice it was given; the calls
    of the body do not change them. *)
Fixpoint SetValue_each (nds : list ref) (value : V) (st : mem V * LList V)
    : outcome (mem V * LList V) :=
  match nds with
  | [] => Done st
  | node :: nds' =>
      do st1 <- SetValue st.1 st.2 node value;
      SetValue_each nds' value st1
  end.

(** [for _, n := range nds { l.Delete(n) }] ([TestDelete]) *)
Fixpoint Delete_each (nds : list ref) (st : mem V * LList V)
    : outcome (mem V * LList V) :=
  match nds with
  | [] => Done st
  | n :: nds' =>
      do st1 <- Delete st.1 st.2 n;
      Delete_each nds' st1
  end.

(** [hd.Prepend(lnode.New(v1)); hd.Prev.Prepend(lnode.New(v2));
    hd.Prev.Prev.Prepend(lnode.New(v3))] ([TestFixHead]): the [i]-th new
    node is linked before [hd.Prev^i] by the primitive; the list is not
    told. *)
Fixpoint prepend_direct (vs : list V) (i : nat) (h : mem V) (hd : option ref)
    : outcome (mem V) :=
  match vs with
  | [] => Done h
  | v :: vs' =>
      do recv <- follow_prev i h hd;
      let '(h1, n) := lnode_New h v in
      do h2 <- lnode_Prepend h1 recv n;
      prepend_direct vs' (S i) h2 hd
  end.

(** [tl.Append(lnode.New(v1)); tl.Next.Append(lnode.New(v2)); ...]
    ([TestFixTail]) *)
Fixpoint append_direct (vs : list V) (i : nat) (h : mem V) (tl : option ref)
    : outcome (mem V) :=
  match vs with
  | [] => Done h
  | v :: vs' =>
      do recv <- follow_next i h tl;
      let '(h1, n) := lnode_New h v in
      do h2 <- lnode_Append h1 recv n;
      append_direct vs' (S i) h2 tl
  end.

End callers.

(** ** Runs that respect the preconditions of the API *)

Section valid_runs.
Context {V : Type} `{Countable V}.

(** The chain with [n] put after, or before, the node [a]. *)
Fixpoint insert_after (a n : ref) (c : list ref) : list ref :=
  match c with
  | [] => []
  | x :: c' => if decide (x = a) then x :: n :: c' else x :: insert_after a n c'
  end.

Fixpoint insert_before (a n : ref) (c : list ref) : list ref :=
  match c with
  | [] => []
  | x :: c' => if decide (x = a) then n :: x :: c' else x :: insert_before a n c'
  end.

Definition insert_at (c : list ref) (anchor : option ref) (n : ref)
    (ins : ref → ref → list ref → list ref) : option (list ref) :=
  match c, anchor with
  | [], _ => Some [n]
  | _, Some a => if decide (a ∈ c) then Some (ins a n c) else None
  | _, None => None
  end.

(** [chain_after A c o]: the chain that the call [o] leaves of the chain
    [c], when the call respects the preconditions of the API (spec section
    4.1) and does not delete the sole node; [A] are the nodes constructed.
    A node is inserted when it is constructed and not in the chain, at any
    anchor if the chain is empty and else at a node of the chain; a node is
    deleted, or its value set, when it is in the chain. *)
Definition chain_after (A : gset ref) (c : list ref) (o : op V)
    : option (list ref) :=
  match o with
  | OAppend anchor n =>
      if decide (n ∈ A ∧ n ∉ c) then insert_at c anchor n insert_after else None
  | OPrepend anchor n =>
      if decide (n ∈ A ∧ n ∉ c) then insert_at c anchor n insert_before else None
  | ODelete node =>
      if decide (node ∈ c ∧ c ≠ [node]) then Some (filter (λ x, x ≠ node) c)
      else None
  | OSetValue node _ => if decide (node ∈ c) then Some c else None
  end.

Fixpoint chain_of_run (A : gset ref) (c : list ref) (ops : list (op V))
    : option (list ref) :=
  match ops with
  | [] => Some c
  | o :: ops' =>
      match chain_after A c o with
      | Some c1 => chain_of_run A c1 ops'
      | None => None
      end
  end.

(** Every node is as [lnode.New] leaves it. *)
Definition unlinked (h : mem V) : Prop :=
  ∀ r nd, h !! r = Some nd → Next nd = None ∧ Prev nd = None.

(** What such a run keeps: the list matches the chain, as long as the
    chain is empty the nodes are as they were constructed, and the nodes
    constructed are the same. *)
Definition run_inv (A : gset ref) (h : mem V) (l : LList V) (c : list ref) : Prop :=
  matches_chain h l c ∧ (c = [] → unlinked h) ∧ dom h = A.

End valid_runs.

(** ** The demo program (demo.go) *)

(** [var words = []string{...}] *)
Definition words : list string :=
  ["the"; "quick"; "brown"; "fox"; "jumped"; "over"; "the"; "lazy"; "dog"]%string.

(** The line feed. *)
Definition newline : string := String (Ascii.ascii_of_nat 10) EmptyString.

Section demo.

(** What [VisitByNext] writes when its receiver is nil is not fixed by the
    spec, as for [Head()] and [Tail()]. *)
Variable VisitByNext_nil : list string → outcome (list string).

(** The line [fmt.Println("  Word", word, "occurs", len(nds), "times")]:
    [Println] separates its operands by a blank. *)
Definition count_line (word : string) (k : nat) : string :=
  ("  Word " +:+ word +:+ " occurs " +:+ pretty k +:+ " times" +:+ newline)%string.

(** What [print] writes for a list whose chain holds the values [vs]: the
    title, the values in chain order, and for every word its number of
    occurrences among them. *)
Definition printed (title : string) (vs : list string) : list string :=
  [newline +:+ title +:+ ": "]%string ++
  ((λ v, v +:+ " ")%string <$> vs) ++ [newline] ++
  ((λ w, count_line w (length (filter (λ x, x = w) vs))) <$> words).

(** [func print(title string, l *llist.LList[string])]; the result is what
    the function writes to the standard output, one string per call of
    [fmt]. *)
Definition print (h : mem string) (l : LList string) (title : string)
    : outcome (list string) :=
  let out := [newline +:+ title +:+ ": "]%string in
  do out1 <-
    match Head l with
    | None => VisitByNext_nil out
    | Some hd =>
        lnode_VisitByNext h hd
          (λ node o, do nd <- load h node; Done (o ++ [Value nd +:+ " "]%string, true))
          out
    end;
  Done (foldl (λ o word, o ++ [count_line word (length (FindNodes l word))])
              (out1 ++ [newline]) words).

(** [l.Delete(l.Head().Next.Next.Next.Next)] *)
Definition Delete_fifth (st : mem string * LList string)
    : outcome (mem string * LList string) :=
  do x <- follow_next 4 st.1 (Head st.2);
  match x with
  | None => Panic
  | Some node => Delete st.1 st.2 node
  end.

(** [l.Append(fx, lnode.New[string]("fox"))] *)
Definition Append_new (anchor : option ref) (v : string)
    (st : mem string * LList string) : outcome (mem string * LList string) :=
  let '(h1, n) := lnode_New st.1 v in Append h1 st.2 anchor n.

(** [func main()] *)
Definition main : outcome (list string) :=
  do st <- append_all words (∅, New);
  do o1 <- print st.1 st.2 "Vanilla list";
  do st <- (let '(h1, n) := lnode_New st.1 "yesterday"%string in
            Prepend h1 st.2 (Head st.2) n);
  do o2 <- print st.1 st.2 "After prepending 'yesterday'";
  do fx <- follow_next 4 st.1 (Head st.2);
  do st <- Append_new fx "fox" st;
  do st <- Append_new fx "fox" st;
  do st <- Append_new fx "fox" st;
  do o3 <- print st.1 st.2 "Three more foxes";
  do st <- Delete_fifth st;
  do st <- Delete_fifth st;
  do st <- Delete_fifth st;
  do o4 <- print st.1 st.2 "Three deletes of the 5th node";
  do st <- SetValue_each (FindNodes st.2 "lazy"%string) "quick"%string st;
  do o5 <- print st.1 st.2 "Lazy is now quick";
  Done (o1 ++ o2 ++ o3 ++ o4 ++ o5).

End demo.

(** ** A list of strings

    Four nodes are constructed; three are inserted, which gives the chain
    2 - 1 - 3 with values "x", "x", "y"; node 4 is never inserted. *)

Definition ex_heap : mem string :=
  {[ 1%positive := mkNode "x"%string None None;
     2%positive := mkNode "x"%string None None;
     3%positive := mkNode "y"%string None None;
     4%positive := mkNode "x"%string None None ]}.

Definition ex_ops : list (op string) :=
  [ OAppend None 1%positive;
    OPrepend (Some 1%positive) 2%positive;
    OAppend (Some 1%positive) 3%positive ].

(** The same calls, then node 1 is deleted, the value of node 3 is set and
    node 1 is inserted again, before node 2. *)
Definition ex_ops_move : list (op string) :=
  ex_ops ++ [ ODelete 1%positive;
              OSetValue 3%positive "z"%string;
              OPrepend (Some 2%positive) 1%positive ].

Definition ex_state : mem string * LList string :=
  match run ex_ops (ex_heap, New) with
  | Done st => st
  | _ => (ex_heap, New)
  end.

Definition ex_h : mem string := fst ex_state.
Definition ex_l : LList string := snd ex_state.

(** The list that holds node 1 alone. *)
Definition ex_single : mem string * LList string :=
  match Append ex_heap New None 1%positive with
  | Done st => st
  | _ => (ex_heap, New)
  end.

Definition ex1_h : mem string := fst ex_single.
Definition ex1_l : LList string := snd ex_single.

(** The capacities of the Go runtime for small slices: 1, 2, 4, 8, ... *)
Definition ex_grow (c : nat) : nat := if decide (c = 0) then 1 else 2 * c.

(** The index after node 1, then node 2, both of value "x", are
    registered. *)
Definition ex_index1 : SIndex string :=
  match addCount_s ex_grow ex_heap empty_index 1%positive with
  | Done ix => ix
  | _ => empty_index
  end.

Definition ex_index : SIndex string :=
  match addCount_s ex_grow ex_heap ex_index1 2%positive with
  | Done ix => ix
  | _ => empty_index
  end.

(** * Properties *)

Lemma obind_Done {A B : Type} (m : outcome A) (k : A → outcome B) (b : B) :
  obind m k = Done b ↔ ∃ a, m = Done a ∧ k a = Done b.
Proof.
  split.
  - destruct m as [a| |]; simpl; intros E; try discriminate. by exists a.
  - intros (a & -> & E). exact E.
Qed.

(** Invert an equation [... = Done x] along the binds of its left side. *)
Ltac inv_Done E :=
  let a := fresh "a" in
  let E1 := fresh "E" in
  apply obind_Done in E; destruct E as (a & E1 & E).

Section llist_facts.
Context {V : Type} `{Countable V}.
Implicit Types (h : mem V) (l : LList V) (n r : ref) (v : V) (nd : Node V).

(** ** Heap accesses *)

Lemma load_Done h r nd : load h r = Done nd ↔ h !! r = Some nd.
Proof. unfold load. destruct (h !! r); split; congruence. Qed.

Lemma load_Some h r nd : h !! r = Some nd → load h r = Done nd.
Proof. apply load_Done. Qed.

(** A node just constructed is new to the heap and unlinked. *)
Lemma lnode_New_fresh h v h' r :
  lnode_New h v = (h', r) →
  h !! r = None ∧ h' !! r = Some (mkNode v None None) ∧
  ∀ r', r' ≠ r → h' !! r' = h !! r'.
Proof.
  unfold lnode_New. intros [= <- <-]. split; [|split].
  - apply not_elem_of_dom, is_fresh.
  - apply lookup_insert_eq.
  - intros r' Hr. by rewrite lookup_insert_ne.
Qed.

Lemma set_Next_Done h r x h' :
  set_Next h r x = Done h' ↔
  ∃ nd, h !! r = Some nd ∧ h' = <[r := mkNode (Value nd) x (Prev nd)]> h.
Proof.
  unfold set_Next. rewrite obind_Done. setoid_rewrite load_Done.
  split; intros (nd & ? & ?); exists nd; split; congruence.
Qed.

Lemma set_Prev_Done h r x h' :
  set_Prev h r x = Done h' ↔
  ∃ nd, h !! r = Some nd ∧ h' = <[r := mkNode (Value nd) (Next nd) x]> h.
Proof.
  unfold set_Prev. rewrite obind_Done. setoid_rewrite load_Done.
  split; intros (nd & ? & ?); exists nd; split; congruence.
Qed.

Lemma set_Value_Done h r v h' :
  set_Value h r v = Done h' ↔
  ∃ nd, h !! r = Some nd ∧ h' = <[r := mkNode v (Next nd) (Prev nd)]> h.
Proof.
  unfold set_Value. rewrite obind_Done. setoid_rewrite load_Done.
  split; intros (nd & ? & ?); exists nd; split; congruence.
Qed.

Lemma same_values_refl h : same_values h h.
Proof. by intros r. Qed.

Lemma same_values_trans h1 h2 h3 :
  same_values h1 h2 → same_values h2 h3 → same_values h1 h3.
Proof. intros E1 E2 r. by rewrite E2, E1. Qed.

Lemma same_values_has_value h h' n v :
  same_values h h' → has_value h' n v ↔ has_value h n v.
Proof.
  intros E. unfold has_value. specialize (E n).
  destruct (h' !! n) as [nd'|], (h !! n) as [nd|]; simpl in E; try discriminate.
  - injection E as E. split; intros (x & [= <-] & <-); eauto.
  - split; intros (x & ? & _); discriminate.
Qed.

Lemma same_values_lookup h h' n nd :
  same_values h h' → h !! n = Some nd →
  ∃ nd', h' !! n = Some nd' ∧ Value nd' = Value nd.
Proof.
  intros E E1. specialize (E n). rewrite E1 in E.
  destruct (h' !! n) as [nd'|]; simpl in E; [|discriminate].
  exists nd'. split; congruence.
Qed.

Lemma set_Next_same_values h r x h' : set_Next h r x = Done h' → same_values h h'.
Proof.
  intros (nd & E & ->)%set_Next_Done r'.
  destruct (decide (r = r')) as [<-|Hne].
  - by rewrite lookup_insert_eq, E.
  - by rewrite lookup_insert_ne.
Qed.

Lemma set_Prev_same_values h r x h' : set_Prev h r x = Done h' → same_values h h'.
Proof.
  intros (nd & E & ->)%set_Prev_Done r'.
  destruct (decide (r = r')) as [<-|Hne].
  - by rewrite lookup_insert_eq, E.
  - by rewrite lookup_insert_ne.
Qed.

Lemma opt_set_Next_same_values h (o : option ref) x h' :
  match o with Some p => set_Next h p x | None => Done h end = Done h' →
  same_values h h'.
Proof.
  destruct o; [apply set_Next_same_values|].
  intros [= <-]. apply same_values_refl.
Qed.

Lemma opt_set_Prev_same_values h (o : option ref) x h' :
  match o with Some p => set_Prev h p x | None => Done h end = Done h' →
  same_values h h'.
Proof.
  destruct o; [apply set_Prev_same_values|].
  intros [= <-]. apply same_values_refl.
Qed.

Lemma lnode_Append_same_values h recv m h' :
  lnode_Append h recv m = Done h' → same_values h h'.
Proof.
  unfold lnode_Append. destruct recv as [n|]; [|discriminate]. intros E.
  inv_Done E. inv_Done E. inv_Done E. inv_Done E.
  eauto 10 using same_values_trans, set_Next_same_values, set_Prev_same_values,
    opt_set_Prev_same_values.
Qed.

Lemma lnode_Prepend_same_values h recv m h' :
  lnode_Prepend h recv m = Done h' → same_values h h'.
Proof.
  unfold lnode_Prepend. destruct recv as [n|]; [|discriminate]. intros E.
  inv_Done E. inv_Done E. inv_Done E. inv_Done E.
  eauto 10 using same_values_trans, set_Next_same_values, set_Prev_same_values,
    opt_set_Next_same_values.
Qed.

Lemma lnode_Delete_same_values h n h' :
  lnode_Delete h n = Done h' → same_values h h'.
Proof.
  unfold lnode_Delete. intros E.
  inv_Done E. inv_Done E.
  eauto 10 using same_values_trans, set_Next_same_values, set_Prev_same_values,
    opt_set_Next_same_values, opt_set_Prev_same_values.
Qed.

(** ** The value index *)

Lemma subCount_loop_filter n (nds : list ref) :
  subCount_loop n nds = filter (λ x, x ≠ n) nds.
Proof.
  unfold subCount_loop.
  enough (G : ∀ acc, foldl (λ newNds y, if decide (y = n) then newNds
                                        else newNds ++ [y]) acc nds
                     = acc ++ filter (λ x, x ≠ n) nds) by apply (G []).
  induction nds as [|x nds IH]; intros acc; simpl.
  - by rewrite app_nil_r.
  - rewrite IH. destruct (decide (x = n)) as [->|Hne].
    + rewrite filter_cons_False; [done | by intros ?].
    + rewrite filter_cons_True by done. by rewrite <- app_assoc.
Qed.

Lemma filter_ne_absent n (b : list ref) : n ∉ b → filter (λ x, x ≠ n) b = b.
Proof.
  induction b as [|x b IH]; [done|].
  intros [Hx Hb]%not_elem_of_cons.
  rewrite filter_cons_True by done. by rewrite IH.
Qed.

Lemma FindNodes_insert l v v' (b : list ref) (m : gmap V (list ref)) :
  m = nodes l →
  FindNodes (with_nodes l (<[v := b]> m)) v' =
  if decide (v = v') then b else FindNodes l v'.
Proof.
  intros ->. unfold FindNodes, with_nodes. simpl.
  rewrite lookup_insert. by destruct (decide (v = v')).
Qed.

(** [addCount] puts [n] at the end of the bucket of its value. *)
Lemma addCount_Done h l n nd :
  h !! n = Some nd →
  ∃ l', addCount h l n = Done l' ∧ head l' = head l ∧ tail l' = tail l ∧
        ∀ v, FindNodes l' v =
             if decide (Value nd = v) then FindNodes l v ++ [n] else FindNodes l v.
Proof.
  intros E. unfold addCount. rewrite (load_Some _ _ _ E). simpl.
  eexists. split; [reflexivity|]. split; [done|]. split; [done|].
  intros v. unfold FindNodes, with_nodes. simpl.
  destruct (nodes l !! Value nd) as [b|] eqn:Eb.
  - rewrite Eb. simpl. rewrite lookup_insert.
    destruct (decide (Value nd = v)) as [<-|]; [by rewrite Eb | done].
  - rewrite lookup_insert_eq. simpl. rewrite lookup_insert.
    destruct (decide (Value nd = v)) as [<-|Hne]; [by rewrite Eb|].
    by rewrite lookup_insert_ne.
Qed.

(** [subCount] removes every occurrence of [n] from the bucket of its
    value. *)
Lemma subCount_Done h l n nd :
  h !! n = Some nd →
  ∃ l', subCount h l n = Done l' ∧ head l' = head l ∧ tail l' = tail l ∧
        ∀ v, FindNodes l' v =
             if decide (Value nd = v) then filter (λ x, x ≠ n) (FindNodes l v)
             else FindNodes l v.
Proof.
  intros E. unfold subCount. rewrite (load_Some _ _ _ E). simpl.
  destruct (nodes l !! Value nd) as [b|] eqn:Eb.
  - eexists. split; [reflexivity|]. split; [done|]. split; [done|].
    intros v. rewrite FindNodes_insert by done. rewrite subCount_loop_filter.
    destruct (decide (Value nd = v)) as [<-|]; [|done].
    unfold FindNodes. by rewrite Eb.
  - exists l. split; [done|]. split; [done|]. split; [done|].
    intros v. destruct (decide (Value nd = v)) as [<-|]; [|done].
    unfold FindNodes. by rewrite Eb.
Qed.

(** A node that is not in the bucket of its value leaves the map as it
    is. *)
Lemma subCount_absent h l n nd :
  h !! n = Some nd → n ∉ FindNodes l (Value nd) → subCount h l n = Done l.
Proof.
  intros E Hn. unfold subCount. rewrite (load_Some _ _ _ E). simpl.
  unfold FindNodes in Hn.
  destruct (nodes l !! Value nd) as [b|] eqn:Eb; [|done].
  rewrite subCount_loop_filter.
  rewrite filter_ne_absent by done.
  rewrite insert_id by done. by destruct l.
Qed.

(** ** Totality of the primitive on a closed heap *)

Lemma same_values_alloc h h' r :
  same_values h h' → is_Some (h !! r) → is_Some (h' !! r).
Proof.
  intros E [nd End]. destruct (same_values_lookup _ _ _ _ E End) as (nd' & ? & _).
  by exists nd'.
Qed.

Lemma set_Next_total h r x :
  is_Some (h !! r) → ∃ h', set_Next h r x = Done h'.
Proof. intros [nd E]. eexists. apply set_Next_Done. eauto. Qed.

Lemma set_Prev_total h r x :
  is_Some (h !! r) → ∃ h', set_Prev h r x = Done h'.
Proof. intros [nd E]. eexists. apply set_Prev_Done. eauto. Qed.

Lemma lnode_Delete_total_at h n nd :
  h !! n = Some nd →
  (∀ x, Next nd = Some x → is_Some (h !! x)) →
  (∀ x, Prev nd = Some x → is_Some (h !! x)) →
  ∃ h', lnode_Delete h n = Done h'.
Proof.
  intros E HN HP.
  unfold lnode_Delete. rewrite (load_Some _ _ _ E). simpl.
  assert (∃ h1, match Prev nd with
                | Some p => set_Next h p (Next nd)
                | None => Done h
                end = Done h1) as [h1 E1].
  { destruct (Prev nd) as [p|]; [|by eexists].
    apply set_Next_total. by apply HP. }
  rewrite E1. simpl.
  pose proof (opt_set_Next_same_values _ _ _ _ E1) as S1.
  destruct (Next nd) as [x|]; [|by eexists].
  apply set_Prev_total. eapply same_values_alloc; [done|]. by apply HN.
Qed.

Lemma lnode_Delete_total h n nd :
  closed h → h !! n = Some nd → ∃ h', lnode_Delete h n = Done h'.
Proof.
  intros Hc E. destruct (Hc _ _ E) as [HN HP].
  by apply (lnode_Delete_total_at h n nd).
Qed.

Lemma closedb_closed h : closedb h = true → closed h.
Proof.
  unfold closedb. intros Hb%bool_decide_eq_true r nd E.
  destruct (Hb r nd E) as [HN HP]. unfold points_inside in *.
  split; intros x Ex.
  - rewrite Ex in HN. by apply bool_decide_unpack in HN.
  - rewrite Ex in HP. by apply bool_decide_unpack in HP.
Qed.

(** ** Delete *)

(** The endpoints after [Delete], case by case of the [switch]. *)
Lemma Delete_endpoints h l n nd h' l' :
  h !! n = Some nd → Delete h l n = Done (h', l') →
  Head l' = (if decide (Some n = head l) then Next nd else head l) ∧
  Tail l' = (if decide (Some n = head l) then tail l
             else if decide (Some n = tail l) then Prev nd else tail l) ∧
  lnode_Delete h n = Done h'.
Proof.
  intros E ED. unfold Delete in ED. rewrite (load_Some _ _ _ E) in ED.
  inv_Done ED. inv_Done ED. inv_Done ED. injection ED as <- <-.
  pose proof (lnode_Delete_same_values _ _ _ E1) as SV.
  destruct (same_values_lookup _ _ _ _ SV E) as (nd' & End' & _).
  destruct (subCount_Done a0 a n nd' End') as (l2 & E3 & Hh & Ht & _).
  rewrite E3 in E2. injection E2 as <-.
  unfold Head, Tail. rewrite Hh, Ht. split; [|split; [|done]].
  - destruct (decide (Some n = head l)); simpl in E0.
    + by injection E0 as <-.
    + destruct (decide (Some n = tail l)); simpl in E0; by injection E0 as <-.
  - destruct (decide (Some n = head l)); simpl in E0.
    + by injection E0 as <-.
    + destruct (decide (Some n = tail l)); simpl in E0; by injection E0 as <-.
Qed.

Lemma Delete_total h l n nd :
  closed h → h !! n = Some nd → ∃ h' l', Delete h l n = Done (h', l').
Proof.
  intros Hc E. unfold Delete. rewrite (load_Some _ _ _ E).
  destruct (lnode_Delete_total h n nd Hc E) as [h1 E1].
  pose proof (lnode_Delete_same_values _ _ _ E1) as SV.
  destruct (same_values_lookup _ _ _ _ SV E) as (nd' & End' & _).
  set (l1 := if decide (Some n = head l) then _ else _).
  assert (∃ l1', l1 = Done l1') as [l1' ->].
  { subst l1. repeat case_decide; simpl; eauto. }
  simpl. rewrite E1. simpl.
  destruct (subCount_Done h1 l1' n nd' End') as (l2 & -> & _).
  simpl. eauto.
Qed.

(** C7: deleting a node that the index does not hold under its value (a
    node already deleted, or never inserted) completes and changes no bucket:
    the map [nodes] is the same, so [FindNodes] returns what it returned for
    every value; [Head()] changes only when the node is the cached head and
    [Tail()] only when it is the cached tail. *)
Theorem Delete_unregistered_noop h l n nd :
  closed h → h !! n = Some nd → n ∉ FindNodes l (Value nd) →
  ∃ h' l', Delete h l n = Done (h', l') ∧
           nodes l' = nodes l ∧
           (∀ v, FindNodes l' v = FindNodes l v) ∧
           (Head l ≠ Some n → Head l' = Head l) ∧
           (Tail l ≠ Some n → Tail l' = Tail l).
Proof.
  intros Hc E Hn.
  destruct (Delete_total h l n nd Hc E) as (h' & l' & ED).
  exists h', l'. split; [done|].
  destruct (Delete_endpoints _ _ _ _ _ _ E ED) as (Hh & Ht & E1).
  assert (nodes l' = nodes l) as En.
  { unfold Delete in ED. rewrite (load_Some _ _ _ E) in ED.
    inv_Done ED. inv_Done ED. inv_Done ED. injection ED as <- <-.
    pose proof (lnode_Delete_same_values _ _ _ E2) as SV.
    destruct (same_values_lookup _ _ _ _ SV E) as (nd' & End' & Ev).
    assert (nodes a = nodes l) as Ea.
    { repeat case_decide; simpl in E0; by injection E0 as <-. }
    rewrite (subCount_absent a0 a n nd') in E3.
    - by injection E3 as <-.
    - done.
    - rewrite Ev. unfold FindNodes in *. by rewrite Ea. }
  split; [done|]. split.
  { intros v. unfold FindNodes. by rewrite En. }
  split.
  - intros Hne. rewrite Hh. unfold Head in *. case_decide; congruence.
  - intros Hne. rewrite Ht. unfold Tail in *. repeat case_decide; congruence.
Qed.

(** ** SetValue *)

(** [SetValue] runs to completion on every node of the heap; it rewrites the
    value of the node and the two buckets concerned, nothing else. *)
Lemma SetValue_Done h l n nd v :
  h !! n = Some nd →
  ∃ l', SetValue h l n v = Done (<[n := mkNode v (Next nd) (Prev nd)]> h, l') ∧
        head l' = head l ∧ tail l' = tail l ∧
        ∀ w, FindNodes l' w =
             let b := if decide (Value nd = w)
                      then filter (λ x, x ≠ n) (FindNodes l w)
                      else FindNodes l w in
             if decide (v = w) then b ++ [n] else b.
Proof.
  intros E. unfold SetValue.
  destruct (subCount_Done h l n nd E) as (l1 & -> & Hh1 & Ht1 & HF1). simpl.
  unfold set_Value. rewrite (load_Some _ _ _ E). simpl.
  set (h1 := <[n := _]> h).
  assert (h1 !! n = Some (mkNode v (Next nd) (Prev nd))) as E1
    by apply lookup_insert_eq.
  destruct (addCount_Done h1 l1 n _ E1) as (l2 & -> & Hh2 & Ht2 & HF2). simpl.
  exists l2. split; [done|]. split; [congruence|]. split; [congruence|].
  intros w. rewrite HF2, HF1. simpl. done.
Qed.

(** C8, amended: for every node of the heap and every value, [SetValue]
    completes, registers the node at the end of the bucket of the new value
    and leaves [Head()], [Tail()] and all links as they were; the node is
    gone from the bucket of its old value when the new value differs from
    the old one. *)
Theorem SetValue_reindexes h l n nd v :
  h !! n = Some nd →
  ∃ h' l', SetValue h l n v = Done (h', l') ∧
           n ∈ FindNodes l' v ∧ last (FindNodes l' v) = Some n ∧
           (v ≠ Value nd → n ∉ FindNodes l' (Value nd)) ∧
           Head l' = Head l ∧ Tail l' = Tail l ∧
           (∀ r, Next <$> (h' !! r) = Next <$> (h !! r)) ∧
           (∀ r, Prev <$> (h' !! r) = Prev <$> (h !! r)).
Proof.
  intros E. destruct (SetValue_Done h l n nd v E) as (l' & ES & Hh & Ht & HF).
  eexists _, l'. split; [exact ES|]. split; [|split; [|split; [|split; [|split]]]].
  - rewrite HF. simpl. rewrite decide_True by done.
    apply elem_of_app. right. by apply list_elem_of_singleton.
  - rewrite HF. simpl. rewrite decide_True by done. apply last_snoc.
  - intros Hne. rewrite HF. simpl.
    rewrite (decide_False (P := v = Value nd)) by done.
    rewrite decide_True by done.
    intros [? _]%list_elem_of_filter. done.
  - done.
  - done.
  - split; intros r; (destruct (decide (n = r)) as [<-|];
      [by rewrite lookup_insert_eq, E | by rewrite lookup_insert_ne]).
Qed.

(** C10: setting a registered node to the value it already holds keeps the
    members of the bucket and puts the node last: the bucket becomes what it
    was without the node, followed by the node, and so differs from what it
    was unless the node was already last.  Other buckets do not change. *)
Theorem SetValue_same_value_moves_last h l n nd :
  h !! n = Some nd → n ∈ FindNodes l (Value nd) →
  ∃ h' l', SetValue h l n (Value nd) = Done (h', l') ∧
           (∀ x, x ∈ FindNodes l' (Value nd) ↔ x ∈ FindNodes l (Value nd)) ∧
           FindNodes l' (Value nd) =
             filter (λ x, x ≠ n) (FindNodes l (Value nd)) ++ [n] ∧
           last (FindNodes l' (Value nd)) = Some n ∧
           (last (FindNodes l (Value nd)) ≠ Some n →
            FindNodes l' (Value nd) ≠ FindNodes l (Value nd)) ∧
           (∀ w, w ≠ Value nd → FindNodes l' w = FindNodes l w).
Proof.
  intros E Hn.
  destruct (SetValue_Done h l n nd (Value nd) E) as (l' & ES & _ & _ & HF).
  eexists _, l'. split; [exact ES|].
  assert (FindNodes l' (Value nd) =
          filter (λ x, x ≠ n) (FindNodes l (Value nd)) ++ [n]) as EF.
  { rewrite HF. simpl. by rewrite !decide_True by done. }
  split; [|split; [done|split; [|split]]].
  - intros x. rewrite EF, elem_of_app, list_elem_of_filter, list_elem_of_singleton.
    split.
    + intros [[_ ?]| ->]; done.
    + intros Hx. destruct (decide (x = n)); [by right | by left].
  - rewrite EF. apply last_snoc.
  - intros Hl Heq. apply Hl. rewrite <- Heq, EF. apply last_snoc.
  - intros w Hw. rewrite HF. simpl. by rewrite !decide_False by done.
Qed.

(** ** Inversion of the methods *)

Lemma addCount_inv h l n l' :
  addCount h l n = Done l' →
  ∃ nd, h !! n = Some nd ∧ head l' = head l ∧ tail l' = tail l ∧
        ∀ v, FindNodes l' v =
             if decide (Value nd = v) then FindNodes l v ++ [n] else FindNodes l v.
Proof.
  intros E. assert (∃ nd, h !! n = Some nd) as [nd End].
  { unfold addCount in E. inv_Done E. apply load_Done in E0. eauto. }
  destruct (addCount_Done h l n nd End) as (l2 & E2 & ?).
  rewrite E2 in E. injection E as <-. eauto.
Qed.

Lemma subCount_inv h l n l' :
  subCount h l n = Done l' →
  ∃ nd, h !! n = Some nd ∧ head l' = head l ∧ tail l' = tail l ∧
        ∀ v, FindNodes l' v =
             if decide (Value nd = v) then filter (λ x, x ≠ n) (FindNodes l v)
             else FindNodes l v.
Proof.
  intros E. assert (∃ nd, h !! n = Some nd) as [nd End].
  { unfold subCount in E. inv_Done E. apply load_Done in E0. eauto. }
  destruct (subCount_Done h l n nd End) as (l2 & E2 & ?).
  rewrite E2 in E. injection E as <-. eauto.
Qed.

Lemma Append_inv h l anchor n h' l' :
  Append h l anchor n = Done (h', l') →
  same_values h h' ∧
  ∃ nd, h' !! n = Some nd ∧
        ∀ v, FindNodes l' v =
             if decide (Value nd = v) then FindNodes l v ++ [n] else FindNodes l v.
Proof.
  unfold Append. intros E. inv_Done E. destruct a as [h1 l1]. inv_Done E.
  injection E as <- <-.
  assert (same_values h h1 ∧ nodes l1 = nodes l) as [SV En].
  { destruct (head l); [case_decide|]; simpl in E0.
    - inv_Done E0. injection E0 as <- <-.
      eauto using lnode_Append_same_values.
    - inv_Done E0. injection E0 as <- <-.
      eauto using lnode_Append_same_values.
    - injection E0 as <- <-. split; [apply same_values_refl | done]. }
  split; [done|].
  destruct (addCount_inv _ _ _ _ E1) as (nd & End & _ & _ & HF).
  exists nd. split; [done|]. intros v. rewrite HF. unfold FindNodes. by rewrite En.
Qed.

Lemma Prepend_inv h l anchor n h' l' :
  Prepend h l anchor n = Done (h', l') →
  same_values h h' ∧
  ∃ nd, h' !! n = Some nd ∧
        ∀ v, FindNodes l' v =
             if decide (Value nd = v) then FindNodes l v ++ [n] else FindNodes l v.
Proof.
  unfold Prepend. intros E. inv_Done E. destruct a as [h1 l1]. inv_Done E.
  injection E as <- <-.
  assert (same_values h h1 ∧ nodes l1 = nodes l) as [SV En].
  { destruct (head l), (tail l); try case_decide;
      first [ injection E0 as <- <-; split; [apply same_values_refl | done]
            | inv_Done E0; injection E0 as <- <-;
              split; [by eapply lnode_Prepend_same_values | done] ]. }
  split; [done|].
  destruct (addCount_inv _ _ _ _ E1) as (nd & End & _ & _ & HF).
  exists nd. split; [done|]. intros v. rewrite HF. unfold FindNodes. by rewrite En.
Qed.

Lemma Delete_inv h l n h' l' :
  Delete h l n = Done (h', l') →
  same_values h h' ∧
  ∃ nd, h' !! n = Some nd ∧
        ∀ v, FindNodes l' v =
             if decide (Value nd = v) then filter (λ x, x ≠ n) (FindNodes l v)
             else FindNodes l v.
Proof.
  unfold Delete. intros E. inv_Done E. inv_Done E. inv_Done E.
  injection E as <- <-.
  assert (nodes a = nodes l) as En.
  { repeat case_decide; simpl in E0; try inv_Done E0; by injection E0 as <-. }
  split; [by eapply lnode_Delete_same_values|].
  destruct (subCount_inv _ _ _ _ E2) as (nd & End & _ & _ & HF).
  exists nd. split; [done|]. intros v. rewrite HF. unfold FindNodes. by rewrite En.
Qed.

Lemma SetValue_inv h l n v h' l' :
  SetValue h l n v = Done (h', l') → ∃ nd, h !! n = Some nd.
Proof.
  unfold SetValue. intros E. inv_Done E.
  destruct (subCount_inv _ _ _ _ E0) as (nd & ? & _). eauto.
Qed.

(** ** The index follows the members *)

Lemma index_ok_same_values M h h' l :
  same_values h h' → index_ok M h l → index_ok M h' l.
Proof.
  intros SV IH v. destruct (IH v) as [ND Hm]. split; [done|].
  intros n. rewrite Hm. by rewrite (same_values_has_value h h').
Qed.

Lemma has_value_fun h n v w : has_value h n v → has_value h n w → v = w.
Proof. intros (nd & E1 & <-) (nd' & E2 & <-). congruence. Qed.

Lemma index_ok_add M h l l' n nd :
  index_ok M h l → h !! n = Some nd → n ∉ M →
  (∀ v, FindNodes l' v =
        if decide (Value nd = v) then FindNodes l v ++ [n] else FindNodes l v) →
  index_ok (M ∪ {[n]}) h l'.
Proof.
  intros IH E Hn HF v. destruct (IH v) as [ND Hm]. rewrite HF.
  assert (n ∉ FindNodes l v) as Hnv by (rewrite Hm; tauto).
  destruct (decide (Value nd = v)) as [<-|Hne].
  - split.
    + apply NoDup_app. split; [done|]. split; [|apply NoDup_singleton].
      intros x Hx ->%list_elem_of_singleton. done.
    + intros x. rewrite elem_of_app, list_elem_of_singleton, Hm, elem_of_union,
        elem_of_singleton.
      split; [|tauto]. intros [[? ?]| ->]; [tauto|].
      split; [tauto|]. by exists nd.
  - split; [done|]. intros x. rewrite Hm, elem_of_union, elem_of_singleton.
    split; [tauto|]. intros [[?| ->] Hv]; [done|].
    destruct Hne. apply (has_value_fun h n); [by exists nd | done].
Qed.

Lemma index_ok_sub M h l l' n nd :
  index_ok M h l → h !! n = Some nd →
  (∀ v, FindNodes l' v =
        if decide (Value nd = v) then filter (λ x, x ≠ n) (FindNodes l v)
        else FindNodes l v) →
  index_ok (M ∖ {[n]}) h l'.
Proof.
  intros IH E HF v. destruct (IH v) as [ND Hm]. rewrite HF.
  destruct (decide (Value nd = v)) as [<-|Hne].
  - split; [by apply NoDup_filter|].
    intros x. rewrite list_elem_of_filter, Hm, elem_of_difference,
      elem_of_singleton. tauto.
  - split; [done|]. intros x. rewrite Hm, elem_of_difference, elem_of_singleton.
    split; [|tauto]. intros [? Hv]. split; [|done]. split; [done|].
    intros ->. destruct Hne. apply (has_value_fun h n); [by exists nd | done].
Qed.

Lemma index_ok_set_Value M h l n nd' :
  index_ok M h l → n ∉ M → index_ok M (<[n := nd']> h) l.
Proof.
  intros IH Hn v. destruct (IH v) as [ND Hm]. split; [done|].
  intros x. rewrite Hm. unfold has_value.
  split; intros [Hx (y & E & Ev)]; (split; [done|]); exists y;
    (split; [|done]); assert (n ≠ x) by congruence.
  - by rewrite lookup_insert_ne.
  - by rewrite lookup_insert_ne in E.
Qed.

(** One call keeps the index in step with the members. *)
Lemma step_index_ok M h l o h' l' :
  index_ok M h l → op_ok M o = true → step (h, l) o = Done (h', l') →
  index_ok (members_step M o) h' l'.
Proof.
  intros IH Hok E. destruct o as [anchor n|anchor n|n|n v]; simpl in *.
  - apply bool_decide_eq_true in Hok.
    destruct (Append_inv _ _ _ _ _ _ E) as (SV & nd & End & HF).
    eapply index_ok_add; eauto using index_ok_same_values.
  - apply bool_decide_eq_true in Hok.
    destruct (Prepend_inv _ _ _ _ _ _ E) as (SV & nd & End & HF).
    eapply index_ok_add; eauto using index_ok_same_values.
  - destruct (Delete_inv _ _ _ _ _ E) as (SV & nd & End & HF).
    eapply index_ok_sub; eauto using index_ok_same_values.
  - apply bool_decide_eq_true in Hok.
    destruct (SetValue_inv _ _ _ _ _ _ E) as (nd & End).
    unfold SetValue in E. inv_Done E. inv_Done E. inv_Done E.
    injection E as <- <-.
    destruct (subCount_inv _ _ _ _ E0) as (nd1 & End1 & _ & _ & HF1).
    apply set_Value_Done in E1 as (nd2 & End2 & ->).
    destruct (addCount_inv _ _ _ _ E2) as (nd3 & End3 & _ & _ & HF3).
    assert (M = (M ∖ {[n]}) ∪ {[n]}) as ->.
    { apply set_eq. intros x. rewrite elem_of_union, elem_of_difference,
        elem_of_singleton. destruct (decide (x = n)) as [->|]; tauto. }
    assert (n ∉ M ∖ {[n]}) as Hout
      by (rewrite elem_of_difference, elem_of_singleton; tauto).
    eapply index_ok_add; [| exact End3 | exact Hout | exact HF3].
    apply index_ok_set_Value; [|exact Hout].
    eapply index_ok_sub; eauto.
Qed.

Lemma index_ok_New h : index_ok ∅ h New.
Proof.
  intros v. unfold FindNodes, New. simpl. rewrite lookup_empty.
  split; [apply NoDup_nil_2|]. intros n. split; [by intros ?%elem_of_nil|].
  intros [?%elem_of_empty _]. done.
Qed.

Lemma run_index_ok ops : ∀ M h l h' l',
  index_ok M h l → trace_ok M ops = true → run ops (h, l) = Done (h', l') →
  index_ok (members_after M ops) h' l'.
Proof.
  induction ops as [|o ops IH]; intros M h l h' l' Hi Hok E; simpl in *.
  - by injection E as <- <-.
  - apply andb_true_iff in Hok as [Ho Hok]. inv_Done E. destruct a as [h1 l1].
    eapply IH; [|exact Hok|exact E]. eapply step_index_ok; eauto.
Qed.

(** C3, amended: after any sequence of [Append], [Prepend], [Delete] and
    [SetValue] calls on a new list that respects the life cycle of nodes (a
    node is inserted while it is not in the list, its value is set while it
    is) and runs to completion, [FindNodes(v)] holds, for every value [v],
    exactly the nodes of the list whose current value is [v], each once. *)
Theorem FindNodes_exact ops h0 h l v :
  trace_ok ∅ ops = true → run ops (h0, New) = Done (h, l) →
  NoDup (FindNodes l v) ∧
  ∀ n, n ∈ FindNodes l v ↔ n ∈ members_after ∅ ops ∧ has_value h n v.
Proof.
  intros Hok E. apply (run_index_ok ops ∅ h0 New h l); auto using index_ok_New.
Qed.

(** ** Walking a chain *)

Lemma value_is_spec h v n : value_is h v n ↔ has_value h n v.
Proof.
  unfold value_is, has_value. destruct (h !! n) as [nd|].
  - rewrite bool_decide_spec. split; [eauto|]. by intros (? & [= <-] & ?).
  - split; [done|]. by intros (? & ? & _).
Qed.

Lemma linked_alloc h p c x : linked h p c → x ∈ c → is_Some (h !! x).
Proof.
  revert p. induction c as [|n c IH]; intros p Hl Hx.
  - by apply elem_of_nil in Hx.
  - destruct Hl as (nd & E & _ & _ & Hl).
    apply elem_of_cons in Hx as [->|Hx]; [by exists nd | by eapply IH].
Qed.

Lemma linked_length h p c : NoDup c → linked h p c → length c ≤ size h.
Proof.
  intros ND Hl.
  rewrite <- (size_list_to_set (C := gset ref) c) by done.
  rewrite <- (size_dom (D := gset ref) h).
  apply subseteq_size. intros x Hx%elem_of_list_to_set.
  apply elem_of_dom. by eapply linked_alloc.
Qed.

(** From any node of a chain, [walk_prev] reaches the first node and
    [walk_next] the last, when the fuel covers the way. *)
Lemma walk_prev_linked h c1 : ∀ c2 n fuel,
  linked h None (c1 ++ n :: c2) → length c1 < fuel →
  walk_prev fuel h n = Done (default n (hd_error c1)).
Proof.
  induction c1 as [|m c1 IH] using rev_ind; intros c2 n fuel Hl Hf.
  - destruct fuel as [|k]; [lia|]. simpl in *.
    destruct Hl as (nd & E & EP & _). rewrite (load_Some _ _ _ E). simpl.
    by rewrite EP.
  - rewrite length_app in Hf. simpl in Hf.
    destruct fuel as [|k]; [lia|].
    assert (∃ nd, h !! n = Some nd ∧ Prev nd = Some m) as (nd & E & EP).
    { clear IH Hf. rewrite <- app_assoc in Hl. simpl in Hl.
      generalize dependent (@None ref). induction c1 as [|y c1 IH]; intros p Hl.
      - destruct Hl as (_ & _ & _ & _ & nd & E & EP & _). eauto.
      - destruct Hl as (_ & _ & _ & _ & Hl). eauto. }
    simpl. rewrite (load_Some _ _ _ E). simpl. rewrite EP.
    rewrite <- app_assoc in Hl. simpl in Hl.
    rewrite (IH (n :: c2) m k Hl) by lia.
    f_equal. by destruct c1.
Qed.

Lemma walk_next_linked h c2 : ∀ p n fuel,
  linked h p (n :: c2) → length c2 < fuel →
  walk_next fuel h n = Done (default n (last c2)).
Proof.
  induction c2 as [|m c2 IH]; intros p n fuel Hl Hf;
    (destruct fuel as [|k]; [simpl in Hf; lia|]);
    destruct Hl as (nd & E & _ & EN & Hl); simpl;
    rewrite (load_Some _ _ _ E); simpl; rewrite EN; simpl.
  - done.
  - simpl in Hf. rewrite (IH (Some n) m k Hl) by lia.
    f_equal. destruct c2 as [|y c2]; [done|]. rewrite last_cons_cons.
    destruct (last (y :: c2)) eqn:El; [done|]. by apply last_None in El.
Qed.

(** ** The repair operations *)

Lemma with_head_id l : with_head l (head l) = l.
Proof. by destruct l. Qed.

Lemma with_tail_id l : with_tail l (tail l) = l.
Proof. by destruct l. Qed.

(** [FixHead] and [FixTail] find the boundaries of the chain from any of its
    nodes. *)
Lemma FixHead_from_node Head_nil h l c n :
  NoDup c → linked h None c → n ∈ c → head l = Some n →
  FixHead Head_nil h l = Done (with_head l (hd_error c)).
Proof.
  intros ND Hl Hn Eh. apply list_elem_of_split in Hn as (c1 & c2 & ->).
  unfold FixHead, lnode_Head. rewrite Eh.
  rewrite (walk_prev_linked h c1 c2 n) ; [|done|].
  - simpl. by destruct c1.
  - pose proof (linked_length _ _ _ ND Hl) as Hlen.
    rewrite length_app in Hlen. simpl in Hlen. lia.
Qed.

Lemma FixTail_from_node Tail_nil h l c n :
  NoDup c → linked h None c → n ∈ c → tail l = Some n →
  FixTail Tail_nil h l = Done (with_tail l (last c)).
Proof.
  intros ND Hl Hn Et. apply list_elem_of_split in Hn as (c1 & c2 & ->).
  unfold FixTail, lnode_Tail. rewrite Et.
  assert (∃ p, linked h p (n :: c2)) as [p Hl2].
  { clear ND. generalize dependent (@None ref).
    induction c1 as [|y c1 IH]; intros p Hl; [by exists p|].
    destruct Hl as (_ & _ & _ & _ & Hl). eauto. }
  rewrite (walk_next_linked h c2 p n); [|done|].
  - simpl. do 2 f_equal. rewrite last_app. simpl.
    destruct c2 as [|y c2]; [done|]. rewrite last_cons_cons.
    destruct (last (y :: c2)) eqn:El; [done|]. by apply last_None in El.
  - pose proof (linked_length _ _ _ ND Hl) as Hlen.
    rewrite length_app in Hlen. simpl in Hlen. lia.
Qed.

(** The traversal of [FixCounts] registers the nodes of the chain in chain
    order. *)
Lemma visit_addCount h c : ∀ n p l0 fuel,
  linked h p (n :: c) → length (n :: c) ≤ fuel →
  ∃ l', visit_next fuel h n
          (λ node l0, do l1 <- addCount h l0 node; Done (l1, true)) l0 = Done l' ∧
        head l' = head l0 ∧ tail l' = tail l0 ∧
        ∀ v, FindNodes l' v =
             FindNodes l0 v ++ filter (λ x, value_is h v x) (n :: c).
Proof.
  induction c as [|m c IH]; intros n p l0 fuel Hl Hf;
    (destruct fuel as [|k]; [simpl in Hf; lia|]);
    destruct Hl as (nd & E & _ & EN & Hl); simpl;
    destruct (addCount_Done h l0 n nd E) as (l1 & -> & Hh & Ht & HF); simpl;
    rewrite (load_Some _ _ _ E); simpl; rewrite EN; simpl.
  - exists l1. split; [done|]. split; [done|]. split; [done|].
    intros v. rewrite HF. destruct (decide (Value nd = v)) as [Ev|Ev].
    + by rewrite filter_cons_True by (apply value_is_spec; by exists nd).
    + rewrite filter_cons_False; [by rewrite app_nil_r|].
      rewrite value_is_spec. intros (x & E' & ?). congruence.
  - simpl in Hf. destruct (IH m (Some n) l1 k Hl) as (l' & -> & Hh' & Ht' & HF');
      [simpl; lia|].
    exists l'. split; [done|]. split; [congruence|]. split; [congruence|].
    intros v. rewrite HF', HF. destruct (decide (Value nd = v)) as [Ev|Ev].
    + rewrite (filter_cons_True _ n) by (apply value_is_spec; by exists nd).
      by rewrite <- app_assoc.
    + rewrite (filter_cons_False _ n); [done|].
      rewrite value_is_spec. intros (x & E' & ?). congruence.
Qed.

Lemma FixCounts_rebuilds h l c :
  NoDup c → linked h None c → Head l = hd_error c →
  ∃ l', FixCounts h l = Done l' ∧ Head l' = Head l ∧ Tail l' = Tail l ∧
        (c ≠ [] → ∀ v, FindNodes l' v = filter (λ x, value_is h v x) c).
Proof.
  intros ND Hl Eh. unfold FixCounts. destruct (Head l) as [hd|] eqn:EH;
    destruct c as [|n c]; try discriminate.
  - injection Eh as ->. unfold lnode_VisitByNext.
    destruct (visit_addCount h c n None (with_nodes l ∅) (S (size h)) Hl)
      as (l' & -> & Hh & Ht & HF).
    { pose proof (linked_length _ _ _ ND Hl). lia. }
    exists l'. split; [done|]. split; [rewrite <- EH; exact Hh|].
    split; [exact Ht|].
    intros _ v. rewrite HF.
    assert (FindNodes (with_nodes l ∅) v = []) as ->; [|done].
    unfold FindNodes, with_nodes. cbn [nodes]. by rewrite lookup_empty.
  - exists l. by repeat split.
Qed.

(** C5, amended: on a list whose cached head, tail and index match the chain,
    [FixCounts] completes and leaves [Head()] and [Tail()] as they were;
    [FindNodes(v)] holds the same nodes as before for every [v], as a
    permutation: after the rebuild they stand in chain order.  On a list
    that is not empty, [FixHead] and [FixTail] complete and change
    nothing. *)
Theorem repair_of_matching_state Head_nil Tail_nil h l c :
  matches_chain h l c →
  (∃ l', FixCounts h l = Done l' ∧ Head l' = Head l ∧ Tail l' = Tail l ∧
         (∀ v, FindNodes l' v ≡ₚ FindNodes l v) ∧
         (∀ v, FindNodes l' v = filter (λ x, value_is h v x) c)) ∧
  (c ≠ [] → FixHead Head_nil h l = Done l ∧ FixTail Tail_nil h l = Done l).
Proof.
  intros (ND & Hl & Eh & Et & Hi). split.
  - destruct (FixCounts_rebuilds h l c ND Hl Eh) as (l' & EF & Hh & Ht & HF).
    exists l'. split; [done|]. split; [done|]. split; [done|].
    assert (∀ v, FindNodes l' v = filter (λ x, value_is h v x) c) as HF'.
    { destruct c as [|n c]; [|by apply HF].
      intros v. simpl. unfold FixCounts in EF. rewrite Eh in EF. simpl in EF.
      injection EF as <-. destruct (Hi v) as [_ Hm].
      destruct (FindNodes l v) as [|x b]; [done|].
      destruct (proj1 (Hm x)) as [Hx _]; [by left|].
      by apply elem_of_empty in Hx. }
    split; [|done]. intros v. rewrite HF'. destruct (Hi v) as [NDv Hm].
    apply NoDup_Permutation; [by apply NoDup_filter | done |].
    intros x. rewrite list_elem_of_filter, Hm, elem_of_list_to_set, value_is_spec.
    tauto.
  - intros Hc. destruct c as [|n c]; [done|]. simpl in Eh. split.
    + rewrite (FixHead_from_node Head_nil h l (n :: c) n); [|done|done| |done].
      * simpl. rewrite <- Eh. by rewrite with_head_id.
      * by left.
    + destruct (last (n :: c)) as [t|] eqn:El; [|by apply last_None in El].
      rewrite (FixTail_from_node Tail_nil h l (n :: c) t); [|done|done| |done].
      * rewrite El, <- Et. by rewrite with_tail_id.
      * by apply last_Some_elem_of.
Qed.


(** ** The sole node *)

Lemma lnode_Delete_unlinked h n nd :
  h !! n = Some nd → Next nd = None → Prev nd = None →
  ∃ h', lnode_Delete h n = Done h'.
Proof.
  intros E EN EP. unfold lnode_Delete. rewrite (load_Some _ _ _ E). simpl.
  rewrite EN, EP. simpl. by eexists.
Qed.

Lemma Delete_total_of h l n nd h1 :
  h !! n = Some nd → lnode_Delete h n = Done h1 →
  ∃ l', Delete h l n = Done (h1, l').
Proof.
  intros E E1. unfold Delete. rewrite (load_Some _ _ _ E).
  pose proof (lnode_Delete_same_values _ _ _ E1) as SV.
  destruct (same_values_lookup _ _ _ _ SV E) as (nd' & End' & _).
  set (l1 := if decide (Some n = head l) then _ else _).
  assert (∃ l1', l1 = Done l1') as [l1' ->].
  { subst l1. repeat case_decide; simpl; eauto. }
  simpl. rewrite E1. simpl.
  destruct (subCount_Done h1 l1' n nd' End') as (l2 & -> & _).
  simpl. eauto.
Qed.

(** Deleting the node that is both the cached head and the cached tail. *)
Lemma Delete_head_and_tail h l n nd :
  h !! n = Some nd → Next nd = None → Prev nd = None →
  head l = Some n → tail l = Some n →
  ∃ h' l', Delete h l n = Done (h', l') ∧ Head l' = None ∧ Tail l' = Some n.
Proof.
  intros E EN EP Eh Et.
  destruct (lnode_Delete_unlinked h n nd E EN EP) as [h1 E1].
  destruct (Delete_total_of h l n nd h1 E E1) as [l' ED].
  exists h1, l'. split; [done|].
  destruct (Delete_endpoints _ _ _ _ _ _ E ED) as (Hh & Ht & _).
  rewrite Hh, Ht, Eh, Et. rewrite !decide_True by done. done.
Qed.

(** C1 at the sole node: on a list whose cached state matches a chain of one
    node, [Delete] of that node completes with [Head()] nil and [Tail()]
    still the deleted node: the [switch] runs the case of the head only. *)
Theorem Delete_sole_node_keeps_tail h l n :
  matches_chain h l [n] →
  ∃ h' l', Delete h l n = Done (h', l') ∧ Head l' = None ∧ Tail l' = Some n.
Proof.
  intros (_ & (nd & E & EP & EN & _) & Eh & Et & _).
  by apply (Delete_head_and_tail h l n nd).
Qed.

(** On a list without head, [Append] makes the node head and tail and
    registers it; the heap is not touched. *)
Lemma Append_empty h l anchor n nd :
  h !! n = Some nd → head l = None →
  ∃ l', Append h l anchor n = Done (h, l') ∧
        head l' = Some n ∧ tail l' = Some n ∧
        ∀ v, FindNodes l' v =
             if decide (Value nd = v) then FindNodes l v ++ [n] else FindNodes l v.
Proof.
  intros E Eh. unfold Append. rewrite Eh. simpl.
  destruct (addCount_Done h (with_tail (with_head l (Some n)) (Some n)) n nd E)
    as (l' & -> & Hh & Ht & HF).
  simpl. exists l'. split; [done|]. split; [done|]. split; [done|]. exact HF.
Qed.

(** C2 at the sole node: a new list, one [Append] of a node just
    constructed, one [Delete] of that node.  Both calls complete; no node is
    left in the list and [Head()] is nil, yet [Tail()] is the deleted
    node. *)
Theorem Append_Delete_on_New_stale_tail h anchor n nd :
  h !! n = Some nd → Next nd = None → Prev nd = None →
  ∃ h' l', run [OAppend anchor n; ODelete n] (h, New) = Done (h', l') ∧
           members_after (V := V) ∅ [OAppend anchor n; ODelete n] = ∅ ∧
           Head l' = None ∧ Tail l' = Some n.
Proof.
  intros E EN EP.
  destruct (Append_empty h New anchor n nd E eq_refl) as (l1 & EA & Hh & Ht & _).
  destruct (Delete_head_and_tail h l1 n nd E EN EP Hh Ht)
    as (h' & l' & ED & Hh' & Ht').
  exists h', l'. split; [|split; [|done]].
  - simpl. rewrite EA. simpl. rewrite ED. done.
  - unfold members_after. simpl. apply set_eq. intros x.
    rewrite elem_of_difference, elem_of_union, elem_of_singleton.
    pose proof (not_elem_of_empty (C := gset ref) x). tauto.
Qed.

(** C4 on the empty list: [Append] of a node just constructed followed by
    [Delete] of that node.  Both calls complete and [FindNodes] is back to
    what it was for every value; [Head()] is nil as before, but [Tail()],
    nil before, is now the deleted node. *)
Theorem Append_Delete_empty_not_restored h l anchor n nd :
  h !! n = Some nd → Next nd = None → Prev nd = None →
  head l = None → tail l = None → n ∉ FindNodes l (Value nd) →
  ∃ h1 l1 h2 l2,
    Append h l anchor n = Done (h1, l1) ∧ Delete h1 l1 n = Done (h2, l2) ∧
    (∀ v, FindNodes l2 v = FindNodes l v) ∧
    Head l2 = Head l ∧ Tail l2 = Some n ∧ Tail l2 ≠ Tail l.
Proof.
  intros E EN EP Eh Et Hn.
  destruct (Append_empty h l anchor n nd E Eh) as (l1 & EA & Hh & Ht & HF1).
  destruct (Delete_head_and_tail h l1 n nd E EN EP Hh Ht)
    as (h2 & l2 & ED & Hh2 & Ht2).
  exists h, l1, h2, l2. split; [done|]. split; [done|].
  split; [|split; [|split]].
  - destruct (Delete_inv _ _ _ _ _ ED) as (SV & nd2 & End2 & HF2).
    destruct (same_values_lookup _ _ _ _ SV E) as (nd' & End' & Ev).
    assert (nd' = nd2) as -> by congruence.
    intros v. rewrite HF2, HF1, Ev.
    destruct (decide (Value nd = v)) as [<-|]; [|done].
    rewrite filter_app, filter_ne_absent by done.
    rewrite filter_cons_False by (by intros ?). by rewrite app_nil_r.
  - unfold Head in *. congruence.
  - done.
  - unfold Tail in *. congruence.
Qed.

(** ** Append followed by Delete *)

Lemma linked_Next_in h p c a :
  linked h p c → a ∈ c →
  ∃ na, h !! a = Some na ∧ ∀ x, Next na = Some x → x ∈ c.
Proof.
  revert p. induction c as [|m c IH]; intros p Hl Ha.
  - by apply elem_of_nil in Ha.
  - destruct Hl as (nd & E & _ & EN & Hl).
    apply elem_of_cons in Ha as [->|Ha].
    + exists nd. split; [done|]. intros x Ex. right. rewrite EN in Ex.
      destruct c as [|y c]; [done|]. injection Ex as ->. by left.
    + destruct (IH _ Hl Ha) as (na & Ea & Hx). exists na. split; [done|].
      intros x Ex. right. by apply Hx.
Qed.

Lemma set_Next_lookup h r x h' r' :
  set_Next h r x = Done h' →
  h' !! r' = if decide (r = r')
             then (λ nd, mkNode (Value nd) x (Prev nd)) <$> h !! r'
             else h !! r'.
Proof.
  intros (nd & E & ->)%set_Next_Done. rewrite lookup_insert.
  case_decide as Hr; [|done]. subst r'. by rewrite E.
Qed.

Lemma set_Prev_lookup h r x h' r' :
  set_Prev h r x = Done h' →
  h' !! r' = if decide (r = r')
             then (λ nd, mkNode (Value nd) (Next nd) x) <$> h !! r'
             else h !! r'.
Proof.
  intros (nd & E & ->)%set_Prev_Done. rewrite lookup_insert.
  case_decide as Hr; [|done]. subst r'. by rewrite E.
Qed.

(** Linking a node after an anchor: the node gets the anchor as predecessor
    and the successor of the anchor as successor. *)
Lemma lnode_Append_node h a n na nd :
  h !! a = Some na → h !! n = Some nd → a ≠ n → Next na ≠ Some n →
  (∀ x, Next na = Some x → is_Some (h !! x)) →
  ∃ h', lnode_Append h (Some a) n = Done h' ∧
        h' !! n = Some (mkNode (Value nd) (Next na) (Some a)).
Proof.
  intros Ea En Hne Hnx Hx. unfold lnode_Append.
  rewrite (load_Some _ _ _ Ea). simpl.
  destruct (set_Prev_total h n (Some a)) as [h1 E1]; [by exists nd|].
  pose proof (set_Prev_same_values _ _ _ _ E1) as S1.
  destruct (set_Next_total h1 n (Next na)) as [h2 E2].
  { eapply same_values_alloc; [exact S1 | by exists nd]. }
  pose proof (set_Next_same_values _ _ _ _ E2) as S2.
  rewrite E1. simpl. rewrite E2. simpl.
  assert (h2 !! n = Some (mkNode (Value nd) (Next na) (Some a))) as En2.
  { rewrite (set_Next_lookup _ _ _ _ _ E2), decide_True by done.
    rewrite (set_Prev_lookup _ _ _ _ _ E1), decide_True by done.
    by rewrite En. }
  assert (∃ h3, match Next na with
                | Some x => set_Prev h2 x (Some n)
                | None => Done h2
                end = Done h3 ∧ h3 !! n = h2 !! n ∧ same_values h2 h3)
    as (h3 & -> & E3 & S3).
  { destruct (Next na) as [x|] eqn:Ex.
    - assert (x ≠ n) by congruence.
      destruct (set_Prev_total h2 x (Some n)) as [h3 E3].
      { eapply same_values_alloc; [exact S2|].
        eapply same_values_alloc; [exact S1|]. by apply Hx. }
      exists h3. split; [done|]. split.
      + by rewrite (set_Prev_lookup _ _ _ _ _ E3), decide_False.
      + by eapply set_Prev_same_values.
    - exists h2. split; [done|]. split; [done|]. apply same_values_refl. }
  simpl. destruct (set_Next_total h3 a (Some n)) as [h4 E4].
  { eapply same_values_alloc; [exact S3|].
    eapply same_values_alloc; [exact S2|].
    eapply same_values_alloc; [exact S1|]. by exists na. }
  exists h4. split; [done|].
  rewrite (set_Next_lookup _ _ _ _ _ E4), decide_False by done.
  by rewrite E3.
Qed.

(** The round trip away from the empty list: on a list that matches a
    chain, [Append] of a node that is not in the chain after an anchor that
    is, then [Delete] of that node, complete and give back [Head()],
    [Tail()] and [FindNodes] for every value. *)
Lemma Append_Delete_restores h l c a n nd :
  matches_chain h l c → a ∈ c → n ∉ c → h !! n = Some nd →
  ∃ h1 l1 h2 l2,
    Append h l (Some a) n = Done (h1, l1) ∧ Delete h1 l1 n = Done (h2, l2) ∧
    Head l2 = Head l ∧ Tail l2 = Tail l ∧
    ∀ v, FindNodes l2 v = FindNodes l v.
Proof.
  intros (ND & Hl & Eh & Et & Hi) Ha Hn En. unfold Head, Tail in *.
  destruct (linked_Next_in _ _ _ _ Hl Ha) as (na & Ea & Hx).
  assert (a ≠ n) as Hne by congruence.
  assert (∃ hd, head l = Some hd ∧ hd ≠ n) as (hd & Ehd & Hhd).
  { destruct c as [|y c]; [by apply elem_of_nil in Ha|].
    exists y. split; [done|]. intros ->. apply Hn. by left. }
  assert (∃ tl, tail l = Some tl ∧ tl ≠ n) as (tl & Etl & Htl).
  { destruct (last c) as [t|] eqn:El.
    - exists t. split; [done|]. intros ->. apply Hn. by apply last_Some_elem_of.
    - apply last_None in El. subst c. by apply elem_of_nil in Ha. }
  destruct (lnode_Append_node h a n na nd Ea En Hne) as (h1 & EL & En1).
  { intros Ex. apply Hn. by apply Hx. }
  { intros x Ex. eapply linked_alloc; [exact Hl|]. by apply Hx. }
  pose proof (lnode_Append_same_values _ _ _ _ EL) as SV.
  set (l0 := if decide (Some a = tail l) then with_tail l (Some n) else l).
  assert (head l0 = head l ∧ nodes l0 = nodes l ∧
          tail l0 = if decide (Some a = tail l) then Some n else tail l)
    as (Eh0 & En0 & Et0) by (subst l0; by case_decide).
  destruct (addCount_Done h1 l0 n _ En1) as (l1 & EA & Eh1 & Et1 & HF1).
  assert (Append h l (Some a) n = Done (h1, l1)) as EApp.
  { unfold Append. rewrite Ehd. subst l0. case_decide as Hd.
    - rewrite <- Hd, EL. simpl. by rewrite EA.
    - rewrite EL. simpl. by rewrite EA. }
  destruct (lnode_Delete_total_at h1 n _ En1) as [h2 ED1]; simpl.
  { intros x Ex. eapply same_values_alloc; [exact SV|].
    eapply linked_alloc; [exact Hl|]. by apply Hx. }
  { intros x [= <-]. eapply same_values_alloc; [exact SV|]. by exists na. }
  destruct (Delete_total_of h1 l1 n _ h2 En1 ED1) as [l2 ED].
  exists h1, l1, h2, l2. split; [done|]. split; [done|].
  destruct (Delete_endpoints _ _ _ _ _ _ En1 ED) as (Hh2 & Ht2 & _).
  unfold Head, Tail in *. simpl in *.
  rewrite Eh1, Eh0, Ehd in Hh2, Ht2. rewrite Et1, Et0 in Ht2.
  rewrite decide_False in Hh2, Ht2 by congruence.
  split; [congruence|]. split.
  - rewrite Ht2. destruct (decide (Some a = tail l)) as [Hd|Hd].
    + by rewrite decide_True.
    + rewrite decide_False; [done|]. congruence.
  - destruct (Delete_inv _ _ _ _ _ ED) as (SV2 & nd2 & End2 & HF2).
    destruct (same_values_lookup _ _ _ _ SV2 En1) as (nd' & End' & Ev).
    assert (nd' = nd2) as -> by congruence. simpl in Ev.
    assert (∀ v, n ∉ FindNodes l v) as Hout.
    { intros v [Hin _]%(proj2 (Hi v)). by apply elem_of_list_to_set in Hin. }
    intros v. rewrite HF2, Ev, HF1. simpl.
    assert (FindNodes l0 v = FindNodes l v) as ->
      by (unfold FindNodes; by rewrite En0).
    destruct (decide (Value nd = v)) as [<-|]; [|done].
    rewrite filter_app, filter_ne_absent by apply Hout.
    rewrite filter_cons_False by (by intros ?). by rewrite app_nil_r.
Qed.

(** ** Segments of a chain *)

Lemma linked_lseg h p c : linked h p c ↔ lseg h p c None.
Proof.
  revert p. induction c as [|n c IH]; intros p; simpl; [done|].
  split; intros (nd & E & EP & EN & Hl); exists nd; (split; [done|]);
    (split; [done|]); (split; [|by apply IH]); rewrite EN; by destruct c.
Qed.

Lemma lseg_app h c1 : ∀ p c2 q,
  lseg h p (c1 ++ c2) q ↔
  lseg h p c1 (from_option Some q (hd_error c2)) ∧
  lseg h (from_option Some p (last c1)) c2 q.
Proof.
  induction c1 as [|n c1 IH]; intros p c2 q; simpl; [tauto|].
  assert (from_option Some (Some n) (last c1) = from_option Some p (last (n :: c1)))
    as <-.
  { destruct c1 as [|y c1]; [done|]. rewrite last_cons_cons.
    destruct (last (y :: c1)) eqn:El; [done|]. by apply last_None in El. }
  assert (from_option Some q (hd_error (c1 ++ c2)) =
          from_option Some (from_option Some q (hd_error c2)) (hd_error c1)) as ->
    by (by destruct c1).
  split.
  - intros (nd & E & EP & EN & [H1 H2]%IH). split; [|done]. by exists nd.
  - intros [(nd & E & EP & EN & H1) H2]. exists nd. repeat (split; [done|]).
    apply IH. by split.
Qed.

(** A segment reads the heap at its own nodes only. *)
Lemma lseg_frame h h' c : ∀ p q,
  (∀ r, r ∈ c → h' !! r = h !! r) → lseg h p c q → lseg h' p c q.
Proof.
  induction c as [|n c IH]; intros p q Hf; simpl; [done|].
  intros (nd & E & EP & EN & Hl). exists nd. split.
  - rewrite Hf; [done | by left].
  - repeat (split; [done|]). apply IH; [|done]. intros r Hr. apply Hf. by right.
Qed.

(** Changing the predecessor of the first node of a segment. *)
Lemma lseg_set_first h h' x c p p' q nx :
  x ∉ c → h !! x = Some nx → h' !! x = Some (mkNode (Value nx) (Next nx) p') →
  (∀ r, r ∈ c → h' !! r = h !! r) →
  lseg h p (x :: c) q → lseg h' p' (x :: c) q.
Proof.
  intros Hx Ex Ex' Hf (nd & E & EP & EN & Hl). simpl.
  assert (nd = nx) as -> by congruence.
  eexists. split; [exact Ex'|]. simpl. repeat (split; [done|]).
  by apply (lseg_frame h).
Qed.

(** Changing the successor of the last node of a segment. *)
Lemma lseg_set_last h h' c y p q q' ny :
  y ∉ c → h !! y = Some ny → h' !! y = Some (mkNode (Value ny) q' (Prev ny)) →
  (∀ r, r ∈ c → h' !! r = h !! r) →
  lseg h p (c ++ [y]) q → lseg h' p (c ++ [y]) q'.
Proof.
  intros Hy Ey Ey' Hf [H1 H2]%lseg_app. apply lseg_app. simpl in *. split.
  - by apply (lseg_frame h).
  - destruct H2 as (nd & E & EP & EN & _).
    assert (nd = ny) as -> by congruence.
    eexists. split; [exact Ey'|]. simpl. by repeat (split; [done|]).
Qed.

(** ** The heap after a call of the primitive *)

Lemma opt_set_Next_lookup h (o : option ref) y h' r :
  match o with Some p => set_Next h p y | None => Done h end = Done h' →
  h' !! r = if decide (o = Some r)
            then (λ nd, mkNode (Value nd) y (Prev nd)) <$> h !! r
            else h !! r.
Proof.
  destruct o as [p|].
  - intros E. rewrite (set_Next_lookup _ _ _ _ r E).
    destruct (decide (p = r)) as [->|].
    + by rewrite decide_True.
    + rewrite decide_False; [done | congruence].
  - intros [= <-]. by rewrite decide_False.
Qed.

Lemma opt_set_Prev_lookup h (o : option ref) y h' r :
  match o with Some p => set_Prev h p y | None => Done h end = Done h' →
  h' !! r = if decide (o = Some r)
            then (λ nd, mkNode (Value nd) (Next nd) y) <$> h !! r
            else h !! r.
Proof.
  destruct o as [p|].
  - intros E. rewrite (set_Prev_lookup _ _ _ _ r E).
    destruct (decide (p = r)) as [->|].
    + by rewrite decide_True.
    + rewrite decide_False; [done | congruence].
  - intros [= <-]. by rewrite decide_False.
Qed.

Lemma opt_set_Next_total h (o : option ref) y :
  (∀ p, o = Some p → is_Some (h !! p)) →
  ∃ h', match o with Some p => set_Next h p y | None => Done h end = Done h'.
Proof. destruct o; [|by eexists]. intros Hp. apply set_Next_total. by apply Hp. Qed.

Lemma opt_set_Prev_total h (o : option ref) y :
  (∀ p, o = Some p → is_Some (h !! p)) →
  ∃ h', match o with Some p => set_Prev h p y | None => Done h end = Done h'.
Proof. destruct o; [|by eexists]. intros Hp. apply set_Prev_total. by apply Hp. Qed.

Lemma lnode_Append_heap h a n na nd :
  h !! a = Some na → h !! n = Some nd →
  a ≠ n → Next na ≠ Some n → Next na ≠ Some a →
  (∀ x, Next na = Some x → is_Some (h !! x)) →
  ∃ h', lnode_Append h (Some a) n = Done h' ∧
        h' !! n = Some (mkNode (Value nd) (Next na) (Some a)) ∧
        h' !! a = Some (mkNode (Value na) (Some n) (Prev na)) ∧
        (∀ x nx, Next na = Some x → h !! x = Some nx →
                 h' !! x = Some (mkNode (Value nx) (Next nx) (Some n))) ∧
        (∀ r, r ≠ n → r ≠ a → Next na ≠ Some r → h' !! r = h !! r).
Proof.
  intros Ea En Hne Hnn Hna Hx. unfold lnode_Append.
  rewrite (load_Some _ _ _ Ea). simpl.
  destruct (set_Prev_total h n (Some a)) as [h1 E1]; [by exists nd|].
  pose proof (set_Prev_same_values _ _ _ _ E1) as S1.
  destruct (set_Next_total h1 n (Next na)) as [h2 E2].
  { eapply same_values_alloc; [exact S1 | by exists nd]. }
  pose proof (set_Next_same_values _ _ _ _ E2) as S2.
  destruct (opt_set_Prev_total h2 (Next na) (Some n)) as [h3 E3].
  { intros x Ex. eapply same_values_alloc; [exact S2|].
    eapply same_values_alloc; [exact S1|]. by apply Hx. }
  pose proof (opt_set_Prev_same_values _ _ _ _ E3) as S3.
  destruct (set_Next_total h3 a (Some n)) as [h4 E4].
  { eapply same_values_alloc; [exact S3|].
    eapply same_values_alloc; [exact S2|].
    eapply same_values_alloc; [exact S1|]. by exists na. }
  rewrite E1. simpl. rewrite E2. simpl. rewrite E3. simpl.
  exists h4. split; [done|].
  assert (∀ r, h4 !! r =
    if decide (a = r)
    then (λ y, mkNode (Value y) (Some n) (Prev y)) <$>
         (if decide (Next na = Some r)
          then (λ y, mkNode (Value y) (Next y) (Some n)) <$> h !! r
          else h !! r)
    else if decide (Next na = Some r)
    then (λ y, mkNode (Value y) (Next y) (Some n)) <$>
         (if decide (n = r)
          then (λ y, mkNode (Value y) (Next na) (Some a)) <$> h !! r
          else h !! r)
    else if decide (n = r)
    then (λ y, mkNode (Value y) (Next na) (Some a)) <$> h !! r
    else h !! r) as Hlook.
  { intros r. rewrite (set_Next_lookup _ _ _ _ r E4).
    rewrite (opt_set_Prev_lookup _ _ _ _ r E3).
    rewrite (set_Next_lookup _ _ _ _ r E2).
    rewrite (set_Prev_lookup _ _ _ _ r E1).
    repeat case_decide; simplify_eq; try done.
    all: by destruct (h !! r). }
  split; [|split; [|split]].
  - rewrite Hlook. rewrite decide_False by done.
    rewrite decide_False by done. rewrite decide_True by done. by rewrite En.
  - rewrite Hlook. rewrite decide_True by done.
    rewrite decide_False by done. by rewrite Ea.
  - intros x nx Ex Enx. rewrite Hlook.
    rewrite decide_False by congruence. rewrite decide_True by done.
    rewrite decide_False by congruence. by rewrite Enx.
  - intros r Hrn Hra Hrx. rewrite Hlook.
    rewrite decide_False by done. rewrite decide_False by done.
    by rewrite decide_False.
Qed.

Lemma lnode_Prepend_heap h a n na nd :
  h !! a = Some na → h !! n = Some nd →
  a ≠ n → Prev na ≠ Some n → Prev na ≠ Some a →
  (∀ x, Prev na = Some x → is_Some (h !! x)) →
  ∃ h', lnode_Prepend h (Some a) n = Done h' ∧
        h' !! n = Some (mkNode (Value nd) (Some a) (Prev na)) ∧
        h' !! a = Some (mkNode (Value na) (Next na) (Some n)) ∧
        (∀ x nx, Prev na = Some x → h !! x = Some nx →
                 h' !! x = Some (mkNode (Value nx) (Some n) (Prev nx))) ∧
        (∀ r, r ≠ n → r ≠ a → Prev na ≠ Some r → h' !! r = h !! r).
Proof.
  intros Ea En Hne Hnn Hna Hx. unfold lnode_Prepend.
  rewrite (load_Some _ _ _ Ea). simpl.
  destruct (set_Next_total h n (Some a)) as [h1 E1]; [by exists nd|].
  pose proof (set_Next_same_values _ _ _ _ E1) as S1.
  destruct (set_Prev_total h1 n (Prev na)) as [h2 E2].
  { eapply same_values_alloc; [exact S1 | by exists nd]. }
  pose proof (set_Prev_same_values _ _ _ _ E2) as S2.
  destruct (opt_set_Next_total h2 (Prev na) (Some n)) as [h3 E3].
  { intros x Ex. eapply same_values_alloc; [exact S2|].
    eapply same_values_alloc; [exact S1|]. by apply Hx. }
  pose proof (opt_set_Next_same_values _ _ _ _ E3) as S3.
  destruct (set_Prev_total h3 a (Some n)) as [h4 E4].
  { eapply same_values_alloc; [exact S3|].
    eapply same_values_alloc; [exact S2|].
    eapply same_values_alloc; [exact S1|]. by exists na. }
  rewrite E1. simpl. rewrite E2. simpl. rewrite E3. simpl.
  exists h4. split; [done|].
  assert (∀ r, h4 !! r =
    if decide (a = r)
    then (λ y, mkNode (Value y) (Next y) (Some n)) <$>
         (if decide (Prev na = Some r)
          then (λ y, mkNode (Value y) (Some n) (Prev y)) <$> h !! r
          else h !! r)
    else if decide (Prev na = Some r)
    then (λ y, mkNode (Value y) (Some n) (Prev y)) <$>
         (if decide (n = r)
          then (λ y, mkNode (Value y) (Some a) (Prev na)) <$> h !! r
          else h !! r)
    else if decide (n = r)
    then (λ y, mkNode (Value y) (Some a) (Prev na)) <$> h !! r
    else h !! r) as Hlook.
  { intros r. rewrite (set_Prev_lookup _ _ _ _ r E4).
    rewrite (opt_set_Next_lookup _ _ _ _ r E3).
    rewrite (set_Prev_lookup _ _ _ _ r E2).
    rewrite (set_Next_lookup _ _ _ _ r E1).
    repeat case_decide; simplify_eq; try done.
    all: by destruct (h !! r). }
  split; [|split; [|split]].
  - rewrite Hlook. rewrite decide_False by done.
    rewrite decide_False by done. rewrite decide_True by done. by rewrite En.
  - rewrite Hlook. rewrite decide_True by done.
    rewrite decide_False by done. by rewrite Ea.
  - intros x nx Ex Enx. rewrite Hlook.
    rewrite decide_False by congruence. rewrite decide_True by done.
    rewrite decide_False by congruence. by rewrite Enx.
  - intros r Hrn Hra Hrx. rewrite Hlook.
    rewrite decide_False by done. rewrite decide_False by done.
    by rewrite decide_False.
Qed.

Lemma lnode_Delete_heap h n nd :
  h !! n = Some nd →
  Prev nd ≠ Some n → Next nd ≠ Some n →
  (∀ r, Prev nd = Some r → Next nd ≠ Some r) →
  (∀ x, Next nd = Some x → is_Some (h !! x)) →
  (∀ x, Prev nd = Some x → is_Some (h !! x)) →
  ∃ h', lnode_Delete h n = Done h' ∧
        h' !! n = Some nd ∧
        (∀ p np, Prev nd = Some p → h !! p = Some np →
                 h' !! p = Some (mkNode (Value np) (Next nd) (Prev np))) ∧
        (∀ x nx, Next nd = Some x → h !! x = Some nx →
                 h' !! x = Some (mkNode (Value nx) (Next nx) (Prev nd))) ∧
        (∀ r, r ≠ n → Prev nd ≠ Some r → Next nd ≠ Some r → h' !! r = h !! r).
Proof.
  intros En Hpn Hnn Hpx HN HP.
  destruct (lnode_Delete_total_at h n nd En HN HP) as [h4 ED].
  exists h4. split; [done|].
  unfold lnode_Delete in ED. rewrite (load_Some _ _ _ En) in ED. simpl in ED.
  inv_Done ED. rename a into h1.
  assert (∀ r, h4 !! r =
    if decide (Next nd = Some r)
    then (λ y, mkNode (Value y) (Next y) (Prev nd)) <$>
         (if decide (Prev nd = Some r)
          then (λ y, mkNode (Value y) (Next nd) (Prev y)) <$> h !! r
          else h !! r)
    else if decide (Prev nd = Some r)
    then (λ y, mkNode (Value y) (Next nd) (Prev y)) <$> h !! r
    else h !! r) as Hlook.
  { intros r. rewrite (opt_set_Prev_lookup _ _ _ _ r ED).
    rewrite (opt_set_Next_lookup _ _ _ _ r E).
    repeat case_decide; simplify_eq; try done.
    all: by destruct (h !! r). }
  split; [|split; [|split]].
  - rewrite Hlook. rewrite decide_False by done. by rewrite decide_False.
  - intros p np Ep Enp. rewrite Hlook.
    rewrite decide_False by (by apply Hpx).
    rewrite decide_True by done. by rewrite Enp.
  - intros x nx Ex Enx. rewrite Hlook. rewrite decide_True by done.
    rewrite decide_False by (intros Ep; by apply (Hpx x)). by rewrite Enx.
  - intros r Hrn Hrp Hrx. rewrite Hlook.
    rewrite decide_False by done. by rewrite decide_False.
Qed.

(** ** The cached state follows the chain *)

Lemma from_option_Some_None (o : option ref) : from_option Some None o = o.
Proof. by destruct o. Qed.

(** What [linked] says around one node of the chain. *)
Lemma linked_split h c1 n c2 :
  linked h None (c1 ++ n :: c2) →
  ∃ nd, h !! n = Some nd ∧ Prev nd = last c1 ∧ Next nd = hd_error c2 ∧
        lseg h None c1 (Some n) ∧ lseg h (Some n) c2 None.
Proof.
  intros [H1 (nd & E & EP & EN & H2)]%linked_lseg%lseg_app. simpl in *.
  rewrite from_option_Some_None in EP, EN. by exists nd.
Qed.

Lemma linked_join h c1 c2 :
  lseg h None c1 (hd_error c2) → lseg h (last c1) c2 None →
  linked h None (c1 ++ c2).
Proof.
  intros H1 H2. apply linked_lseg, lseg_app.
  by rewrite !from_option_Some_None.
Qed.

Lemma lseg_alloc h p c q x : lseg h p c q → x ∈ c → is_Some (h !! x).
Proof.
  revert p. induction c as [|n c IH]; intros p Hl Hx.
  - by apply elem_of_nil in Hx.
  - destruct Hl as (nd & E & _ & _ & Hl).
    apply elem_of_cons in Hx as [->|Hx]; [by exists nd | by eapply IH].
Qed.

Lemma NoDup_split (c1 c2 : list ref) n :
  NoDup (c1 ++ n :: c2) →
  NoDup c1 ∧ NoDup c2 ∧ (n ∉ c1) ∧ (n ∉ c2) ∧ (∀ x, x ∈ c1 → x ∉ c2).
Proof.
  intros (ND1 & Hd & [Hn ND2]%NoDup_cons)%NoDup_app.
  split; [done|]. split; [done|]. split; [|split; [done|]].
  - intros Hin. apply (Hd n Hin). by left.
  - intros x Hx Hx2. apply (Hd x Hx). by right.
Qed.

Lemma last_app_cons (c1 c2 : list ref) n :
  last (c1 ++ n :: c2) = Some (default n (last c2)).
Proof.
  rewrite last_app. destruct c2 as [|y c2]; [done|]. rewrite last_cons_cons.
  destruct (last (y :: c2)) eqn:El; [done|]. by apply last_None in El.
Qed.

Lemma hd_error_app_cons (c1 c2 : list ref) n :
  hd_error (c1 ++ n :: c2) = Some (default n (hd_error c1)).
Proof. by destruct c1. Qed.

Lemma last_elem_of_default (c : list ref) n : c ≠ [] → default n (last c) ∈ c.
Proof.
  intros Hc. destruct (last c) eqn:El; [by apply last_Some_elem_of|].
  by apply last_None in El.
Qed.

Lemma index_ok_members (M M' : gset ref) h l :
  (∀ x, x ∈ M ↔ x ∈ M') → index_ok M h l → index_ok M' h l.
Proof.
  intros HM Hi v. destruct (Hi v) as [ND Hm]. split; [done|].
  intros n. by rewrite Hm, HM.
Qed.

(** [Append] on the empty list. *)
Lemma Append_matches_empty h l anchor n nd :
  matches_chain h l [] →
  h !! n = Some nd → Next nd = None → Prev nd = None →
  ∃ l', Append h l anchor n = Done (h, l') ∧ matches_chain h l' [n].
Proof.
  intros (_ & _ & Eh & _ & Hi) En EN EP.
  destruct (Append_empty h l anchor n nd En Eh) as (l' & EA & Hh & Ht & HF).
  exists l'. split; [done|]. split; [apply NoDup_singleton|].
  split; [by exists nd|]. split; [done|]. split; [done|].
  eapply index_ok_members; [|eapply (index_ok_add ∅); eauto].
  - intros x. rewrite elem_of_list_to_set, elem_of_union, elem_of_singleton,
      list_elem_of_singleton.
    pose proof (not_elem_of_empty (C := gset ref) x). tauto.
  - apply not_elem_of_empty.
Qed.

(** [Append] after a node of the chain. *)
Lemma Append_matches h l c1 a c2 n nd :
  matches_chain h l (c1 ++ a :: c2) → n ∉ c1 ++ a :: c2 → h !! n = Some nd →
  ∃ h' l', Append h l (Some a) n = Done (h', l') ∧
           matches_chain h' l' (c1 ++ a :: n :: c2).
Proof.
  intros (ND & Hl & Eh & Et & Hi) Hn En. unfold Head, Tail in *.
  destruct (linked_split _ _ _ _ Hl) as (na & Ea & EPa & ENa & H1 & H2).
  destruct (NoDup_split _ _ _ ND) as (ND1 & ND2 & Ha1 & Ha2 & H12).
  rewrite elem_of_app, elem_of_cons in Hn.
  assert (a ≠ n ∧ (n ∉ c1) ∧ (n ∉ c2)) as (Hne & Hn1 & Hn2)
    by (split; [|split]; [intros ->|..]; tauto).
  destruct (lnode_Append_heap h a n na nd Ea En Hne)
    as (h' & EL & En' & Ea' & Hx' & Hframe).
  { rewrite ENa. destruct c2; [done|]. intros [= ->]. apply Hn2. by left. }
  { rewrite ENa. destruct c2; [done|]. intros [= ->]. apply Ha2. by left. }
  { intros x Ex. apply (lseg_alloc h (Some a) c2 None); [done|].
    rewrite ENa in Ex. destruct c2; [done|]. injection Ex as ->. by left. }
  pose proof (lnode_Append_same_values _ _ _ _ EL) as SV.
  rewrite hd_error_app_cons in Eh. rewrite last_app_cons in Et.
  set (l0 := if decide (Some a = tail l) then with_tail l (Some n) else l).
  assert (head l0 = head l ∧ nodes l0 = nodes l ∧
          tail l0 = if decide (Some a = tail l) then Some n else tail l)
    as (Eh0 & En0 & Et0) by (subst l0; by case_decide).
  destruct (addCount_Done h' l0 n _ En') as (l' & EA & Eh1 & Et1 & HF1).
  exists h', l'. split.
  { unfold Append. rewrite Eh. subst l0. case_decide as Hd.
    - rewrite <- Hd, EL. simpl. by rewrite EA.
    - rewrite EL. simpl. by rewrite EA. }
  split; [|split; [|split; [|split]]].
  - apply NoDup_app. split; [done|]. split.
    + intros x Hx [->|[->|Hx2]%elem_of_cons]%elem_of_cons; try done.
      by apply (H12 x).
    + apply NoDup_cons. split; [|by apply NoDup_cons].
      rewrite elem_of_cons. tauto.
  - apply (linked_join h' c1 (a :: n :: c2)).
    + apply (lseg_frame h); [|done]. intros r Hr. apply Hframe.
      * intros ->. done.
      * intros ->. done.
      * rewrite ENa. destruct c2; [done|]. intros [= ->].
        apply (H12 r Hr). by left.
    + eexists. split; [exact Ea'|]. simpl. split; [done|]. split; [done|].
      eexists. split; [exact En'|]. simpl. split; [done|].
      split; [by rewrite ENa, from_option_Some_None|].
      destruct c2 as [|x c2]; [done|].
      apply NoDup_cons in ND2 as [Hx2 ND2].
      destruct H2 as (nx & Ex & EPx & ENx & H2).
      eapply (lseg_set_first h h' x c2 (Some a) (Some n)); [done|exact Ex| | |].
      * by apply Hx'.
      * intros r Hr. apply Hframe.
        -- intros ->. apply Hn2. by right.
        -- intros ->. apply Ha2. by right.
        -- rewrite ENa. simpl. intros [= ->]. done.
      * by exists nx.
  - unfold Head. rewrite Eh1, Eh0, Eh. by rewrite hd_error_app_cons.
  - unfold Tail. rewrite Et1, Et0, Et. rewrite last_app_cons. simpl.
    destruct c2 as [|x c2]; simpl.
    + by rewrite decide_True.
    + rewrite decide_False.
      * done.
      * intros [= Ea2]. apply Ha2. rewrite Ea2.
        by apply last_elem_of_default.
  - eapply index_ok_members;
      [|eapply (index_ok_add (list_to_set (c1 ++ a :: c2)) h' l0 l' n);
        [|exact En'| |exact HF1]].
    + intros x. rewrite elem_of_union, !elem_of_list_to_set, elem_of_singleton,
        !elem_of_app, !elem_of_cons. tauto.
    + apply (index_ok_same_values _ h); [done|].
      intros v. destruct (Hi v) as [NDv Hm]. unfold FindNodes in *.
      rewrite En0. by split.
    + rewrite elem_of_list_to_set, elem_of_app, elem_of_cons. tauto.
Qed.

Lemma list_snoc_case (c : list ref) : c = [] ∨ ∃ c' p, c = c' ++ [p].
Proof. induction c as [|p c' _] using rev_ind; [by left | right; eauto]. Qed.

(** [Prepend] on the empty list. *)
Lemma Prepend_matches_empty h l anchor n nd :
  matches_chain h l [] →
  h !! n = Some nd → Next nd = None → Prev nd = None →
  ∃ l', Prepend h l anchor n = Done (h, l') ∧ matches_chain h l' [n].
Proof.
  intros (_ & _ & Eh & Et & Hi) En EN EP. unfold Head, Tail in *. simpl in *.
  destruct (addCount_Done h (with_tail (with_head l (Some n)) (Some n)) n nd En)
    as (l' & EA & Hh & Ht & HF).
  exists l'. split.
  { unfold Prepend. rewrite Eh, Et. simpl. by rewrite EA. }
  split; [apply NoDup_singleton|].
  split; [by exists nd|]. split; [done|]. split; [done|].
  eapply index_ok_members; [|eapply (index_ok_add ∅ h l); eauto].
  - intros x. rewrite elem_of_list_to_set, elem_of_union, elem_of_singleton,
      list_elem_of_singleton.
    pose proof (not_elem_of_empty (C := gset ref) x). tauto.
  - apply not_elem_of_empty.
Qed.

(** [Prepend] before a node of the chain. *)
Lemma Prepend_matches h l c1 a c2 n nd :
  matches_chain h l (c1 ++ a :: c2) → n ∉ c1 ++ a :: c2 → h !! n = Some nd →
  ∃ h' l', Prepend h l (Some a) n = Done (h', l') ∧
           matches_chain h' l' (c1 ++ n :: a :: c2).
Proof.
  intros (ND & Hl & Eh & Et & Hi) Hn En. unfold Head, Tail in *.
  destruct (linked_split _ _ _ _ Hl) as (na & Ea & EPa & ENa & H1 & H2).
  destruct (NoDup_split _ _ _ ND) as (ND1 & ND2 & Ha1 & Ha2 & H12).
  rewrite elem_of_app, elem_of_cons in Hn.
  assert (a ≠ n ∧ (n ∉ c1) ∧ (n ∉ c2)) as (Hne & Hn1 & Hn2)
    by (split; [|split]; [intros ->|..]; tauto).
  destruct (lnode_Prepend_heap h a n na nd Ea En Hne)
    as (h' & EL & En' & Ea' & Hx' & Hframe).
  { rewrite EPa. intros El. apply Hn1. by apply last_Some_elem_of. }
  { rewrite EPa. intros El. apply Ha1. by apply last_Some_elem_of. }
  { intros x Ex. apply (lseg_alloc h None c1 (Some a)); [done|].
    rewrite EPa in Ex. by apply last_Some_elem_of. }
  pose proof (lnode_Prepend_same_values _ _ _ _ EL) as SV.
  rewrite hd_error_app_cons in Eh. rewrite last_app_cons in Et.
  set (l0 := if decide (Some a = head l) then with_head l (Some n) else l).
  assert (tail l0 = tail l ∧ nodes l0 = nodes l ∧
          head l0 = if decide (Some a = head l) then Some n else head l)
    as (Et0 & En0 & Eh0) by (subst l0; by case_decide).
  destruct (addCount_Done h' l0 n _ En') as (l' & EA & Eh1 & Et1 & HF1).
  exists h', l'. split.
  { unfold Prepend. rewrite Eh. lazy iota beta. rewrite <- Eh.
    subst l0. case_decide as Hd.
    - rewrite <- Hd, EL. simpl. by rewrite EA.
    - rewrite EL. simpl. by rewrite EA. }
  split; [|split; [|split; [|split]]].
  - apply NoDup_app. split; [done|]. split.
    + intros x Hx [->|[->|Hx2]%elem_of_cons]%elem_of_cons; try done.
      by apply (H12 x).
    + apply NoDup_cons. split; [|by apply NoDup_cons].
      rewrite elem_of_cons. tauto.
  - apply (linked_join h' c1 (n :: a :: c2)).
    + simpl. destruct (list_snoc_case c1) as [->|(c1' & p & ->)]; [done|].
      rewrite last_snoc in EPa.
      apply NoDup_app in ND1 as (ND1' & Hp & _).
      destruct (lseg_alloc h None (c1' ++ [p]) (Some a) p H1) as [np Ep].
      { apply elem_of_app. right. by left. }
      eapply (lseg_set_last h h' c1' p None (Some a)); [|exact Ep| | |done].
      * intros Hin. apply (Hp p Hin). by left.
      * by apply Hx'.
      * intros r Hr. apply Hframe.
        -- intros ->. apply Hn1. apply elem_of_app. by left.
        -- intros ->. apply Ha1. apply elem_of_app. by left.
        -- rewrite EPa. intros [= ->]. apply (Hp r Hr). by left.
    + eexists. split; [exact En'|]. simpl. split; [done|]. split; [done|].
      eexists. split; [exact Ea'|]. simpl. split; [done|].
      split; [by rewrite ENa, from_option_Some_None|].
      apply (lseg_frame h); [|done]. intros r Hr. apply Hframe.
      * intros ->. done.
      * intros ->. done.
      * rewrite EPa. intros El. apply (H12 r); [|done].
        by apply last_Some_elem_of.
  - unfold Head. rewrite Eh1, Eh0, Eh. rewrite hd_error_app_cons.
    destruct c1 as [|y c1]; simpl.
    + by rewrite decide_True.
    + rewrite decide_False; [done|]. intros [= ->]. apply Ha1. by left.
  - unfold Tail. rewrite Et1, Et0, Et. rewrite last_app_cons.
    destruct c2 as [|x c2]; [done|]. rewrite last_cons_cons.
    destruct (last (x :: c2)) eqn:El; [done|]. by apply last_None in El.
  - eapply index_ok_members;
      [|eapply (index_ok_add (list_to_set (c1 ++ a :: c2)) h' l0 l' n);
        [|exact En'| |exact HF1]].
    + intros x. rewrite elem_of_union, !elem_of_list_to_set, elem_of_singleton,
        !elem_of_app, !elem_of_cons. tauto.
    + apply (index_ok_same_values _ h); [done|].
      intros v. destruct (Hi v) as [NDv Hm]. unfold FindNodes in *.
      rewrite En0. by split.
    + rewrite elem_of_list_to_set, elem_of_app, elem_of_cons. tauto.
Qed.

(** [Delete] of a node of a chain that holds another node. *)
Lemma Delete_matches h l c1 n c2 :
  matches_chain h l (c1 ++ n :: c2) → c1 ++ c2 ≠ [] →
  ∃ h' l', Delete h l n = Done (h', l') ∧ matches_chain h' l' (c1 ++ c2).
Proof.
  intros (ND & Hl & Eh & Et & Hi) Hne. unfold Head, Tail in *.
  destruct (linked_split _ _ _ _ Hl) as (nd & En & EP & EN & H1 & H2).
  destruct (NoDup_split _ _ _ ND) as (ND1 & ND2 & Hn1 & Hn2 & H12).
  destruct (lnode_Delete_heap h n nd En)
    as (h' & EL & En' & Hp' & Hx' & Hframe).
  { rewrite EP. intros El. apply Hn1. by apply last_Some_elem_of. }
  { rewrite EN. destruct c2; [done|]. intros [= ->]. apply Hn2. by left. }
  { intros r. rewrite EP, EN. intros El. destruct c2; [done|]. intros [= ->].
    apply (H12 r); [by apply last_Some_elem_of | by left]. }
  { intros x. rewrite EN. intros Ex. apply (lseg_alloc h (Some n) c2 None); [done|].
    destruct c2; [done|]. injection Ex as ->. by left. }
  { intros x. rewrite EP. intros Ex. apply (lseg_alloc h None c1 (Some n)); [done|].
    by apply last_Some_elem_of. }
  destruct (Delete_total_of h l n nd h' En EL) as [l' ED].
  exists h', l'. split; [done|].
  destruct (Delete_endpoints _ _ _ _ _ _ En ED) as (Hh & Ht & _).
  rewrite hd_error_app_cons in Eh. rewrite last_app_cons in Et.
  split; [|split; [|split; [|split]]].
  - apply NoDup_app. split; [done|]. split; [|done]. exact H12.
  - apply linked_join.
    + destruct (list_snoc_case c1) as [->|(c1' & p & ->)]; [done|].
      rewrite last_snoc in EP.
      apply NoDup_app in ND1 as (ND1' & Hp & _).
      destruct (lseg_alloc h None (c1' ++ [p]) (Some n) p H1) as [np Ep].
      { apply elem_of_app. right. by left. }
      eapply (lseg_set_last h h' c1' p None (Some n)); [|exact Ep| | |done].
      * intros Hin. apply (Hp p Hin). by left.
      * rewrite <- EN. by apply Hp'.
      * intros r Hr. apply Hframe.
        -- intros ->. apply Hn1. apply elem_of_app. by left.
        -- rewrite EP. intros [= ->]. apply (Hp r Hr). by left.
        -- rewrite EN. destruct c2; [done|]. intros [= ->].
           apply (H12 r); [apply elem_of_app; by left | by left].
    + destruct c2 as [|x c2]; [done|].
      apply NoDup_cons in ND2 as [Hx2 ND2].
      destruct H2 as (nx & Ex & EPx & ENx & H2).
      eapply (lseg_set_first h h' x c2 (Some n) (last c1)); [done|exact Ex| | |].
      * rewrite <- EP. by apply Hx'.
      * intros r Hr. apply Hframe.
        -- intros ->. apply Hn2. by right.
        -- rewrite EP. intros El. apply (H12 r); [by apply last_Some_elem_of|].
           by right.
        -- rewrite EN. simpl. intros [= ->]. done.
      * by exists nx.
  - rewrite Hh, Eh. destruct c1 as [|y c1]; simpl.
    + rewrite decide_True by done. by rewrite EN.
    + rewrite decide_False; [done|]. intros [= ->]. apply Hn1. by left.
  - rewrite Ht, Eh, Et. destruct c1 as [|y c1]; simpl.
    + rewrite decide_True by done. simpl in Hne.
      destruct (last c2) eqn:El; [done|]. by apply last_None in El.
    + rewrite decide_False by (intros [= ->]; apply Hn1; by left).
      destruct c2 as [|x c2].
      * simpl. rewrite decide_True by done. by rewrite EP, app_nil_r.
      * rewrite decide_False.
        -- change (y :: c1 ++ x :: c2) with ((y :: c1) ++ x :: c2).
           rewrite last_app_cons. destruct c2 as [|z c2]; [done|].
           rewrite last_cons_cons.
           destruct (last (z :: c2)) eqn:El; [done|]. by apply last_None in El.
        -- intros [= Ex]. apply Hn2. rewrite Ex. by apply last_elem_of_default.
  - destruct (Delete_inv _ _ _ _ _ ED) as (SV & nd2 & End2 & HF).
    eapply index_ok_members;
      [|eapply (index_ok_sub (list_to_set (c1 ++ n :: c2)) h' l l' n);
        [|exact End2|exact HF]].
    + intros x. rewrite elem_of_difference, !elem_of_list_to_set,
        elem_of_singleton, !elem_of_app, !elem_of_cons.
      split; [tauto|]. intros [?|?]; (split; [tauto|]); intros ->; done.
    + by apply (index_ok_same_values _ h).
Qed.

Lemma linked_set_Value h p c n nd v :
  h !! n = Some nd → linked h p c →
  linked (<[n := mkNode v (Next nd) (Prev nd)]> h) p c.
Proof.
  intros En. revert p. induction c as [|m c IH]; intros p; simpl; [done|].
  intros (nm & Em & EP & EN & Hl). destruct (decide (n = m)) as [->|Hne].
  - assert (nm = nd) as -> by congruence.
    eexists. rewrite lookup_insert_eq. split; [done|]. simpl. eauto.
  - exists nm. rewrite lookup_insert_ne by done. eauto.
Qed.

(** [SetValue] on a node of the chain. *)
Lemma SetValue_matches h l c n v :
  matches_chain h l c → n ∈ c →
  ∃ h' l', SetValue h l n v = Done (h', l') ∧ matches_chain h' l' c.
Proof.
  intros (ND & Hl & Eh & Et & Hi) Hn.
  destruct (linked_alloc _ _ _ _ Hl Hn) as [nd En].
  destruct (SetValue_Done h l n nd v En) as (l' & ES & Hh & Ht & _).
  eexists _, l'. split; [exact ES|].
  split; [done|]. split; [by apply linked_set_Value|].
  split; [unfold Head in *; congruence|]. split; [unfold Tail in *; congruence|].
  apply (step_index_ok (list_to_set c) h l (OSetValue n v)); [done| |exact ES].
  simpl. apply bool_decide_eq_true. by apply elem_of_list_to_set.
Qed.

(** Away from the deletion of the sole node, every call that respects the
    preconditions of the API completes and leaves a list whose cached head,
    tail and index match the chain. *)
Theorem calls_keep_matching h l c o c' :
  matches_chain h l c → chain_call h c o c' →
  ∃ h' l', step (h, l) o = Done (h', l') ∧ matches_chain h' l' c'.
Proof.
  intros Hm Hc. destruct Hc as [anchor n nd En EN EP|anchor n nd En EN EP|
    c1 a c2 n Hn [nd En]|c1 a c2 n Hn [nd En]|c1 n c2 Hne|c n v Hn]; simpl.
  - destruct (Append_matches_empty h l anchor n nd Hm En EN EP) as (l' & ? & ?).
    eauto.
  - destruct (Prepend_matches_empty h l anchor n nd Hm En EN EP) as (l' & ? & ?).
    eauto.
  - by apply (Append_matches h l c1 a c2 n nd).
  - by apply (Prepend_matches h l c1 a c2 n nd).
  - by apply Delete_matches.
  - by apply SetValue_matches.
Qed.

(** On a list that matches its chain, the head is nil exactly when the tail
    is, exactly when the chain is empty. *)
Lemma matches_chain_empty h l c :
  matches_chain h l c → (Head l = None ↔ c = []) ∧ (Tail l = None ↔ c = []).
Proof.
  intros (_ & _ & -> & -> & _). split.
  - by destruct c.
  - apply last_None.
Qed.

(** A new list matches the empty chain, whatever nodes the heap holds. *)
Lemma New_matches h : matches_chain h New [].
Proof.
  split; [apply NoDup_nil_2|]. split; [done|]. split; [done|]. split; [done|].
  apply (index_ok_members ∅); [|apply index_ok_New].
  intros x. rewrite elem_of_list_to_set.
  pose proof (not_elem_of_empty (C := gset ref) x).
  pose proof (not_elem_of_nil x). tauto.
Qed.

(** The endpoint and index invariants along a run that never deletes the
    sole node: the run completes, [Head()] and [Tail()] are the first and
    the last node of the chain, and the index registers the chain. *)
Theorem runs_keep_matching (st : mem V * LList V) c ops c' :
  matches_chain st.1 st.2 c → chain_calls st c ops c' →
  ∃ st', run ops st = Done st' ∧ matches_chain st'.1 st'.2 c'.
Proof.
  intros Hm Hc. induction Hc as [st c|st c o c1 st1 ops c2 Hcall Hstep _ IH].
  - by exists st.
  - destruct st as [h l].
    destruct (calls_keep_matching h l c o c1 Hm Hcall) as (h1 & l1 & E1 & Hm1).
    assert (st1 = (h1, l1)) as -> by congruence.
    destruct (IH Hm1) as (st' & Erun & Hm'). exists st'. split; [|done].
    simpl. rewrite Hstep. done.
Qed.

End llist_facts.

(** ** Loops, repairs and compositions *)

Section callers_facts.
Context {V : Type} `{Countable V}.
Implicit Types (h : mem V) (l : LList V) (n r : ref) (v : V) (nd : Node V).

(** *** Preliminaries *)

Lemma same_values_dom h h' : same_values h h' → dom h' = dom h.
Proof.
  intros SV. apply set_eq. intros r. rewrite !elem_of_dom.
  rewrite <- !(fmap_is_Some Value). by rewrite SV.
Qed.

Lemma matches_chain_bucket h l c v n :
  matches_chain h l c → n ∈ FindNodes l v → n ∈ c ∧ has_value h n v.
Proof.
  intros (_ & _ & _ & _ & Hi) Hn. destruct (Hi v) as [_ Hm].
  apply Hm in Hn. by rewrite elem_of_list_to_set in Hn.
Qed.

(** *** Single calls on a list that matches its chain *)

(** X1: on a list that matches its chain, [Prepend(a, n)] of a node [n]
    that is not in the chain, before a node [a] that is, completes and
    links [n] just before [a].  [n] becomes the head exactly when [a] was
    the head, [Tail()] is unchanged, [n] is registered last in the bucket of
    its value, no other bucket changes and no node changes its value. *)
Theorem Prepend_links_before_anchor h l c1 a c2 n nd :
  matches_chain h l (c1 ++ a :: c2) → n ∉ c1 ++ a :: c2 → h !! n = Some nd →
  ∃ h' l', Prepend h l (Some a) n = Done (h', l') ∧
           matches_chain h' l' (c1 ++ n :: a :: c2) ∧
           Head l' = (if decide (Head l = Some a) then Some n else Head l) ∧
           Tail l' = Tail l ∧
           (∀ v, FindNodes l' v =
                 if decide (Value nd = v) then FindNodes l v ++ [n]
                 else FindNodes l v) ∧
           same_values h h'.
Proof.
  intros Hm Hn En.
  destruct (Prepend_matches h l c1 a c2 n nd Hm Hn En) as (h' & l' & E & Hm').
  exists h', l'. split; [done|]. split; [done|].
  destruct (Prepend_inv _ _ _ _ _ _ E) as (SV & nd' & En' & HF).
  destruct (same_values_lookup _ _ _ _ SV En) as (nd2 & En2 & Ev).
  assert (nd2 = nd') as -> by congruence.
  destruct Hm as (ND & _ & Eh & Et & _). destruct Hm' as (_ & _ & Eh' & Et' & _).
  destruct (NoDup_split _ _ _ ND) as (_ & _ & Ha1 & _).
  split; [|split; [|split; [|done]]].
  - rewrite Eh', Eh. destruct c1 as [|x c1]; simpl.
    + by rewrite decide_True.
    + rewrite decide_False; [done|]. intros [= ->]. apply Ha1. by left.
  - rewrite Et', Et. rewrite (last_app_cons c1 (a :: c2) n), (last_app_cons c1 c2 a).
    by rewrite (last_app_cons [] c2 a : last (a :: c2) = _).
  - intros v. rewrite HF. by rewrite Ev.
Qed.

(** X2: on a list that matches its chain, [Append(a, n)] of a node [n] that
    is not in the chain, after a node [a] that is, completes and links [n]
    just after [a].  [n] becomes the tail exactly when [a] was the tail,
    [Head()] is unchanged, [n] is registered last in the bucket of its
    value, no other bucket changes and no node changes its value. *)
Theorem Append_links_after_anchor h l c1 a c2 n nd :
  matches_chain h l (c1 ++ a :: c2) → n ∉ c1 ++ a :: c2 → h !! n = Some nd →
  ∃ h' l', Append h l (Some a) n = Done (h', l') ∧
           matches_chain h' l' (c1 ++ a :: n :: c2) ∧
           Head l' = Head l ∧
           Tail l' = (if decide (Tail l = Some a) then Some n else Tail l) ∧
           (∀ v, FindNodes l' v =
                 if decide (Value nd = v) then FindNodes l v ++ [n]
                 else FindNodes l v) ∧
           same_values h h'.
Proof.
  intros Hm Hn En.
  destruct (Append_matches h l c1 a c2 n nd Hm Hn En) as (h' & l' & E & Hm').
  exists h', l'. split; [done|]. split; [done|].
  destruct (Append_inv _ _ _ _ _ _ E) as (SV & nd' & En' & HF).
  destruct (same_values_lookup _ _ _ _ SV En) as (nd2 & En2 & Ev).
  assert (nd2 = nd') as -> by congruence.
  destruct Hm as (ND & _ & Eh & Et & _). destruct Hm' as (_ & _ & Eh' & Et' & _).
  destruct (NoDup_split _ _ _ ND) as (_ & _ & _ & Ha2 & _).
  split; [|split; [|split; [|done]]].
  - rewrite Eh', Eh. by rewrite !hd_error_app_cons.
  - rewrite Et', Et.
    rewrite (last_app_cons c1 (n :: c2) a), (last_app_cons c1 c2 a).
    rewrite (last_app_cons [] c2 n : last (n :: c2) = _).
    destruct (list_snoc_case c2) as [->|(c' & p & ->)]; simpl.
    + by rewrite decide_True.
    + rewrite last_snoc. simpl. rewrite decide_False; [done|].
      intros [= ->]. apply Ha2. apply elem_of_app. right. by left.
  - intros v. rewrite HF. by rewrite Ev.
Qed.

(** X3: on a list that matches a chain of at least two nodes, [Delete] of a
    node of the chain completes and takes the node out of the chain: the
    other nodes keep their order, the head moves to the successor exactly
    when the node was the head and the tail to the predecessor exactly when
    it was the tail, the node leaves the bucket of its value and no other
    bucket changes, and no node changes its value. *)
Theorem Delete_takes_node_out h l c1 n c2 :
  matches_chain h l (c1 ++ n :: c2) → c1 ++ c2 ≠ [] →
  ∃ h' l', Delete h l n = Done (h', l') ∧
           matches_chain h' l' (c1 ++ c2) ∧
           Head l' = (if decide (Head l = Some n) then hd_error c2 else Head l) ∧
           Tail l' = (if decide (Tail l = Some n) then last c1 else Tail l) ∧
           (∀ v, FindNodes l' v = filter (λ x, x ≠ n) (FindNodes l v)) ∧
           same_values h h'.
Proof.
  intros Hm Hne.
  destruct (Delete_matches h l c1 n c2 Hm Hne) as (h' & l' & E & Hm').
  pose proof Hm as (ND & Hl & Eh & Et & Hi).
  pose proof Hm' as (_ & _ & Eh' & Et' & _).
  destruct (NoDup_split _ _ _ ND) as (_ & _ & Hn1 & Hn2 & _).
  destruct (linked_split _ _ _ _ Hl) as (nd & En & _).
  destruct (Delete_inv _ _ _ _ _ E) as (SV & nd' & En' & HF).
  destruct (same_values_lookup _ _ _ _ SV En) as (nd3 & En3 & Ev).
  assert (nd3 = nd') as -> by congruence.
  exists h', l'. split; [done|]. split; [done|].
  split; [|split; [|split; [|done]]].
  - rewrite Eh', Eh. destruct c1 as [|x c1]; simpl.
    + by rewrite decide_True.
    + rewrite decide_False; [done|]. intros [= ->]. apply Hn1. by left.
  - rewrite Et', Et, last_app_cons.
    destruct (list_snoc_case c2) as [->|(c' & p & ->)].
    + simpl. rewrite decide_True by done. by rewrite app_nil_r.
    + rewrite last_snoc. simpl. rewrite decide_False.
      * by rewrite app_assoc, last_snoc.
      * intros [= ->]. apply Hn2. apply elem_of_app. right. by left.
  - intros v. rewrite HF. destruct (decide (Value nd' = v)) as [_|Hv]; [done|].
    symmetry. apply filter_ne_absent. intros Hin.
    destruct (matches_chain_bucket h l _ v n Hm Hin) as [_ (x & Ex & Exv)].
    apply Hv. rewrite Ev. congruence.
Qed.

(** X4: two [Append]s after the same anchor, as [main] does with [fx]: both
    complete, and the node inserted last stands next to the anchor, before
    the node inserted first. *)
Theorem Append_twice_after_same_anchor h l c1 a c2 n1 n2 :
  matches_chain h l (c1 ++ a :: c2) →
  n1 ∉ c1 ++ a :: c2 → n2 ∉ c1 ++ a :: c2 → n1 ≠ n2 →
  is_Some (h !! n1) → is_Some (h !! n2) →
  ∃ h1 l1 h2 l2,
    Append h l (Some a) n1 = Done (h1, l1) ∧
    Append h1 l1 (Some a) n2 = Done (h2, l2) ∧
    matches_chain h2 l2 (c1 ++ a :: n2 :: n1 :: c2).
Proof.
  intros Hm H1 H2 Hne [nd1 E1] [nd2 E2].
  destruct (Append_matches h l c1 a c2 n1 nd1 Hm H1 E1) as (h1 & l1 & EA1 & Hm1).
  destruct (Append_inv _ _ _ _ _ _ EA1) as (SV & _).
  destruct (same_values_lookup _ _ _ _ SV E2) as (nd2' & E2' & _).
  destruct (Append_matches h1 l1 c1 a (n1 :: c2) n2 nd2' Hm1) as (h2 & l2 & EA2 & Hm2);
    [|done|].
  { rewrite elem_of_app, !elem_of_cons. rewrite elem_of_app, elem_of_cons in H2.
    intros [?|[?|[?|?]]]; try tauto. congruence. }
  by exists h1, l1, h2, l2.
Qed.

(** The bucket of a node registered and deregistered again. *)
Lemma add_then_sub_bucket h l c n (b1 b2 : V → list ref) nd1 nd2 :
  matches_chain h l c → n ∉ c → Value nd2 = Value nd1 →
  (∀ v, b1 v = if decide (Value nd1 = v) then FindNodes l v ++ [n]
               else FindNodes l v) →
  (∀ v, b2 v = if decide (Value nd2 = v) then filter (λ x, x ≠ n) (b1 v)
               else b1 v) →
  ∀ v, b2 v = FindNodes l v.
Proof.
  intros (_ & _ & _ & _ & Hi) Hn Ev HF1 HF2 v.
  assert (n ∉ FindNodes l v) as Hout.
  { intros [Hin _]%(proj2 (Hi v)). by apply elem_of_list_to_set in Hin. }
  rewrite HF2, Ev, HF1. destruct (decide (Value nd1 = v)) as [<-|]; [|done].
  rewrite filter_app, filter_ne_absent by done.
  rewrite filter_cons_False by (by intros ?). by rewrite app_nil_r.
Qed.

(** X5: the round trip of C4 away from the empty list.  On a list that
    matches its chain, [Append] of a node that is not in the chain after a
    node that is, or [Prepend] before it, followed by [Delete] of the new
    node, complete and undo each other: the list matches the same chain
    again, and [Head()], [Tail()] and [FindNodes] for every value are what
    they were. *)
Theorem insert_then_Delete_restores h l c a n nd :
  matches_chain h l c → a ∈ c → n ∉ c → h !! n = Some nd →
  (∃ h1 l1 h2 l2,
     Append h l (Some a) n = Done (h1, l1) ∧ Delete h1 l1 n = Done (h2, l2) ∧
     matches_chain h2 l2 c ∧ Head l2 = Head l ∧ Tail l2 = Tail l ∧
     ∀ v, FindNodes l2 v = FindNodes l v) ∧
  (∃ h1 l1 h2 l2,
     Prepend h l (Some a) n = Done (h1, l1) ∧ Delete h1 l1 n = Done (h2, l2) ∧
     matches_chain h2 l2 c ∧ Head l2 = Head l ∧ Tail l2 = Tail l ∧
     ∀ v, FindNodes l2 v = FindNodes l v).
Proof.
  intros Hm Ha Hn En. pose proof Hm as (_ & _ & Eh & Et & _).
  apply list_elem_of_split in Ha as (c1 & c2 & ->). split.
  - destruct (Append_matches h l c1 a c2 n nd Hm Hn En) as (h1 & l1 & EA & Hm1).
    rewrite (cons_middle a c1 (n :: c2)), app_assoc in Hm1.
    destruct (Delete_matches h1 l1 (c1 ++ [a]) n c2 Hm1) as (h2 & l2 & ED & Hm2).
    { by destruct c1. }
    rewrite <- app_assoc in Hm2. simpl in Hm2.
    exists h1, l1, h2, l2. split; [done|]. split; [done|]. split; [done|].
    pose proof Hm2 as (_ & _ & Eh2 & Et2 & _).
    split; [congruence|]. split; [congruence|].
    destruct (Append_inv _ _ _ _ _ _ EA) as (_ & nd1 & En1 & HF1).
    destruct (Delete_inv _ _ _ _ _ ED) as (SV2 & nd2 & En2 & HF2).
    destruct (same_values_lookup _ _ _ _ SV2 En1) as (nd' & En' & Ev).
    assert (nd' = nd2) as -> by congruence.
    by apply (add_then_sub_bucket h l (c1 ++ a :: c2) n (FindNodes l1) (FindNodes l2) nd1 nd2).
  - destruct (Prepend_matches h l c1 a c2 n nd Hm Hn En) as (h1 & l1 & EP & Hm1).
    destruct (Delete_matches h1 l1 c1 n (a :: c2) Hm1) as (h2 & l2 & ED & Hm2).
    { by destruct c1. }
    exists h1, l1, h2, l2. split; [done|]. split; [done|]. split; [done|].
    pose proof Hm2 as (_ & _ & Eh2 & Et2 & _).
    split; [congruence|]. split; [congruence|].
    destruct (Prepend_inv _ _ _ _ _ _ EP) as (_ & nd1 & En1 & HF1).
    destruct (Delete_inv _ _ _ _ _ ED) as (SV2 & nd2 & En2 & HF2).
    destruct (same_values_lookup _ _ _ _ SV2 En1) as (nd' & En' & Ev).
    assert (nd' = nd2) as -> by congruence.
    by apply (add_then_sub_bucket h l (c1 ++ a :: c2) n (FindNodes l1) (FindNodes l2) nd1 nd2).
Qed.

(** X6: moving a node to the front, the step of a cache that keeps its most
    recent entry at the head: on a list that matches a chain of at least
    two nodes, [l.Delete(n)] followed by [l.Prepend(l.Head(), n)] complete;
    [n] is the head, the other nodes keep their order, no value changes and
    every bucket holds the nodes it held. *)
Theorem Delete_then_Prepend_moves_to_front h l c1 n c2 :
  matches_chain h l (c1 ++ n :: c2) → c1 ++ c2 ≠ [] →
  ∃ h1 l1 h2 l2,
    Delete h l n = Done (h1, l1) ∧
    Prepend h1 l1 (Head l1) n = Done (h2, l2) ∧
    matches_chain h2 l2 (n :: c1 ++ c2) ∧
    same_values h h2 ∧
    ∀ v x, x ∈ FindNodes l2 v ↔ x ∈ FindNodes l v.
Proof.
  intros Hm Hne.
  destruct (Delete_matches h l c1 n c2 Hm Hne) as (h1 & l1 & ED & Hm1).
  destruct (Delete_inv _ _ _ _ _ ED) as (SV1 & nd1 & En1 & _).
  pose proof Hm as (ND & _ & _ & _ & Hi).
  destruct (NoDup_split _ _ _ ND) as (_ & _ & Hn1 & Hn2 & _).
  assert (n ∉ c1 ++ c2) as Hn by (rewrite elem_of_app; tauto).
  destruct (c1 ++ c2) as [|f rest] eqn:Ec; [done|].
  assert (Head l1 = Some f) as Eh1 by (by destruct Hm1 as (_ & _ & -> & _)).
  destruct (Prepend_matches h1 l1 [] f rest n nd1 Hm1 Hn En1)
    as (h2 & l2 & EP & Hm2).
  exists h1, l1, h2, l2. split; [done|]. split; [by rewrite Eh1|].
  split; [done|].
  destruct (Prepend_inv _ _ _ _ _ _ EP) as (SV2 & _).
  assert (same_values h h2) as SV by (by eapply same_values_trans).
  split; [done|]. intros v x.
  destruct Hm2 as (_ & _ & _ & _ & Hi2).
  destruct (Hi v) as [_ ->]. destruct (Hi2 v) as [_ ->].
  rewrite (same_values_has_value h h2 x v SV).
  rewrite !elem_of_list_to_set. simpl. rewrite <- Ec.
  rewrite elem_of_cons, !elem_of_app, elem_of_cons. tauto.
Qed.

(** *** After the deletion of the sole node *)

Lemma index_ok_singleton h l n :
  index_ok (∅ ∪ {[n]}) h l → index_ok (list_to_set [n]) h l.
Proof.
  apply index_ok_members. intros x.
  rewrite elem_of_list_to_set, elem_of_union, elem_of_singleton,
    list_elem_of_singleton.
  pose proof (not_elem_of_empty (C := gset ref) x). tauto.
Qed.

(** [Append] looks at the head only: it seeds a list without head whatever
    its cached tail. *)
Lemma Append_seeds h l anchor n nd :
  head l = None → index_ok ∅ h l →
  h !! n = Some nd → Next nd = None → Prev nd = None →
  ∃ l', Append h l anchor n = Done (h, l') ∧ matches_chain h l' [n].
Proof.
  intros Eh Hi En EN EP.
  destruct (Append_empty h l anchor n nd En Eh) as (l' & EA & Hh & Ht & HF).
  exists l'. split; [done|]. split; [apply NoDup_singleton|].
  split; [by exists nd|]. split; [done|]. split; [done|].
  apply index_ok_singleton. eapply (index_ok_add ∅); eauto.
  apply not_elem_of_empty.
Qed.

(** The state [Delete] leaves when it is given the sole node of the
    chain. *)
Lemma Delete_sole_state h l t :
  matches_chain h l [t] →
  ∃ h1 l1 nt, Delete h l t = Done (h1, l1) ∧
    head l1 = None ∧ tail l1 = Some t ∧ index_ok ∅ h1 l1 ∧
    h !! t = Some nt ∧
    h1 !! t = Some (mkNode (Value nt) None None) ∧
    ∀ r, r ≠ t → h1 !! r = h !! r.
Proof.
  intros (_ & (nt & Et & EP & EN & _) & Eh & Etl & Hi). simpl in EN.
  destruct (Delete_head_and_tail h l t nt Et EN EP Eh Etl)
    as (h1 & l1 & ED & Hh & Ht).
  exists h1, l1, nt. split; [done|]. split; [done|]. split; [done|].
  destruct (Delete_endpoints _ _ _ _ _ _ Et ED) as (_ & _ & EL).
  destruct (lnode_Delete_heap h t nt Et) as (h1' & EL' & Et1 & _ & _ & Hframe);
    try (rewrite ?EP, ?EN; done).
  assert (h1' = h1) as -> by congruence.
  split; [|split; [done|split]].
  - destruct (Delete_inv _ _ _ _ _ ED) as (SV & nd1 & End1 & HF).
    apply (index_ok_members (list_to_set [t] ∖ {[t]})).
    { intros x. rewrite elem_of_difference, elem_of_list_to_set,
        list_elem_of_singleton, elem_of_singleton.
      pose proof (not_elem_of_empty (C := gset ref) x). tauto. }
    apply (index_ok_sub _ h1 l l1 t nd1); [|done|done].
    by apply (index_ok_same_values _ h).
  - rewrite Et1. destruct nt; simpl in *; by subst.
  - intros r Hr. apply Hframe; [done|by rewrite EP|by rewrite EN].
Qed.

(** X7: [Append] tests the head only.  After [Delete] of the sole node,
    which leaves the head nil and the tail stale, an [Append] of an
    unlinked node (the deleted node itself or another), with whatever
    anchor, makes that node head and tail: the list matches the chain of
    that node again, and the heap is not touched. *)
Theorem Append_recovers_after_sole_Delete h l t anchor n nd :
  matches_chain h l [t] →
  h !! n = Some nd → Next nd = None → Prev nd = None →
  ∃ h1 l1 l2, Delete h l t = Done (h1, l1) ∧
              Head l1 = None ∧ Tail l1 = Some t ∧
              Append h1 l1 anchor n = Done (h1, l2) ∧
              matches_chain h1 l2 [n].
Proof.
  intros Hm En EN EP.
  destruct (Delete_sole_state h l t Hm)
    as (h1 & l1 & nt & ED & Hh & Ht & Hi & Et & Et1 & Hframe).
  assert (∃ nd1, h1 !! n = Some nd1 ∧ Next nd1 = None ∧ Prev nd1 = None)
    as (nd1 & En1 & EN1 & EP1).
  { destruct (decide (n = t)) as [->|Hne]; [by eexists|].
    exists nd. by rewrite Hframe. }
  destruct (Append_seeds h1 l1 anchor n nd1 Hh Hi En1 EN1 EP1) as (l2 & EA & Hm2).
  by exists h1, l1, l2.
Qed.

(** X8: [Prepend] tests the head and the tail.  After [Delete] of the sole
    node [t] the tail is stale, so [Prepend] does not take the list for
    empty: with the anchor [l.Head()], which is nil, it calls the primitive
    on the nil head and panics; with the anchor [l.Tail()] it completes,
    links the new node before the deleted node [t] and registers it, and
    [Head()] is still nil, [Tail()] still [t]. *)
Theorem Prepend_after_sole_Delete_stays_headless h l t n nd :
  matches_chain h l [t] → n ≠ t →
  h !! n = Some nd → Next nd = None → Prev nd = None →
  ∃ h1 l1, Delete h l t = Done (h1, l1) ∧
           Head l1 = None ∧ Tail l1 = Some t ∧
           Prepend h1 l1 (Head l1) n = Panic ∧
           ∃ h2 l2, Prepend h1 l1 (Tail l1) n = Done (h2, l2) ∧
                    Head l2 = None ∧ Tail l2 = Some t ∧
                    n ∈ FindNodes l2 (Value nd) ∧
                    (Next <$> h2 !! n) = Some (Some t).
Proof.
  intros Hm Hne En EN EP.
  destruct (Delete_sole_state h l t Hm)
    as (h1 & l1 & nt & ED & Hh & Ht & Hi & Et & Et1 & Hframe).
  assert (h1 !! n = Some nd) as En1 by (by rewrite Hframe).
  exists h1, l1. split; [done|]. split; [done|]. split; [done|]. split.
  { unfold Prepend, Head. rewrite Hh, Ht. by rewrite decide_True. }
  destruct (lnode_Prepend_heap h1 t n _ nd Et1 En1) as (h2 & EL & En2 & _);
    try done.
  destruct (addCount_Done h2 l1 n _ En2) as (l2 & EA & Hh2 & Ht2 & HF).
  exists h2, l2. split; [|split; [|split; [|split]]].
  - unfold Prepend, Tail. rewrite Hh, Ht. rewrite decide_False by done.
    rewrite EL. simpl. by rewrite EA.
  - unfold Head. congruence.
  - unfold Tail. congruence.
  - rewrite HF. simpl. rewrite decide_True by done.
    apply elem_of_app. right. by left.
  - by rewrite En2.
Qed.

(** X9: the repairs do not clear the stale tail.  After [Delete] of the
    sole node [t], [FixTail] walks from [t], which is unlinked, and stores
    [t] again; [FixCounts] finds the head nil and returns.  Both leave the
    list as it is, [Tail()] still the deleted node. *)
Theorem repairs_keep_stale_tail Tail_nil h l t :
  matches_chain h l [t] →
  ∃ h1 l1, Delete h l t = Done (h1, l1) ∧
           Head l1 = None ∧ Tail l1 = Some t ∧
           FixTail Tail_nil h1 l1 = Done l1 ∧
           FixCounts h1 l1 = Done l1.
Proof.
  intros Hm.
  destruct (Delete_sole_state h l t Hm)
    as (h1 & l1 & nt & ED & Hh & Ht & Hi & Et & Et1 & Hframe).
  exists h1, l1. split; [done|]. split; [done|]. split; [done|]. split.
  - unfold FixTail, lnode_Tail. rewrite Ht. cbn [walk_next].
    rewrite (load_Some _ _ _ Et1). simpl. rewrite <- Ht. by rewrite with_tail_id.
  - unfold FixCounts, Head. by rewrite Hh.
Qed.

(** *** Lists built by a loop *)

(** A node constructed later does not disturb a list that matches its
    chain. *)
Lemma matches_chain_alloc h l c r nd :
  matches_chain h l c → h !! r = None → matches_chain (<[r := nd]> h) l c.
Proof.
  intros (ND & Hl & Eh & Et & Hi) Er.
  assert (r ∉ c) as Hr.
  { intros Hin. destruct (linked_alloc _ _ _ _ Hl Hin) as [x Ex]. congruence. }
  split; [done|]. split; [|split; [done|split; [done|]]].
  - apply linked_lseg. apply (lseg_frame h); [|by apply linked_lseg].
    intros x Hx. rewrite lookup_insert_ne; [done|]. by intros ->.
  - apply index_ok_set_Value; [done|]. by rewrite elem_of_list_to_set.
Qed.

Lemma has_value_alloc h r nd n v :
  h !! r = None → has_value h n v → has_value (<[r := nd]> h) n v.
Proof.
  intros Er (x & Ex & Ev). exists x. split; [|done].
  rewrite lookup_insert_ne; [done|]. intros ->. congruence.
Qed.

Lemma fresh_ref_None h : h !! fresh (dom h) = None.
Proof. apply not_elem_of_dom. apply is_fresh. Qed.

(** One turn of the loop of [append_all]. *)
Lemma append_new_matches h l c v :
  matches_chain h l c →
  ∃ h' l' n, Append (lnode_New h v).1 l (Tail l) (lnode_New h v).2 = Done (h', l') ∧
             matches_chain h' l' (c ++ [n]) ∧ has_value h' n v ∧
             ∀ x w, has_value h x w → has_value h' x w.
Proof.
  intros Hm. unfold lnode_New. simpl.
  set (n := fresh (dom h)). set (nd := mkNode v None None).
  pose proof (fresh_ref_None h) as Hn. fold n in Hn.
  pose proof (matches_chain_alloc h l c n nd Hm Hn) as Hm1.
  assert (<[n := nd]> h !! n = Some nd) as En by apply lookup_insert_eq.
  assert (n ∉ c) as Hnc.
  { intros Hin. destruct Hm as (_ & Hl & _).
    destruct (linked_alloc _ _ _ _ Hl Hin) as [x Ex]. congruence. }
  assert (∃ h' l', Append (<[n := nd]> h) l (Tail l) n = Done (h', l') ∧
                   matches_chain h' l' (c ++ [n])) as (h' & l' & EA & Hm').
  { destruct (list_snoc_case c) as [->|(c' & t & ->)].
    - destruct (Append_matches_empty _ l (Tail l) n nd Hm1 En) as (l' & EA & Hm');
        [done..|]. by exists (<[n := nd]> h), l'.
    - assert (Tail l = Some t) as ->.
      { destruct Hm as (_ & _ & _ & -> & _). by rewrite last_snoc. }
      destruct (Append_matches _ l c' t [] n nd Hm1 Hnc En) as (h' & l' & EA & Hm').
      exists h', l'. split; [done|]. by rewrite <- app_assoc. }
  exists h', l', n. split; [done|]. split; [done|].
  destruct (Append_inv _ _ _ _ _ _ EA) as (SV & _).
  split.
  - apply (same_values_has_value _ _ n v SV). by exists nd.
  - intros x w Hx. apply (same_values_has_value _ _ x w SV).
    by apply has_value_alloc.
Qed.

Lemma append_all_matches vs : ∀ h l c,
  matches_chain h l c →
  ∃ h' l' ns, append_all vs (h, l) = Done (h', l') ∧
              matches_chain h' l' (c ++ ns) ∧
              Forall2 (has_value h') ns vs ∧
              ∀ x w, has_value h x w → has_value h' x w.
Proof.
  induction vs as [|v vs IH]; intros h l c Hm.
  - exists h, l, []. rewrite app_nil_r.
    split; [done|]. split; [done|]. split; [constructor|done].
  - destruct (append_new_matches h l c v Hm) as (h1 & l1 & n & EA & Hm1 & Hv & Hk).
    destruct (IH h1 l1 (c ++ [n]) Hm1) as (h' & l' & ns & E & Hm' & Hvs & Hk').
    exists h', l', (n :: ns). split; [|split; [|split]].
    + cbn [append_all]. cbn [fst snd]. destruct (lnode_New h v) as [h0 n0] eqn:En.
      simpl in EA. rewrite EA. simpl. exact E.
    + by rewrite <- app_assoc in Hm'.
    + constructor; [by apply Hk'|done].
    + intros x w Hx. by apply Hk', Hk.
Qed.

(** One turn of the loop of [prepend_all]. *)
Lemma prepend_new_matches h l c v :
  matches_chain h l c →
  ∃ h' l' n, Prepend (lnode_New h v).1 l (Head l) (lnode_New h v).2 = Done (h', l') ∧
             matches_chain h' l' (n :: c) ∧ has_value h' n v ∧
             ∀ x w, has_value h x w → has_value h' x w.
Proof.
  intros Hm. unfold lnode_New. simpl.
  set (n := fresh (dom h)). set (nd := mkNode v None None).
  pose proof (fresh_ref_None h) as Hn. fold n in Hn.
  pose proof (matches_chain_alloc h l c n nd Hm Hn) as Hm1.
  assert (<[n := nd]> h !! n = Some nd) as En by apply lookup_insert_eq.
  assert (n ∉ c) as Hnc.
  { intros Hin. destruct Hm as (_ & Hl & _).
    destruct (linked_alloc _ _ _ _ Hl Hin) as [x Ex]. congruence. }
  assert (∃ h' l', Prepend (<[n := nd]> h) l (Head l) n = Done (h', l') ∧
                   matches_chain h' l' (n :: c)) as (h' & l' & EA & Hm').
  { destruct c as [|a c].
    - destruct (Prepend_matches_empty _ l (Head l) n nd Hm1 En) as (l' & EA & Hm');
        [done..|]. by exists (<[n := nd]> h), l'.
    - assert (Head l = Some a) as -> by (by destruct Hm as (_ & _ & -> & _)).
      apply (Prepend_matches _ l [] a c n nd Hm1 Hnc En). }
  exists h', l', n. split; [done|]. split; [done|].
  destruct (Prepend_inv _ _ _ _ _ _ EA) as (SV & _).
  split.
  - apply (same_values_has_value _ _ n v SV). by exists nd.
  - intros x w Hx. apply (same_values_has_value _ _ x w SV).
    by apply has_value_alloc.
Qed.

Lemma prepend_all_matches vs : ∀ h l c,
  matches_chain h l c →
  ∃ h' l' ns, prepend_all vs (h, l) = Done (h', l') ∧
              matches_chain h' l' (reverse ns ++ c) ∧
              Forall2 (has_value h') ns vs ∧
              ∀ x w, has_value h x w → has_value h' x w.
Proof.
  induction vs as [|v vs IH]; intros h l c Hm.
  - exists h, l, [].
    split; [done|]. split; [done|]. split; [constructor|done].
  - destruct (prepend_new_matches h l c v Hm) as (h1 & l1 & n & EA & Hm1 & Hv & Hk).
    destruct (IH h1 l1 (n :: c) Hm1) as (h' & l' & ns & E & Hm' & Hvs & Hk').
    exists h', l', (n :: ns). split; [|split; [|split]].
    + cbn [prepend_all]. cbn [fst snd]. destruct (lnode_New h v) as [h0 n0] eqn:En.
      simpl in EA. rewrite EA. simpl. exact E.
    + by rewrite reverse_cons, <- app_assoc.
    + constructor; [by apply Hk'|done].
    + intros x w Hx. by apply Hk', Hk.
Qed.

(** The bucket of [v] holds the nodes of the chain whose value is [v]. *)
Lemma FindNodes_perm_chain h l c v :
  matches_chain h l c → FindNodes l v ≡ₚ filter (λ x, value_is h v x) c.
Proof.
  intros (ND & _ & _ & _ & Hi). destruct (Hi v) as [NDv Hm].
  apply NoDup_Permutation; [done | by apply NoDup_filter |].
  intros x. rewrite list_elem_of_filter, Hm, elem_of_list_to_set, value_is_spec.
  tauto.
Qed.

Lemma filter_value_is_length h (c : list ref) (vs : list V) v :
  Forall2 (has_value h) c vs →
  length (filter (λ x, value_is h v x) c) = length (filter (λ w, w = v) vs).
Proof.
  induction 1 as [|x w c vs Hx _ IH]; [done|].
  destruct (decide (w = v)) as [->|Hne].
  - rewrite filter_cons_True by (by apply value_is_spec).
    rewrite (filter_cons_True (λ w, w = v)) by done. simpl. by rewrite IH.
  - rewrite filter_cons_False.
    + by rewrite (filter_cons_False (λ w, w = v)) by done.
    + rewrite value_is_spec. intros Hx'. apply Hne. by eapply has_value_fun.
Qed.

Lemma FindNodes_length_chain h l c vs v :
  matches_chain h l c → Forall2 (has_value h) c vs →
  length (FindNodes l v) = length (filter (λ w, w = v) vs).
Proof.
  intros Hm Hvs. rewrite (FindNodes_perm_chain h l c v Hm).
  by apply filter_value_is_length.
Qed.

Lemma values_by_next_linked h (c : list ref) : ∀ p (vs : list V) fuel,
  linked h p c → Forall2 (has_value h) c vs → length c < fuel →
  values_by_next fuel h (hd_error c) = Done vs.
Proof.
  induction c as [|n c IH]; intros p vs fuel Hl Hvs Hf;
    (destruct fuel as [|k]; [lia|]).
  - by apply Forall2_nil_inv_l in Hvs as ->.
  - destruct Hl as (nd & En & _ & EN & Hl).
    apply Forall2_cons_inv_l in Hvs as (v & vs' & (nd' & En' & <-) & Hvs & ->).
    assert (nd' = nd) as -> by congruence.
    cbn [values_by_next hd_error]. rewrite (load_Some _ _ _ En). cbn [obind].
    rewrite EN, (IH (Some n) vs' k Hl Hvs); [done|]. simpl in Hf. lia.
Qed.

Lemma values_by_next_matches h l c (vs : list V) :
  matches_chain h l c → Forall2 (has_value h) c vs →
  values_by_next (S (size h)) h (Head l) = Done vs.
Proof.
  intros (ND & Hl & -> & _) Hvs. apply (values_by_next_linked h c None); [done..|].
  pose proof (linked_length _ _ _ ND Hl). lia.
Qed.

Lemma value_of_hd h (c : list ref) (vs : list V) v :
  Forall2 (has_value h) c vs → hd_error vs = Some v →
  value_of h (hd_error c) = Done v.
Proof.
  intros Hvs Ev. destruct Hvs as [|x w c vs (nd & En & <-) _]; [done|].
  injection Ev as <-. simpl. by rewrite (load_Some _ _ _ En).
Qed.

Lemma value_of_last h (c : list ref) (vs : list V) v :
  Forall2 (has_value h) c vs → last vs = Some v →
  value_of h (last c) = Done v.
Proof.
  induction 1 as [|x w c vs (nd & En & Ew) Hvs IH]; intros Ev; [done|].
  destruct Hvs as [|x' w' c' vs' Hx' Hvs'].
  - injection Ev as <-. simpl. rewrite (load_Some _ _ _ En). simpl. by rewrite Ew.
  - rewrite last_cons_cons in *. by apply IH.
Qed.

(** X10: the loop [for _, v := range vs { l.Append(l.Tail(), lnode.New(v)) }]
    on a new list ([mkList], [main]) runs to completion for every sequence
    of values [vs].  The list it leaves matches a chain that holds the
    values in the order of the loop: the walk [for n := l.Head(); n != nil;
    n = n.Next] reads [vs], [l.Head().Value] is the first value and
    [l.Tail().Value] the last, [FindNodes(v)] has as many nodes as [v] has
    occurrences in [vs], and each of them holds [v]. *)
Theorem append_all_builds_in_order (vs : list V) :
  ∃ h l ns, append_all vs (∅, New) = Done (h, l) ∧
            matches_chain h l ns ∧
            Forall2 (has_value h) ns vs ∧
            values_by_next (S (size h)) h (Head l) = Done vs ∧
            (∀ v, hd_error vs = Some v → value_of h (Head l) = Done v) ∧
            (∀ v, last vs = Some v → value_of h (Tail l) = Done v) ∧
            (∀ v, length (FindNodes l v) = length (filter (λ w, w = v) vs)) ∧
            (∀ v n, n ∈ FindNodes l v → has_value h n v).
Proof.
  destruct (append_all_matches vs ∅ New [] (New_matches ∅))
    as (h & l & ns & E & Hm & Hvs & _). simpl in Hm.
  exists h, l, ns. split; [done|]. split; [done|]. split; [done|].
  pose proof Hm as (_ & _ & Eh & Et & _).
  split; [by apply (values_by_next_matches h l ns)|].
  split; [intros v Ev; rewrite Eh; by apply (value_of_hd h ns vs)|].
  split; [intros v Ev; rewrite Et; by apply (value_of_last h ns vs)|].
  split; [intros v; by apply (FindNodes_length_chain h l ns)|].
  intros v n Hn. by destruct (matches_chain_bucket h l ns v n Hm Hn).
Qed.

(** X11: the loop [for _, v := range vs { l.Prepend(l.Head(), lnode.New(v)) }]
    on a new list ([TestEmptyPrepend]) runs to completion for every
    sequence of values.  The chain holds the nodes in the reverse of the
    order of the loop: the walk from [l.Head()] by [Next] reads [vs]
    backwards, [l.Head().Value] is the last value and [l.Tail().Value] the
    first; [FindNodes(v)] has as many nodes as [v] has occurrences in [vs],
    and each of them holds [v]. *)
Theorem prepend_all_builds_reversed (vs : list V) :
  ∃ h l ns, prepend_all vs (∅, New) = Done (h, l) ∧
            matches_chain h l (reverse ns) ∧
            Forall2 (has_value h) ns vs ∧
            values_by_next (S (size h)) h (Head l) = Done (reverse vs) ∧
            (∀ v, last vs = Some v → value_of h (Head l) = Done v) ∧
            (∀ v, hd_error vs = Some v → value_of h (Tail l) = Done v) ∧
            (∀ v, length (FindNodes l v) = length (filter (λ w, w = v) vs)) ∧
            (∀ v n, n ∈ FindNodes l v → has_value h n v).
Proof.
  destruct (prepend_all_matches vs ∅ New [] (New_matches ∅))
    as (h & l & ns & E & Hm & Hvs & _). rewrite app_nil_r in Hm.
  exists h, l, ns. split; [done|]. split; [done|]. split; [done|].
  pose proof Hm as (_ & _ & Eh & Et & _).
  pose proof (Forall2_reverse _ _ _ Hvs) as Hrev.
  split; [by apply (values_by_next_matches h l (reverse ns))|].
  split; [|split; [|split]].
  - intros v Ev. rewrite Eh.
    apply (value_of_hd h (reverse ns) (reverse vs)); [done|].
    rewrite <- Ev. rewrite <- (reverse_involutive vs) at 2.
    by rewrite last_reverse.
  - intros v Ev. rewrite Et.
    apply (value_of_last h (reverse ns) (reverse vs)); [done|].
    by rewrite last_reverse.
  - intros v.
    rewrite (FindNodes_length_chain h l (reverse ns) (reverse vs) v); [|done..].
    by rewrite filter_reverse, length_reverse.
  - intros v n Hn. by destruct (matches_chain_bucket h l _ v n Hm Hn).
Qed.

(** *** Loops over the result of [FindNodes] *)

Lemma filter_all {A} (P : A → Prop) `{∀ x, Decision (P x)} (b : list A) :
  (∀ x, x ∈ b → P x) → filter P b = b.
Proof.
  induction b as [|x b IH]; intros Hb; [done|].
  rewrite filter_cons_True by (apply Hb; by left).
  f_equal. apply IH. intros y Hy. apply Hb. by right.
Qed.

Lemma filter_notin_nil (b : list ref) : filter (λ x, x ∉ []) b = b.
Proof. apply filter_all. intros x _. apply not_elem_of_nil. Qed.

Lemma filter_notin_self (b : list ref) : filter (λ x, x ∉ b) b = [].
Proof. apply elem_of_nil_inv. intros x. rewrite list_elem_of_filter. tauto. Qed.

Lemma SetValue_each_matches (nds : list ref) v : ∀ h l c,
  matches_chain h l c → (∀ n, n ∈ nds → n ∈ c) →
  ∃ h' l', SetValue_each nds v (h, l) = Done (h', l') ∧ matches_chain h' l' c.
Proof.
  induction nds as [|n nds IH]; intros h l c Hm Hin; [by exists h, l|].
  destruct (SetValue_matches h l c n v Hm) as (h1 & l1 & E1 & Hm1).
  { apply Hin. by left. }
  destruct (IH h1 l1 c Hm1) as (h' & l' & E & Hm').
  { intros x Hx. apply Hin. by right. }
  exists h', l'. split; [|done]. simpl. rewrite E1. done.
Qed.

(** The loop moves the nodes it visits, all of value [v], to the end of the
    bucket of the new value [w], in the order of the visit. *)
Lemma SetValue_each_buckets (nds : list ref) v w : ∀ h l h' l',
  v ≠ w → NoDup nds → (∀ n, n ∈ nds → has_value h n v) →
  SetValue_each nds w (h, l) = Done (h', l') →
  FindNodes l' v = filter (λ x, x ∉ nds) (FindNodes l v) ∧
  FindNodes l' w = FindNodes l w ++ nds ∧
  (∀ u, u ≠ v → u ≠ w → FindNodes l' u = FindNodes l u) ∧
  (∀ n, n ∈ nds → has_value h' n w) ∧
  (∀ n u, n ∉ nds → has_value h n u → has_value h' n u).
Proof.
  induction nds as [|n nds IH]; intros h l h' l' Hvw ND Hv E.
  - injection E as <- <-. split; [|split; [by rewrite app_nil_r|split; [done|]]].
    + by rewrite filter_notin_nil.
    + split; [|done]. by intros n ?%elem_of_nil.
  - apply NoDup_cons in ND as [Hn ND]. cbn [SetValue_each fst snd] in E.
    destruct (Hv n) as (nd & En & Ev); [by left|].
    destruct (SetValue_Done h l n nd w En) as (l1 & E1 & _ & _ & HF1).
    rewrite E1 in E. simpl in E.
    set (h1 := <[n := mkNode w (Next nd) (Prev nd)]> h) in *.
    assert (∀ x u, x ≠ n → has_value h x u → has_value h1 x u) as Hk.
    { intros x u Hne (y & Ey & Eu). exists y. split; [|done].
      subst h1. by rewrite lookup_insert_ne. }
    destruct (IH h1 l1 h' l' Hvw ND) as (Fv & Fw & Fu & Hw & Hk'); [|exact E|].
    { intros x Hx. apply Hk; [|apply Hv; by right]. by intros ->. }
    split; [|split; [|split; [|split]]].
    + rewrite Fv, HF1. simpl. rewrite (decide_True (P := Value nd = v)) by done.
      rewrite (decide_False (P := w = v)) by congruence. rewrite list_filter_filter.
      apply list_filter_iff. intros x. rewrite elem_of_cons. tauto.
    + rewrite Fw, HF1. simpl. rewrite (decide_False (P := Value nd = w)) by congruence.
      rewrite (decide_True (P := w = w)) by done. by rewrite <- app_assoc.
    + intros u Hu1 Hu2. rewrite (Fu u Hu1 Hu2), HF1. simpl.
      rewrite (decide_False (P := Value nd = u)) by congruence.
      by rewrite (decide_False (P := w = u)) by congruence.
    + intros x [->|Hx]%elem_of_cons; [|by apply Hw].
      apply Hk'; [done|]. eexists. split; [apply lookup_insert_eq|done].
    + intros x u Hx Hxu. apply not_elem_of_cons in Hx as [Hne Hx].
      apply Hk'; [done|]. by apply Hk.
Qed.

(** With the value the nodes already hold, each call moves its node to the
    end of the bucket: after a loop over the whole bucket the bucket is as
    it was. *)
Lemma SetValue_each_rotates (nds : list ref) v : ∀ l done_ h,
  NoDup (nds ++ done_) → FindNodes l v = nds ++ done_ →
  (∀ n, n ∈ nds → has_value h n v) →
  ∃ l', SetValue_each nds v (h, l) = Done (h, l') ∧
        head l' = head l ∧ tail l' = tail l ∧
        FindNodes l' v = done_ ++ nds ∧
        ∀ u, u ≠ v → FindNodes l' u = FindNodes l u.
Proof.
  induction nds as [|n nds IH]; intros l done_ h ND EF Hv.
  - exists l. simpl in *. by rewrite app_nil_r.
  - destruct (Hv n) as (nd & En & Ev); [by left|].
    destruct (SetValue_Done h l n nd v En) as (l1 & E1 & Hh1 & Ht1 & HF1).
    assert (<[n := mkNode v (Next nd) (Prev nd)]> h = h) as Eh.
    { apply insert_id. rewrite En. f_equal. destruct nd. simpl in *. by subst. }
    rewrite Eh in E1. simpl in ND. apply NoDup_cons in ND as [Hn ND].
    assert (FindNodes l1 v = nds ++ (done_ ++ [n])) as EF1.
    { rewrite HF1. simpl. rewrite (decide_True (P := Value nd = v)) by done.
      rewrite (decide_True (P := v = v)) by done. rewrite EF. simpl.
      rewrite filter_cons_False by (by intros ?).
      rewrite filter_ne_absent by done. by rewrite app_assoc. }
    destruct (IH l1 (done_ ++ [n]) h) as (l' & E & Hh & Ht & HF & HU).
    { rewrite app_assoc. apply NoDup_app. split; [done|]. split.
      - intros x Hx ->%list_elem_of_singleton. done.
      - apply NoDup_singleton. }
    { done. }
    { intros x Hx. apply Hv. by right. }
    exists l'. split; [|split; [congruence|split; [congruence|split]]].
    + simpl. rewrite E1. simpl. exact E.
    + rewrite HF. by rewrite <- app_assoc.
    + intros u Hu. rewrite (HU u Hu), HF1. simpl.
      rewrite (decide_False (P := Value nd = u)) by congruence.
      by rewrite (decide_False (P := v = u)) by congruence.
Qed.

(** X12: the loop [for _, node := range l.FindNodes(v) { l.SetValue(node, w) }]
    of [main], for [w] other than [v], on a list that matches its chain:
    it runs to completion, the list matches the same chain, the bucket of
    [v] is empty, the bucket of [w] is what it was followed by the former
    bucket of [v] in its order, no other bucket changes; the nodes visited
    hold [w] and no other node changes its value. *)
Theorem SetValue_each_moves_bucket h l c v w :
  matches_chain h l c → v ≠ w →
  ∃ h' l', SetValue_each (FindNodes l v) w (h, l) = Done (h', l') ∧
           matches_chain h' l' c ∧
           FindNodes l' v = [] ∧
           FindNodes l' w = FindNodes l w ++ FindNodes l v ∧
           (∀ u, u ≠ v → u ≠ w → FindNodes l' u = FindNodes l u) ∧
           (∀ n, n ∈ FindNodes l v → has_value h' n w) ∧
           (∀ n u, n ∉ FindNodes l v → has_value h n u → has_value h' n u).
Proof.
  intros Hm Hvw.
  destruct (SetValue_each_matches (FindNodes l v) w h l c Hm) as (h' & l' & E & Hm').
  { intros n Hn. by destruct (matches_chain_bucket h l c v n Hm Hn). }
  exists h', l'. split; [done|]. split; [done|].
  destruct (SetValue_each_buckets (FindNodes l v) v w h l h' l' Hvw)
    as (Fv & Fw & Fu & Hw & Hk); [| |exact E|].
  { by destruct Hm as (_ & _ & _ & _ & Hi); destruct (Hi v). }
  { intros n Hn. by destruct (matches_chain_bucket h l c v n Hm Hn). }
  rewrite filter_notin_self in Fv. done.
Qed.

(** X13: the same loop with the value the nodes already hold.  Each call
    moves its node to the end of the bucket; after the loop over the whole
    bucket the heap is unchanged and [Head()], [Tail()] and every bucket,
    order included, are what they were. *)
Theorem SetValue_each_same_value_restores h l (M : gset ref) v :
  index_ok M h l →
  ∃ l', SetValue_each (FindNodes l v) v (h, l) = Done (h, l') ∧
        Head l' = Head l ∧ Tail l' = Tail l ∧
        ∀ u, FindNodes l' u = FindNodes l u.
Proof.
  intros Hi. destruct (Hi v) as [ND Hm].
  destruct (SetValue_each_rotates (FindNodes l v) v l [] h)
    as (l' & E & Hh & Ht & Fv & Fu).
  { by rewrite app_nil_r. }
  { by rewrite app_nil_r. }
  { intros n Hn. by apply Hm in Hn as [_ ?]. }
  exists l'. split; [done|]. split; [done|]. split; [done|].
  intros u. destruct (decide (u = v)) as [->|Hu]; [done|]. by apply Fu.
Qed.

Lemma filter_notin_cons (n : ref) (ds c : list ref) :
  filter (λ x, x ∉ n :: ds) c = filter (λ x, x ∉ ds) (filter (λ x, x ≠ n) c).
Proof.
  rewrite list_filter_filter. apply list_filter_iff. intros x.
  rewrite elem_of_cons. tauto.
Qed.

Lemma filter_ne_middle (c1 c2 : list ref) n :
  n ∉ c1 → n ∉ c2 → filter (λ x, x ≠ n) (c1 ++ n :: c2) = c1 ++ c2.
Proof.
  intros H1 H2. rewrite filter_app, filter_cons_False by (by intros ?).
  by rewrite !filter_ne_absent.
Qed.

Lemma Delete_each_matches (ds : list ref) : ∀ h l c,
  matches_chain h l c → NoDup ds → (∀ n, n ∈ ds → n ∈ c) →
  (∃ x, x ∈ c ∧ x ∉ ds) →
  ∃ h' l', Delete_each ds (h, l) = Done (h', l') ∧
           matches_chain h' l' (filter (λ x, x ∉ ds) c) ∧
           same_values h h'.
Proof.
  induction ds as [|n ds IH]; intros h l c Hm ND Hin (x & Hx & Hxd).
  - exists h, l. split; [done|]. split; [|apply same_values_refl].
    by rewrite filter_notin_nil.
  - apply NoDup_cons in ND as [Hn ND].
    apply not_elem_of_cons in Hxd as [Hxn Hxd].
    destruct (list_elem_of_split c n) as (c1 & c2 & ->); [apply Hin; by left|].
    pose proof Hm as (NDc & _).
    destruct (NoDup_split _ _ _ NDc) as (_ & _ & Hn1 & Hn2 & _).
    assert (∀ y, y ∈ c1 ++ n :: c2 → y ≠ n → y ∈ c1 ++ c2) as Hrest.
    { intros y. rewrite !elem_of_app, elem_of_cons. tauto. }
    destruct (Delete_matches h l c1 n c2 Hm) as (h1 & l1 & E1 & Hm1).
    { intros E0. specialize (Hrest x Hx Hxn). rewrite E0 in Hrest.
      by apply elem_of_nil in Hrest. }
    destruct (IH h1 l1 (c1 ++ c2) Hm1 ND) as (h' & l' & E & Hm' & SV').
    { intros y Hy. apply Hrest; [apply Hin; by right|]. by intros ->. }
    { exists x. split; [by apply Hrest|done]. }
    exists h', l'. split; [|split].
    + simpl. rewrite E1. simpl. exact E.
    + by rewrite filter_notin_cons, filter_ne_middle.
    + destruct (Delete_inv _ _ _ _ _ E1) as (SV & _).
      by eapply same_values_trans.
Qed.

Lemma Delete_each_bucket (ds : list ref) v : ∀ h l h' l',
  (∀ n, n ∈ ds → has_value h n v) →
  Delete_each ds (h, l) = Done (h', l') →
  FindNodes l' v = filter (λ x, x ∉ ds) (FindNodes l v) ∧
  ∀ u, u ≠ v → FindNodes l' u = FindNodes l u.
Proof.
  induction ds as [|n ds IH]; intros h l h' l' Hv E.
  - injection E as <- <-. split; [|done]. by rewrite filter_notin_nil.
  - cbn [Delete_each fst snd] in E. inv_Done E. destruct a as [h1 l1].
    destruct (Delete_inv _ _ _ _ _ E0) as (SV & nd & En & HF).
    assert (Value nd = v) as Ev.
    { destruct (Hv n) as (nd0 & En0 & Ev0); [by left|].
      destruct (same_values_lookup _ _ _ _ SV En0) as (nd' & En' & Ev').
      congruence. }
    destruct (IH h1 l1 h' l') as (Fv & Fu); [|exact E|].
    { intros x Hx. apply (same_values_has_value _ _ x v SV). apply Hv. by right. }
    split.
    + rewrite Fv, HF, decide_True by done. by rewrite filter_notin_cons.
    + intros u Hu. rewrite (Fu u Hu), HF. by rewrite decide_False by congruence.
Qed.

Lemma filter_notin_take (b : list ref) k :
  NoDup b → filter (λ x, x ∉ take k b) b = drop k b.
Proof.
  revert k. induction b as [|x b IH]; intros k ND; [by destruct k|].
  apply NoDup_cons in ND as [Hx ND]. destruct k as [|k].
  - simpl. apply filter_notin_nil.
  - simpl. rewrite filter_cons_False by (intros Hn; apply Hn; by left).
    rewrite <- (IH k ND). rewrite filter_notin_cons. f_equal.
    apply filter_all. intros y Hy ->. done.
Qed.

(** X14: the loop [for _, n := range nds { l.Delete(n) }] of [TestDelete]
    over the first [k] nodes of [nds = l.FindNodes(v)], on a list that
    matches its chain and has a node of another value: it runs to
    completion, [FindNodes(v)] has lost exactly these [k] nodes, no other
    bucket changes, and the list matches the chain without them. *)
Theorem Delete_each_shrinks_bucket h l c v k :
  matches_chain h l c → (∃ x, x ∈ c ∧ ¬ has_value h x v) →
  ∃ h' l', Delete_each (take k (FindNodes l v)) (h, l) = Done (h', l') ∧
           FindNodes l' v = drop k (FindNodes l v) ∧
           (∀ u, u ≠ v → FindNodes l' u = FindNodes l u) ∧
           matches_chain h' l' (filter (λ x, x ∉ take k (FindNodes l v)) c).
Proof.
  intros Hm (x & Hx & Hxv).
  assert (NoDup (FindNodes l v)) as ND
    by (by destruct Hm as (_ & _ & _ & _ & Hi); destruct (Hi v)).
  assert (∀ n, n ∈ take k (FindNodes l v) → n ∈ c ∧ has_value h n v) as Hb.
  { intros n Hn. apply (matches_chain_bucket h l c v n Hm).
    by apply (subseteq_take k). }
  destruct (Delete_each_matches (take k (FindNodes l v)) h l c Hm)
    as (h' & l' & E & Hm' & _).
  { eapply sublist_NoDup; [exact ND | apply sublist_take]. }
  { intros n Hn. by apply Hb. }
  { exists x. split; [done|]. intros Hn. apply Hxv. by apply Hb. }
  exists h', l'. split; [done|].
  destruct (Delete_each_bucket (take k (FindNodes l v)) v h l h' l')
    as (Fv & Fu); [|exact E|].
  { intros n Hn. by apply Hb. }
  rewrite filter_notin_take in Fv by done. done.
Qed.

(** *** Repairing the cached state *)

Lemma index_ok_filter h l (c : list ref) :
  NoDup c → (∀ v, FindNodes l v = filter (λ x, value_is h v x) c) →
  index_ok (list_to_set c) h l.
Proof.
  intros ND HF v. rewrite HF. split; [by apply NoDup_filter|].
  intros x. rewrite list_elem_of_filter, elem_of_list_to_set, value_is_spec.
  tauto.
Qed.

(** From a correct head, [FixCounts] alone repairs the index of a list that
    is not empty. *)
Lemma FixCounts_matches h l c :
  c ≠ [] → NoDup c → linked h None c → Head l = hd_error c → Tail l = last c →
  ∃ l', FixCounts h l = Done l' ∧ matches_chain h l' c.
Proof.
  intros Hc ND Hl Eh Et.
  destruct (FixCounts_rebuilds h l c ND Hl Eh) as (l' & E & Hh & Ht & HF).
  exists l'. split; [done|]. split; [done|]. split; [done|].
  split; [congruence|]. split; [congruence|].
  apply index_ok_filter; [done|]. by apply HF.
Qed.

(** Every chain is the chain of some list. *)
Lemma chain_has_list h c :
  NoDup c → linked h None c → ∃ l, matches_chain h l c.
Proof.
  intros ND Hl. destruct (decide (c = [])) as [->|Hc].
  - exists New. apply New_matches.
  - destruct (FixCounts_matches h (mkLList (hd_error c) (last c) ∅) c)
      as (l' & _ & Hm); try done.
    by exists l'.
Qed.

(** X15: the three repairs together.  Whatever the index holds, if the
    cached head and the cached tail are nodes of a chain without cycle,
    then [FixHead], [FixTail] and [FixCounts], in this order, complete and
    leave a list that matches the chain. *)
Theorem repairs_restore_matching Head_nil Tail_nil h l c x y :
  NoDup c → linked h None c →
  head l = Some x → x ∈ c → tail l = Some y → y ∈ c →
  ∃ l1 l2 l3, FixHead Head_nil h l = Done l1 ∧
              FixTail Tail_nil h l1 = Done l2 ∧
              FixCounts h l2 = Done l3 ∧
              matches_chain h l3 c.
Proof.
  intros ND Hl Eh Hx Et Hy.
  pose proof (FixHead_from_node Head_nil h l c x ND Hl Hx Eh) as E1.
  set (l1 := with_head l (hd_error c)) in *.
  pose proof (FixTail_from_node Tail_nil h l1 c y ND Hl Hy Et) as E2.
  set (l2 := with_tail l1 (last c)) in *.
  destruct (FixCounts_matches h l2 c) as (l3 & E3 & Hm); try done.
  { intros ->. by apply elem_of_nil in Hx. }
  by exists l1, l2, l3.
Qed.

(** X16: a value written into the field of a node of the chain
    ([node.Value = w], not [SetValue]) leaves the index stale: the node
    holds [w], is still in the bucket of its old value and is not in the
    bucket of [w].  [FixCounts] then completes and the list matches its
    chain again. *)
Theorem FixCounts_after_direct_value_write h l c n nd w :
  matches_chain h l c → n ∈ c → h !! n = Some nd → w ≠ Value nd →
  ∃ h', set_Value h n w = Done h' ∧
        has_value h' n w ∧ (n ∉ FindNodes l w) ∧ n ∈ FindNodes l (Value nd) ∧
        ∃ l', FixCounts h' l = Done l' ∧ matches_chain h' l' c.
Proof.
  intros Hm Hn En Hw. pose proof Hm as (ND & Hl & Eh & Et & Hi).
  exists (<[n := mkNode w (Next nd) (Prev nd)]> h).
  split; [apply set_Value_Done; by exists nd|].
  split; [eexists; split; [apply lookup_insert_eq|done]|].
  split; [|split].
  - intros Hin. destruct (matches_chain_bucket h l c w n Hm Hin) as [_ Hv].
    apply Hw. symmetry. eapply has_value_fun; [|exact Hv]. by exists nd.
  - destruct (Hi (Value nd)) as [_ Hmv]. apply Hmv.
    split; [by apply elem_of_list_to_set | by exists nd].
  - apply FixCounts_matches; try done.
    + intros ->. by apply elem_of_nil in Hn.
    + by apply linked_set_Value.
Qed.

(** *** Nodes linked behind the back of the list *)

Lemma Prepend_calls_primitive h l a n h' l' :
  is_Some (head l) → Prepend h l (Some a) n = Done (h', l') →
  lnode_Prepend h (Some a) n = Done h'.
Proof.
  intros [x Ex] E. unfold Prepend in E. rewrite Ex in E. inv_Done E.
  destruct a0 as [h1 l1]. inv_Done E. injection E as <- _.
  case_decide as Ha.
  - rewrite <- Ha in E0. inv_Done E0. by injection E0 as <- _.
  - inv_Done E0. by injection E0 as <- _.
Qed.

Lemma Append_calls_primitive h l a n h' l' :
  is_Some (head l) → Append h l (Some a) n = Done (h', l') →
  lnode_Append h (Some a) n = Done h'.
Proof.
  intros [x Ex] E. unfold Append in E. rewrite Ex in E. inv_Done E.
  destruct a0 as [h1 l1]. inv_Done E. injection E as <- _.
  case_decide as Ha.
  - rewrite <- Ha in E0. inv_Done E0. by injection E0 as <- _.
  - inv_Done E0. by injection E0 as <- _.
Qed.

(** The primitive on a chain, whether a list caches it or not. *)
Lemma lnode_Prepend_linked h c1 a c2 n nd :
  NoDup (c1 ++ a :: c2) → linked h None (c1 ++ a :: c2) →
  n ∉ c1 ++ a :: c2 → h !! n = Some nd →
  ∃ h', lnode_Prepend h (Some a) n = Done h' ∧
        NoDup (c1 ++ n :: a :: c2) ∧ linked h' None (c1 ++ n :: a :: c2) ∧
        same_values h h'.
Proof.
  intros ND Hl Hn En. destruct (chain_has_list h _ ND Hl) as [l Hm].
  destruct (Prepend_matches h l c1 a c2 n nd Hm Hn En) as (h' & l' & E & Hm').
  exists h'. destruct Hm' as (ND' & Hl' & _).
  assert (lnode_Prepend h (Some a) n = Done h') as EL.
  { apply (Prepend_calls_primitive h l a n h' l'); [|done].
    destruct Hm as (_ & _ & Eh & _). unfold Head in Eh. rewrite Eh.
    by rewrite hd_error_app_cons. }
  split; [done|]. split; [done|]. split; [done|].
  by eapply lnode_Prepend_same_values.
Qed.

Lemma lnode_Append_linked h c1 a c2 n nd :
  NoDup (c1 ++ a :: c2) → linked h None (c1 ++ a :: c2) →
  n ∉ c1 ++ a :: c2 → h !! n = Some nd →
  ∃ h', lnode_Append h (Some a) n = Done h' ∧
        NoDup (c1 ++ a :: n :: c2) ∧ linked h' None (c1 ++ a :: n :: c2) ∧
        same_values h h'.
Proof.
  intros ND Hl Hn En. destruct (chain_has_list h _ ND Hl) as [l Hm].
  destruct (Append_matches h l c1 a c2 n nd Hm Hn En) as (h' & l' & E & Hm').
  exists h'. destruct Hm' as (ND' & Hl' & _).
  assert (lnode_Append h (Some a) n = Done h') as EL.
  { apply (Append_calls_primitive h l a n h' l'); [|done].
    destruct Hm as (_ & _ & Eh & _). unfold Head in Eh. rewrite Eh.
    by rewrite hd_error_app_cons. }
  split; [done|]. split; [done|]. split; [done|].
  by eapply lnode_Append_same_values.
Qed.

Lemma linked_alloc_fresh h p c r nd :
  linked h p c → h !! r = None → linked (<[r := nd]> h) p c ∧ r ∉ c.
Proof.
  intros Hl Er.
  assert (r ∉ c) as Hr.
  { intros Hin. destruct (linked_alloc _ _ _ _ Hl Hin) as [x Ex]. congruence. }
  split; [|done]. revert p Hl Hr. induction c as [|m c IH]; intros p Hl Hr; [done|].
  destruct Hl as (nm & Em & EP & EN & Hl).
  apply not_elem_of_cons in Hr as [Hne Hr].
  exists nm. rewrite lookup_insert_ne by done. split; [done|].
  split; [done|]. split; [done|]. by apply IH.
Qed.

Lemma follow_prev_linked h (c1 : list ref) : ∀ a c2,
  linked h None (c1 ++ a :: c2) →
  follow_prev (length c1) h (Some a) = Done (Some (default a (hd_error c1))).
Proof.
  induction c1 as [|p c1 IH] using rev_ind; intros a c2 Hl; [done|].
  rewrite length_app. simpl. rewrite Nat.add_1_r. cbn [follow_prev].
  destruct (linked_split _ _ _ _ Hl) as (na & Ea & EPa & _).
  rewrite last_snoc in EPa. rewrite (load_Some _ _ _ Ea). simpl. rewrite EPa.
  rewrite <- app_assoc in Hl. simpl in Hl. rewrite (IH p (a :: c2) Hl).
  by destruct c1.
Qed.

Lemma linked_suffix h (c1 c2 : list ref) :
  linked h None (c1 ++ c2) → linked h (last c1) c2.
Proof.
  intros Hl. apply linked_lseg in Hl. apply lseg_app in Hl as [_ Hl].
  rewrite from_option_Some_None in Hl. by apply linked_lseg.
Qed.

Lemma follow_next_linked h : ∀ k c p,
  linked h p c →
  follow_next k h (hd_error c) =
  if decide (k ≤ length c) then Done (c !! k) else Panic.
Proof.
  induction k as [|k IH]; intros c p Hl.
  - simpl. by destruct c.
  - destruct c as [|n c]; [done|]. destruct Hl as (nd & En & _ & EN & Hl).
    cbn [follow_next hd_error]. rewrite (load_Some _ _ _ En). simpl.
    rewrite EN, (IH c (Some n) Hl). simpl.
    destruct (decide (k ≤ length c)), (decide (S k ≤ S (length c))); done || lia.
Qed.

Lemma follow_next_last h (c1 : list ref) a c2 :
  linked h None (c1 ++ a :: c2) →
  follow_next (length c2) h (Some a) = Done (Some (default a (last c2))).
Proof.
  intros Hl. apply linked_suffix in Hl.
  pose proof (follow_next_linked h (length c2) (a :: c2) _ Hl) as E.
  simpl in E. rewrite E. rewrite decide_True by lia. f_equal.
  destruct (list_snoc_case c2) as [->|(c' & p & ->)]; [done|].
  rewrite last_snoc, length_app. simpl. rewrite Nat.add_1_r. simpl.
  by rewrite lookup_app_r, Nat.sub_diag by done.
Qed.

Lemma prepend_direct_linked (vs : list V) : ∀ h c1 a c2,
  NoDup (c1 ++ a :: c2) → linked h None (c1 ++ a :: c2) →
  ∃ h' ns, prepend_direct vs (length c1) h (Some a) = Done h' ∧
           NoDup (reverse ns ++ c1 ++ a :: c2) ∧
           linked h' None (reverse ns ++ c1 ++ a :: c2) ∧
           Forall2 (has_value h') ns vs ∧
           ∀ x w, has_value h x w → has_value h' x w.
Proof.
  induction vs as [|v vs IH]; intros h c1 a c2 ND Hl.
  - exists h, []. split; [done|]. split; [done|]. split; [done|].
    split; [constructor|done].
  - cbn [prepend_direct]. rewrite (follow_prev_linked h c1 a c2 Hl). cbn [obind].
    unfold lnode_New. cbv beta iota zeta.
    set (n := fresh (dom h)). set (nd := mkNode v None None).
    pose proof (fresh_ref_None h) as Hn. fold n in Hn.
    destruct (linked_alloc_fresh h None _ n nd Hl Hn) as [Hl1 Hnc].
    assert (∃ rest, c1 ++ a :: c2 = default a (hd_error c1) :: rest) as [rest Ec].
    { destruct c1; simpl; eauto. }
    rewrite Ec in ND, Hl1, Hnc.
    destruct (lnode_Prepend_linked (<[n := nd]> h) [] _ rest n nd ND Hl1 Hnc)
      as (h2 & EL & ND2 & Hl2 & SV); [apply lookup_insert_eq|].
    rewrite EL. cbn [obind]. rewrite app_nil_l, <- Ec in ND2, Hl2.
    destruct (IH h2 (n :: c1) a c2 ND2 Hl2) as (h' & ns & E & ND' & Hl' & Hvs & Hk).
    exists h', (n :: ns). split; [exact E|].
    rewrite reverse_cons, <- app_assoc. split; [done|]. split; [done|]. split.
    + constructor; [|done]. apply Hk. apply (same_values_has_value _ _ n v SV).
      exists nd. split; [apply lookup_insert_eq|done].
    + intros x w Hx. apply Hk. apply (same_values_has_value _ _ x w SV).
      by apply has_value_alloc.
Qed.

Lemma append_direct_linked (vs : list V) : ∀ h c1 a c2,
  NoDup (c1 ++ a :: c2) → linked h None (c1 ++ a :: c2) →
  ∃ h' ns, append_direct vs (length c2) h (Some a) = Done h' ∧
           NoDup (c1 ++ a :: c2 ++ ns) ∧
           linked h' None (c1 ++ a :: c2 ++ ns) ∧
           Forall2 (has_value h') ns vs ∧
           ∀ x w, has_value h x w → has_value h' x w.
Proof.
  induction vs as [|v vs IH]; intros h c1 a c2 ND Hl.
  - exists h, []. rewrite app_nil_r. split; [done|]. split; [done|].
    split; [done|]. split; [constructor|done].
  - cbn [append_direct]. rewrite (follow_next_last h c1 a c2 Hl). cbn [obind].
    unfold lnode_New. cbv beta iota zeta.
    set (n := fresh (dom h)). set (nd := mkNode v None None).
    pose proof (fresh_ref_None h) as Hn. fold n in Hn.
    destruct (linked_alloc_fresh h None _ n nd Hl Hn) as [Hl1 Hnc].
    assert (∃ front, c1 ++ a :: c2 = front ++ [default a (last c2)]) as [front Ec].
    { destruct (list_snoc_case c2) as [->|(c' & p & ->)].
      - by exists c1.
      - exists (c1 ++ a :: c'). rewrite last_snoc. simpl.
        by rewrite <- app_assoc. }
    rewrite Ec in ND, Hl1, Hnc.
    destruct (lnode_Append_linked (<[n := nd]> h) front _ [] n nd ND Hl1 Hnc)
      as (h2 & EL & ND2 & Hl2 & SV); [apply lookup_insert_eq|].
    rewrite EL. cbn [obind].
    assert (front ++ [default a (last c2); n] = c1 ++ a :: (c2 ++ [n])) as Ec2.
    { change [default a (last c2); n] with ([default a (last c2)] ++ [n]).
      rewrite app_assoc, <- Ec. by rewrite <- app_assoc. }
    rewrite Ec2 in ND2, Hl2.
    destruct (IH h2 c1 a (c2 ++ [n]) ND2 Hl2) as (h' & ns & E & ND' & Hl' & Hvs & Hk).
    rewrite length_app in E. simpl in E. rewrite Nat.add_1_r in E.
    exists h', (n :: ns). split; [exact E|].
    rewrite <- app_assoc in ND', Hl'. split; [done|]. split; [done|]. split.
    + constructor; [|done]. apply Hk. apply (same_values_has_value _ _ n v SV).
      exists nd. split; [apply lookup_insert_eq|done].
    + intros x w Hx. apply Hk. apply (same_values_has_value _ _ x w SV).
      by apply has_value_alloc.
Qed.

(** X17: [TestFixHead].  New nodes are linked in front of the head by the
    primitive, one before the other ([hd.Prepend], [hd.Prev.Prepend], ...),
    behind the back of the list: the calls complete, the chain grows to the
    left and no node changes its value; [Head()] still returns the old
    head, and [FixHead] sets the head to the node linked last (and changes
    nothing when no node was linked); tail and index are not touched. *)
Theorem FixHead_after_direct_prepends Head_nil (vs : list V) h l a c :
  matches_chain h l (a :: c) →
  ∃ h' ns, prepend_direct vs 0 h (Head l) = Done h' ∧
           NoDup (reverse ns ++ a :: c) ∧
           linked h' None (reverse ns ++ a :: c) ∧
           Forall2 (has_value h') ns vs ∧
           (∀ x w, has_value h x w → has_value h' x w) ∧
           Head l = Some a ∧
           FixHead Head_nil h' l = Done (with_head l (Some (default a (last ns)))).
Proof.
  intros (ND & Hl & Eh & _). simpl in Eh.
  destruct (prepend_direct_linked vs h [] a c ND Hl)
    as (h' & ns & E & ND' & Hl' & Hvs & Hk). simpl in *.
  exists h', ns. rewrite Eh. split; [done|]. split; [done|]. split; [done|].
  split; [done|]. split; [done|]. split; [done|].
  rewrite (FixHead_from_node Head_nil h' l _ a ND' Hl'); [| |done].
  - do 2 f_equal. destruct ns as [|x ns] using rev_ind; [done|].
    by rewrite reverse_snoc, last_snoc.
  - apply elem_of_app. right. by left.
Qed.

(** X18: [TestFixTail].  New nodes are linked behind the tail by the
    primitive ([tl.Append], [tl.Next.Append], ...): the chain grows to the
    right and no node changes its value; [Tail()] still returns the old
    tail, and [FixTail] sets the tail to the node linked last; head and
    index are not touched. *)
Theorem FixTail_after_direct_appends Tail_nil (vs : list V) h l c a :
  matches_chain h l (c ++ [a]) →
  ∃ h' ns, append_direct vs 0 h (Tail l) = Done h' ∧
           NoDup (c ++ a :: ns) ∧
           linked h' None (c ++ a :: ns) ∧
           Forall2 (has_value h') ns vs ∧
           (∀ x w, has_value h x w → has_value h' x w) ∧
           Tail l = Some a ∧
           FixTail Tail_nil h' l = Done (with_tail l (Some (default a (last ns)))).
Proof.
  intros (ND & Hl & _ & Et & _). rewrite last_snoc in Et.
  destruct (append_direct_linked vs h c a [] ND Hl)
    as (h' & ns & E & ND' & Hl' & Hvs & Hk). simpl in *.
  exists h', ns. rewrite Et. split; [done|]. split; [done|]. split; [done|].
  split; [done|]. split; [done|]. split; [done|].
  rewrite (FixTail_from_node Tail_nil h' l _ a ND' Hl'); [| |done].
  - by rewrite last_app_cons.
  - apply elem_of_app. right. by left.
Qed.

(** *** Runs that respect the preconditions *)

Lemma insert_after_middle (c1 c2 : list ref) a n :
  a ∉ c1 → insert_after a n (c1 ++ a :: c2) = c1 ++ a :: n :: c2.
Proof.
  induction c1 as [|x c1 IH]; intros Ha; simpl.
  - by rewrite decide_True.
  - apply not_elem_of_cons in Ha as [Hne Ha].
    rewrite decide_False by done. by rewrite IH.
Qed.

Lemma insert_before_middle (c1 c2 : list ref) a n :
  a ∉ c1 → insert_before a n (c1 ++ a :: c2) = c1 ++ n :: a :: c2.
Proof.
  induction c1 as [|x c1 IH]; intros Ha; simpl.
  - by rewrite decide_True.
  - apply not_elem_of_cons in Ha as [Hne Ha].
    rewrite decide_False by done. by rewrite IH.
Qed.

Lemma Append_keeps_run_inv A h l c anchor n c' :
  run_inv A h l c → chain_after (V := V) A c (OAppend anchor n) = Some c' →
  ∃ h' l', Append h l anchor n = Done (h', l') ∧ run_inv A h' l' c'.
Proof.
  intros (Hm & Hout & Hdom) Hc. simpl in Hc.
  case_decide as Hn; [|done]. destruct Hn as [HnA Hnc].
  rewrite <- Hdom in HnA. apply elem_of_dom in HnA as [nd En].
  destruct (decide (c = [])) as [->|Hne].
  - injection Hc as <-. destruct (Hout eq_refl n nd En) as [EN EP].
    destruct (Append_matches_empty h l anchor n nd Hm En EN EP) as (l' & E & Hm').
    exists h, l'. split; [done|]. by split.
  - assert (∃ a, anchor = Some a ∧ a ∈ c ∧ c' = insert_after a n c) as (a & -> & Ha & ->).
    { unfold insert_at in Hc. destruct c as [|y c0]; [done|].
      destruct anchor as [a|]; [|done]. case_decide; [|done].
      injection Hc as <-. by exists a. }
    pose proof Hm as (ND & Hl & _).
    apply list_elem_of_split in Ha as (c1 & c2 & ->).
    destruct (NoDup_split _ _ _ ND) as (_ & _ & Ha1 & Ha2 & _).
    rewrite insert_after_middle by done.
    destruct (Append_matches h l c1 a c2 n nd Hm Hnc En) as (h' & l' & E & Hm').
    exists h', l'. split; [done|]. split; [done|].
    destruct (Append_inv _ _ _ _ _ _ E) as (SV & _). split.
    + intros E0. by destruct c1.
    + by rewrite (same_values_dom _ _ SV).
Qed.

Lemma Prepend_keeps_run_inv A h l c anchor n c' :
  run_inv A h l c → chain_after (V := V) A c (OPrepend anchor n) = Some c' →
  ∃ h' l', Prepend h l anchor n = Done (h', l') ∧ run_inv A h' l' c'.
Proof.
  intros (Hm & Hout & Hdom) Hc. simpl in Hc.
  case_decide as Hn; [|done]. destruct Hn as [HnA Hnc].
  rewrite <- Hdom in HnA. apply elem_of_dom in HnA as [nd En].
  destruct (decide (c = [])) as [->|Hne].
  - injection Hc as <-. destruct (Hout eq_refl n nd En) as [EN EP].
    destruct (Prepend_matches_empty h l anchor n nd Hm En EN EP) as (l' & E & Hm').
    exists h, l'. split; [done|]. by split.
  - assert (∃ a, anchor = Some a ∧ a ∈ c ∧ c' = insert_before a n c) as (a & -> & Ha & ->).
    { unfold insert_at in Hc. destruct c as [|y c0]; [done|].
      destruct anchor as [a|]; [|done]. case_decide; [|done].
      injection Hc as <-. by exists a. }
    pose proof Hm as (ND & Hl & _).
    apply list_elem_of_split in Ha as (c1 & c2 & ->).
    destruct (NoDup_split _ _ _ ND) as (_ & _ & Ha1 & Ha2 & _).
    rewrite insert_before_middle by done.
    destruct (Prepend_matches h l c1 a c2 n nd Hm Hnc En) as (h' & l' & E & Hm').
    exists h', l'. split; [done|]. split; [done|].
    destruct (Prepend_inv _ _ _ _ _ _ E) as (SV & _). split.
    + intros E0. by destruct c1.
    + by rewrite (same_values_dom _ _ SV).
Qed.

Lemma Delete_keeps_run_inv A h l c n c' :
  run_inv A h l c → chain_after (V := V) A c (ODelete n) = Some c' →
  ∃ h' l', Delete h l n = Done (h', l') ∧ run_inv A h' l' c'.
Proof.
  intros (Hm & Hout & Hdom) Hc. simpl in Hc.
  case_decide as Hn; [|done]. destruct Hn as [Hn Hsole]. injection Hc as <-.
  pose proof Hm as (ND & Hl & _).
  apply list_elem_of_split in Hn as (c1 & c2 & ->).
  destruct (NoDup_split _ _ _ ND) as (_ & _ & Hn1 & Hn2 & _).
  rewrite filter_ne_middle by done.
  destruct (Delete_matches h l c1 n c2 Hm) as (h' & l' & E & Hm').
  { intros E0. apply Hsole. apply app_eq_nil in E0 as [-> ->]. done. }
  exists h', l'. split; [done|]. split; [done|].
  destruct (Delete_inv _ _ _ _ _ E) as (SV & _). split.
  - intros E0. exfalso. apply Hsole. by apply app_eq_nil in E0 as [-> ->].
  - by rewrite (same_values_dom _ _ SV).
Qed.

Lemma SetValue_keeps_run_inv A h l c n v c' :
  run_inv A h l c → chain_after A c (OSetValue n v) = Some c' →
  ∃ h' l', SetValue h l n v = Done (h', l') ∧ run_inv A h' l' c'.
Proof.
  intros (Hm & Hout & Hdom) Hc. simpl in Hc.
  case_decide as Hn; [|done]. injection Hc as <-.
  destruct (SetValue_matches h l c n v Hm Hn) as (h' & l' & E & Hm').
  exists h', l'. split; [done|]. split; [done|].
  destruct (SetValue_inv _ _ _ _ _ _ E) as [nd En].
  destruct (SetValue_Done h l n nd v En) as (l2 & E2 & _).
  assert (h' = <[n := mkNode v (Next nd) (Prev nd)]> h) as -> by congruence.
  split.
  - intros ->. by apply elem_of_nil in Hn.
  - rewrite dom_insert_L, <- Hdom. apply elem_of_dom_2 in En.
    apply set_eq. intros r. rewrite elem_of_union, elem_of_singleton.
    split; [intros [->|?]; done | by right].
Qed.

Lemma run_keeps_run_inv A (ops : list (op V)) : ∀ h l c c',
  run_inv A h l c → chain_of_run A c ops = Some c' →
  ∃ h' l', run ops (h, l) = Done (h', l') ∧ run_inv A h' l' c'.
Proof.
  induction ops as [|o ops IH]; intros h l c c' Hi Hc.
  - injection Hc as <-. by exists h, l.
  - cbn [chain_of_run] in Hc.
    destruct (chain_after A c o) as [c1|] eqn:E1; [|done].
    assert (∃ h1 l1, step (h, l) o = Done (h1, l1) ∧ run_inv A h1 l1 c1)
      as (h1 & l1 & Es & Hi1).
    { destruct o; simpl.
      - by eapply Append_keeps_run_inv.
      - by eapply Prepend_keeps_run_inv.
      - by eapply Delete_keeps_run_inv.
      - by eapply SetValue_keeps_run_inv. }
    destruct (IH h1 l1 c1 c' Hi1 Hc) as (h' & l' & E & Hi').
    exists h', l'. split; [|done]. cbn [run]. rewrite Es. exact E.
Qed.

(** X19: the invariant of C2 away from the defect of C1.  From a new list and
    nodes as [lnode.New] leaves them, every run of [Append], [Prepend],
    [Delete] and [SetValue] calls that respect the preconditions of the API
    and never delete the sole node of the chain runs to completion, and at
    its end [Head()], [Tail()] and the index match the chain: [Head()] is
    nil exactly when [Tail()] is, exactly when the chain is empty; the
    heap holds the nodes constructed at the start and no other. *)
Theorem valid_runs_stay_consistent (h0 : mem V) (ops : list (op V)) c :
  unlinked h0 → chain_of_run (dom h0) [] ops = Some c →
  ∃ h l, run ops (h0, New) = Done (h, l) ∧
         matches_chain h l c ∧
         (Head l = None ↔ Tail l = None) ∧
         (Head l = None ↔ c = []) ∧
         dom h = dom h0.
Proof.
  intros Hu Hc.
  destruct (run_keeps_run_inv (dom h0) ops h0 New [] c) as (h & l & E & Hm & _ & Hd);
    [|done|].
  { split; [apply New_matches|]. by split. }
  exists h, l. split; [done|]. split; [done|].
  destruct (matches_chain_empty h l c Hm) as [H1 H2].
  split; [tauto|]. split; [tauto|done].
Qed.

(** *** The keys of the index *)

Lemma addCount_keys h l n l' :
  addCount h l n = Done l' →
  ∃ nd, h !! n = Some nd ∧
        ∀ v, is_Some (nodes l' !! v) ↔ v = Value nd ∨ is_Some (nodes l !! v).
Proof.
  unfold addCount. intros E. inv_Done E. apply load_Done in E0.
  injection E as <-. exists a. split; [done|]. intros v. cbn [nodes with_nodes].
  rewrite lookup_insert_is_Some.
  destruct (nodes l !! Value a) as [b|] eqn:Eb.
  - destruct (decide (Value a = v)) as [<-|Hne].
    + split; [by left|]. by left.
    + split; [intros [?|[_ ?]]; [done|by right]|].
      intros [->|?]; [done|]. by right.
  - rewrite lookup_insert_is_Some. destruct (decide (Value a = v)) as [<-|Hne].
    + split; [by left|]. by left.
    + split; [intros [?|[_ [?|[_ ?]]]]; [done|done|by right]|].
      intros [->|?]; [done|]. right. split; [done|]. by right.
Qed.

Lemma subCount_keys h l n l' :
  subCount h l n = Done l' →
  ∀ v, is_Some (nodes l' !! v) ↔ is_Some (nodes l !! v).
Proof.
  unfold subCount. intros E. inv_Done E.
  destruct (nodes l !! Value a) as [b|] eqn:Eb; injection E as <-; [|done].
  intros v. cbn [nodes with_nodes]. rewrite lookup_insert_is_Some.
  destruct (decide (Value a = v)) as [<-|Hne].
  - rewrite Eb. split; [by eexists|by left].
  - split; [by intros [?|[_ ?]]|]. by right.
Qed.

Lemma step_keys h l (o : op V) h' l' :
  step (h, l) o = Done (h', l') →
  ∀ v, is_Some (nodes l !! v) → is_Some (nodes l' !! v).
Proof.
  intros E v Hv. destruct o as [anchor n|anchor n|n|n w]; simpl in E.
  - unfold Append in E. inv_Done E. destruct a as [h1 l1]. inv_Done E.
    injection E as <- <-.
    assert (nodes l1 = nodes l) as En.
    { destruct (head l); [case_decide|]; simpl in E0;
        try inv_Done E0; by injection E0 as <- <-. }
    destruct (addCount_keys _ _ _ _ E1) as (nd & _ & Hk). apply Hk. right.
    by rewrite En.
  - unfold Prepend in E. inv_Done E. destruct a as [h1 l1]. inv_Done E.
    injection E as <- <-.
    assert (nodes l1 = nodes l) as En.
    { destruct (head l), (tail l); try case_decide;
        first [ by injection E0 as <- <-
              | inv_Done E0; by injection E0 as <- <- ]. }
    destruct (addCount_keys _ _ _ _ E1) as (nd & _ & Hk). apply Hk. right.
    by rewrite En.
  - unfold Delete in E. inv_Done E. inv_Done E. inv_Done E.
    injection E as <- <-.
    assert (nodes a = nodes l) as En.
    { repeat case_decide; simpl in E0; try inv_Done E0; by injection E0 as <-. }
    apply (subCount_keys _ _ _ _ E2). by rewrite En.
  - unfold SetValue in E. inv_Done E. inv_Done E. inv_Done E.
    injection E as <- <-.
    destruct (addCount_keys _ _ _ _ E2) as (nd & _ & Hk). apply Hk. right.
    by apply (subCount_keys _ _ _ _ E0).
Qed.

(** X20: [Append], [Prepend], [Delete] and [SetValue] never delete a key of
    the map [nodes]: a bucket that exists before a run of such calls exists
    after it.  [subCount] stores the shortened slice under the key, an
    empty one when the last node of the value goes. *)
Theorem buckets_are_never_dropped (ops : list (op V)) : ∀ h l h' l' v,
  run ops (h, l) = Done (h', l') →
  is_Some (nodes l !! v) → is_Some (nodes l' !! v).
Proof.
  induction ops as [|o ops IH]; intros h l h' l' v E Hv.
  - by injection E as <- <-.
  - cbn [run] in E. inv_Done E. destruct a as [h1 l1].
    eapply IH; [exact E|]. by eapply step_keys.
Qed.

(** The traversal of [FixCounts] creates the buckets of the values it
    meets, and no other. *)
Lemma visit_addCount_keys h c : ∀ n p l0 fuel l',
  linked h p (n :: c) →
  visit_next fuel h n
    (λ node l0, do l1 <- addCount h l0 node; Done (l1, true)) l0 = Done l' →
  ∀ v, is_Some (nodes l' !! v) ↔
       is_Some (nodes l0 !! v) ∨ ∃ x, x ∈ n :: c ∧ has_value h x v.
Proof.
  assert (∀ n p l0 k l' (c : list ref),
            linked h p (n :: c) →
            visit_next (S k) h n
              (λ node l0, do l1 <- addCount h l0 node; Done (l1, true)) l0 = Done l' →
            ∃ nd l1, h !! n = Some nd ∧ Next nd = hd_error c ∧
              (∀ v, is_Some (nodes l1 !! v) ↔ v = Value nd ∨ is_Some (nodes l0 !! v)) ∧
              match hd_error c with
              | None => Done l1
              | Some x => visit_next k h x
                  (λ node l0, do l1 <- addCount h l0 node; Done (l1, true)) l1
              end = Done l') as Hstep.
  { intros n p l0 k l' c0 (nd & En & _ & EN & _) E. cbn [visit_next] in E.
    inv_Done E. inv_Done E0. injection E0 as <-.
    destruct (addCount_keys _ _ _ _ E1) as (nd' & En' & Hk).
    assert (nd' = nd) as -> by congruence.
    rewrite (load_Some _ _ _ En) in E. simpl in E. rewrite EN in E.
    by exists nd, a0. }
  induction c as [|m c IH]; intros n p l0 fuel l' Hl E v;
    (destruct fuel as [|k]; [done|]);
    destruct (Hstep _ _ _ _ _ _ Hl E) as (nd & l1 & En & EN & Hk & E');
    simpl in E'.
  - injection E' as <-. rewrite Hk. split.
    + intros [->|?]; [right|by left]. exists n. split; [by left|by exists nd].
    + intros [?|(x & ->%list_elem_of_singleton & Hx)]; [by right|left].
      eapply has_value_fun; [exact Hx|by exists nd].
  - destruct Hl as (_ & _ & _ & _ & Hl).
    rewrite (IH m (Some n) l1 k l' Hl E' v), Hk. split.
    + intros [[->|?]|(x & Hx & Hv)].
      * right. exists n. split; [by left|by exists nd].
      * by left.
      * right. exists x. split; [by right|done].
    + intros [?|(x & [->|Hx]%elem_of_cons & Hv)].
      * left. by right.
      * left. left. eapply has_value_fun; [exact Hv|by exists nd].
      * right. by exists x.
Qed.

(** X21: [FixCounts], on a list that matches a chain that is not empty,
    rebuilds the map from an empty one: afterwards [nodes] has a key for a
    value exactly when a node of the chain holds it, so the buckets that
    deletions left empty are gone. *)
Theorem FixCounts_drops_empty_buckets h l c :
  matches_chain h l c → c ≠ [] →
  ∃ l', FixCounts h l = Done l' ∧
        ∀ v, is_Some (nodes l' !! v) ↔ ∃ x, x ∈ c ∧ has_value h x v.
Proof.
  intros (ND & Hl & Eh & _) Hc.
  destruct (FixCounts_rebuilds h l c ND Hl Eh) as (l' & E & _).
  exists l'. split; [done|]. intros v.
  destruct c as [|n c]; [done|]. unfold FixCounts in E. rewrite Eh in E.
  simpl in E. unfold lnode_VisitByNext in E.
  rewrite (visit_addCount_keys h c n None _ _ l' Hl E v).
  cbn [nodes with_nodes]. rewrite lookup_empty. split; [|by right].
  intros [[? ?]|?]; done.
Qed.

End callers_facts.

(** ** The demo program *)

Section demo_facts.
Variable VisitByNext_nil : list string → outcome (list string).
Implicit Types (h : mem string) (l : LList string).

Lemma visit_print h (c : list ref) : ∀ n p (vs : list string) out fuel,
  linked h p (n :: c) → length (n :: c) ≤ fuel →
  Forall2 (has_value h) (n :: c) vs →
  visit_next fuel h n
    (λ node o, do nd <- load h node; Done (o ++ [Value nd +:+ " "]%string, true))
    out = Done (out ++ ((λ v, v +:+ " ")%string <$> vs)).
Proof.
  induction c as [|m c IH]; intros n p vs out fuel Hl Hf Hvs;
    (destruct fuel as [|k]; [simpl in Hf; lia|]);
    destruct Hl as (nd & En & _ & EN & Hl);
    apply Forall2_cons_inv_l in Hvs as (v & vs' & Hv & Hvs & ->);
    destruct Hv as (nd' & En' & <-); assert (nd' = nd) as -> by congruence;
    cbn [visit_next]; rewrite (load_Some _ _ _ En); simpl; rewrite EN; simpl.
  - apply Forall2_nil_inv_l in Hvs as ->. done.
  - simpl in Hf. rewrite (IH m (Some n) vs' _ k Hl); [|simpl; lia|done].
    by rewrite <- app_assoc.
Qed.

Lemma foldl_snoc_map {A B} (f : A → B) (xs : list A) (acc : list B) :
  foldl (λ o x, o ++ [f x]) acc xs = acc ++ (f <$> xs).
Proof.
  revert acc. induction xs as [|x xs IH]; intros acc; simpl.
  - by rewrite app_nil_r.
  - rewrite IH. by rewrite <- app_assoc.
Qed.

(** X22: [print] of the demo, on a list that matches a chain that is not
    empty: it completes and writes the title, the values of the nodes in
    chain order, each followed by a blank, and for every word of [words]
    the line that tells how many nodes of the chain hold it. *)
Theorem print_shows_chain_and_counts h l c (vs : list string) title :
  matches_chain h l c → c ≠ [] → Forall2 (has_value h) c vs →
  print VisitByNext_nil h l title = Done (printed title vs).
Proof.
  intros Hm Hc Hvs. pose proof Hm as (ND & Hl & Eh & _).
  destruct c as [|n c]; [done|]. unfold print, printed. rewrite Eh. simpl hd_error.
  cbv beta iota. unfold lnode_VisitByNext.
  rewrite (visit_print h c n None vs _ _ Hl); [|simpl|done].
  - cbn [obind]. f_equal. rewrite foldl_snoc_map, <- !app_assoc.
    do 3 f_equal. apply list_fmap_ext. intros i w _. f_equal.
    by apply (FindNodes_length_chain h l (n :: c)).
  - pose proof (linked_length _ _ _ ND Hl). simpl in *. lia.
Qed.

End demo_facts.

(** ** Buckets as slices: what is shared and what is not *)

Section go_slices_facts.
Context {V : Type} `{Countable V}.
Variable grow : nat → nat.
Implicit Types (A : arrays) (s b : slice) (ix : SIndex V) (x : option ref).

Lemma array_at_write A a i x a' :
  array_at (alter (λ l, <[i := x]> l) a A) a' =
  if decide (a = a') then <[i := x]> (array_at A a') else array_at A a'.
Proof.
  unfold array_at. rewrite lookup_alter.
  destruct (decide (a = a')) as [<-|]; [|done]. by destruct (A !! a).
Qed.

Lemma array_at_alloc A a l a' :
  array_at (<[a := l]> A) a' = if decide (a = a') then l else array_at A a'.
Proof.
  unfold array_at. rewrite lookup_insert. by destruct (decide (a = a')).
Qed.

Lemma array_at_fresh A a : a ∉ dom A → array_at A a = [].
Proof. intros Ha%not_elem_of_dom. unfold array_at. by rewrite Ha. Qed.

(** A write at or beyond the length of a header is not seen through it. *)
Lemma slice_elems_write_beyond A a i x s :
  (s_arr s = a → s_len s ≤ i) →
  slice_elems (alter (λ l, <[i := x]> l) a A) s = slice_elems A s.
Proof.
  intros Hi. unfold slice_elems. rewrite array_at_write.
  destruct (decide (a = s_arr s)) as [Ea|]; [|done].
  rewrite take_insert. rewrite decide_False; [done|]. symmetry in Ea.
  specialize (Hi Ea). lia.
Qed.

(** A write below the length of a header is seen through every header of
    that array that is long enough: this is the aliasing of Go slices. *)
Lemma slice_elems_write_within A i x s :
  i < s_len s →
  slice_elems (alter (λ l, <[i := x]> l) (s_arr s) A) s = <[i := x]> (slice_elems A s).
Proof.
  intros Hi. unfold slice_elems. rewrite array_at_write.
  rewrite decide_True by done. by apply take_insert_lt.
Qed.

Lemma fresh_loc A :
  let a := fresh ({[zerobase]} ∪ dom A) in (a ∉ dom A) ∧ a ≠ zerobase.
Proof.
  intros a. pose proof (is_fresh ({[zerobase]} ∪ dom A)) as Hf.
  fold a in Hf. rewrite elem_of_union, elem_of_singleton in Hf. tauto.
Qed.

(** [append] does not change what a guarded header shows. *)
Lemma go_append_stable A b x s A' b' :
  go_append grow A b x = (A', b') →
  (s_len s = 0 ∨ s_arr s ∈ dom A) → guarded b s →
  slice_elems A' s = slice_elems A s ∧ guarded b' s ∧
  (s_len s = 0 ∨ s_arr s ∈ dom A').
Proof.
  unfold go_append. intros E Hs Hg. case_decide as Hlt; injection E as <- <-.
  - split; [|split].
    + apply slice_elems_write_beyond. intros Ea. symmetry in Ea. by apply Hg.
    + intros Ea Hlt'. simpl in *. specialize (Hg Ea Hlt). lia.
    + by rewrite dom_alter_L.
  - destruct (fresh_loc A) as [Hf _]. set (a' := fresh _) in *.
    assert (s_arr s = a' → s_len s = 0) as Hz.
    { intros Ea. destruct Hs as [?|Hd]; [done|]. by rewrite Ea in Hd. }
    split; [|split].
    + unfold slice_elems. rewrite array_at_alloc.
      destruct (decide (a' = s_arr s)) as [Ea|]; [|done].
      symmetry in Ea. by rewrite (Hz Ea).
    + intros Ea _. simpl in *. symmetry in Ea. rewrite (Hz Ea). lia.
    + destruct Hs as [?|Hd]; [by left|right].
      rewrite dom_insert_L. apply elem_of_union. by right.
Qed.

Lemma guarded_empty_slice s : guarded empty_slice s.
Proof. intros _ Hlt. simpl in Hlt. lia. Qed.

Lemma subCount_s_body_stable n nds s acc j A' b' :
  subCount_s_body grow n nds acc j = (A', b') →
  (s_len s = 0 ∨ s_arr s ∈ dom acc.1) → guarded acc.2 s →
  slice_elems A' s = slice_elems acc.1 s ∧ guarded b' s ∧
  (s_len s = 0 ∨ s_arr s ∈ dom A').
Proof.
  unfold subCount_s_body. intros E Hs Hg. case_decide.
  - by subst acc.
  - by eapply go_append_stable.
Qed.

Lemma subCount_s_loop_stable n nds s : ∀ (js : list nat) (acc : arrays * slice),
  (s_len s = 0 ∨ s_arr s ∈ dom acc.1) → guarded acc.2 s →
  let r := foldl (subCount_s_body grow n nds) acc js in
  slice_elems r.1 s = slice_elems acc.1 s ∧ guarded r.2 s ∧
  (s_len s = 0 ∨ s_arr s ∈ dom r.1).
Proof.
  induction js as [|j js IH]; intros acc Hs Hg; [done|]. cbn [foldl].
  destruct (subCount_s_body grow n nds acc j) as [A' b'] eqn:E.
  destruct (subCount_s_body_stable _ _ s _ _ _ _ E Hs Hg) as (E1 & Hg' & Hs').
  destruct (IH (A', b') Hs' Hg') as (E2 & ? & ?).
  split; [|done]. etrans; [exact E2 | exact E1].
Qed.

(** One list operation leaves a stable view stable and its elements as they
    are. *)
Lemma index_step_stable ix ix' s :
  index_step grow ix ix' → stable_view ix s →
  stable_view ix' s ∧ slice_elems (s_arrays ix') s = slice_elems (s_arrays ix) s.
Proof.
  intros Hstep [Hs Hg]. destruct Hstep as [h ix n ix' E|h ix n ix' E|ix].
  - unfold addCount_s in E. inv_Done E. rename a into nd.
    set (m1 := match s_nodes ix !! Value nd with
               | Some _ => s_nodes ix
               | None => <[Value nd := empty_slice]> (s_nodes ix)
               end) in *.
    assert (∀ v b, m1 !! v = Some b → guarded b s) as Hm1.
    { intros v b. subst m1. destruct (s_nodes ix !! Value nd); [apply Hg|].
      rewrite lookup_insert. case_decide; [|apply Hg].
      intros [= <-]. apply guarded_empty_slice. }
    assert (guarded (default empty_slice (m1 !! Value nd)) s) as Hb.
    { destruct (m1 !! Value nd) as [b|] eqn:Eb; simpl;
        [by eapply Hm1 | apply guarded_empty_slice]. }
    destruct (go_append grow (s_arrays ix) _ (Some n)) as [A' b'] eqn:Ea.
    injection E as <-. simpl.
    destruct (go_append_stable _ _ _ s _ _ Ea Hs Hb) as (E1 & Hg' & Hs').
    split; [|done]. split; [done|]. simpl. intros v b.
    rewrite lookup_insert. case_decide; [by intros [= <-] | apply Hm1].
  - unfold subCount_s in E. inv_Done E. rename a into nd.
    destruct (s_nodes ix !! Value nd) as [nds|] eqn:En.
    + destruct (subCount_s_loop grow n nds (s_arrays ix)) as [A' newNds] eqn:El.
      injection E as <-. simpl.
      destruct (subCount_s_loop_stable n nds s (seq 0 (s_len nds))
                  (s_arrays ix, empty_slice) Hs (guarded_empty_slice s))
        as (E1 & Hg' & Hs').
      unfold subCount_s_loop in El. rewrite El in E1, Hg', Hs'. simpl in *.
      split; [|done]. split; [done|]. simpl. intros v b.
      rewrite lookup_insert. case_decide; [by intros [= <-] | apply Hg].
    + injection E as <-. done.
  - simpl. split; [|done]. split; [done|]. simpl. intros v b.
    by rewrite lookup_empty.
Qed.

Lemma index_steps_stable ix ix' s :
  rtc (index_step grow) ix ix' → stable_view ix s →
  stable_view ix' s ∧ slice_elems (s_arrays ix') s = slice_elems (s_arrays ix) s.
Proof.
  induction 1 as [ix|ix ix1 ix' Hstep _ IH]; intros Hv; [done|].
  destruct (index_step_stable _ _ _ Hstep Hv) as [Hv1 E1].
  destruct (IH Hv1) as [Hv' E']. split; [done|]. by rewrite E'.
Qed.

(** *** The buckets stay apart *)

Hypothesis grow_gt : ∀ c, c < grow c.

Lemma slice_ok_empty A : slice_ok A empty_slice.
Proof. unfold slice_ok. simpl. lia. Qed.

Lemma slice_ok_fresh A c : slice_ok A c → s_arr c ∉ dom A → s_cap c = 0.
Proof.
  intros [_ Hc] Hf. rewrite (array_at_fresh _ _ Hf) in Hc. simpl in Hc. lia.
Qed.

Lemma go_append_ok A b x A' b' X :
  go_append grow A b x = (A', b') → slice_ok A b → away b X → X ⊆ dom A →
  slice_ok A' b' ∧ (∀ c, slice_ok A c → slice_ok A' c) ∧ dom A ⊆ dom A' ∧
  away b' X ∧
  ((s_arr b' = s_arr b ∧ s_cap b' = s_cap b ∧ 0 < s_cap b) ∨ s_arr b' ∉ dom A).
Proof.
  unfold go_append. intros E [Hlc Hca] Haw HX.
  case_decide as Hlt; injection E as <- <-.
  - assert (∀ a, length (array_at (alter (λ l, <[s_len b := x]> l) (s_arr b) A) a)
                 = length (array_at A a)) as Hlen.
    { intros a. rewrite array_at_write. case_decide; [|done].
      by rewrite length_insert. }
    split; [|split; [|split; [|split]]].
    + unfold slice_ok. simpl. rewrite Hlen. lia.
    + intros c [? ?]. unfold slice_ok. rewrite Hlen. lia.
    + by rewrite dom_alter_L.
    + destruct Haw as [?|?]; [lia|]. by right.
    + left. simpl. repeat split. lia.
  - destruct (fresh_loc A) as [Hf _]. set (a' := fresh _) in *.
    split; [|split; [|split; [|split]]].
    + unfold slice_ok. simpl. rewrite array_at_alloc, decide_True by done.
      pose proof (grow_gt (s_cap b)).
      rewrite length_app. simpl. rewrite length_replicate.
      unfold slice_elems. rewrite length_take. lia.
    + intros c Hc. unfold slice_ok. rewrite array_at_alloc.
      case_decide as Ea; [|done].
      assert (s_arr c ∉ dom A) as Hfc by (by rewrite <- Ea).
      pose proof (slice_ok_fresh _ _ Hc Hfc). destruct Hc. lia.
    + rewrite dom_insert_L. apply union_subseteq_r.
    + right. simpl. intros Hin. apply Hf. by apply HX.
    + by right.
Qed.

Lemma subCount_s_loop_ok n nds X : ∀ (js : list nat) (acc : arrays * slice),
  slice_ok acc.1 acc.2 → away acc.2 X → X ⊆ dom acc.1 →
  let r := foldl (subCount_s_body grow n nds) acc js in
  slice_ok r.1 r.2 ∧ away r.2 X ∧ X ⊆ dom r.1 ∧
  (∀ c, slice_ok acc.1 c → slice_ok r.1 c).
Proof.
  induction js as [|j js IH]; intros acc Hok Haw HX; [done|]. cbn [foldl].
  destruct (subCount_s_body grow n nds acc j) as [A' b'] eqn:E.
  assert (slice_ok A' b' ∧ away b' X ∧ X ⊆ dom A' ∧
          (∀ c, slice_ok acc.1 c → slice_ok A' c)) as (Hok' & Haw' & HX' & Hc').
  { unfold subCount_s_body in E. case_decide.
    - by subst acc.
    - destruct (go_append_ok _ _ _ _ _ X E Hok Haw HX) as (? & ? & ? & ? & _).
      split; [done|]. split; [done|]. split; [by etrans|done]. }
  destruct (IH (A', b') Hok' Haw' HX') as (? & ? & ? & Hc).
  split; [done|]. split; [done|]. split; [done|].
  intros c Hcc. apply Hc. by apply Hc'.
Qed.

(** Replacing one bucket of a well-formed index. *)
Lemma index_wf_insert (m : gmap V slice) A A' v b' :
  index_wf (mkSIndex m A) →
  slice_ok A' b' → (∀ c, slice_ok A c → slice_ok A' c) →
  (∀ v' c, v' ≠ v → m !! v' = Some c → s_arr c = s_arr b' →
           s_cap c = 0 ∨ s_cap b' = 0) →
  index_wf (mkSIndex (<[v := b']> m) A').
Proof.
  intros [Hok Hd] Hb Hc Hn. split; simpl in *.
  - intros v1 c. rewrite lookup_insert. case_decide; [by intros [= <-]|].
    intros E. apply Hc. by eapply Hok.
  - intros v1 v2 c1 c2 Hne. rewrite !lookup_insert.
    repeat case_decide; try congruence.
    + intros [= <-] E2 Ea. destruct (Hn v2 c2) as [?|?]; auto.
    + intros E1 [= <-] Ea. apply (Hn v1 c1); auto.
    + by apply Hd.
Qed.

Lemma index_wf_empty : index_wf (empty_index (V := V)).
Proof. split; simpl; intros *; by rewrite ?lookup_empty. Qed.

Lemma index_step_wf ix ix' : index_step grow ix ix' → index_wf ix → index_wf ix'.
Proof.
  intros Hstep Hwf. destruct Hstep as [h ix n ix' E|h ix n ix' E|ix].
  - unfold addCount_s in E. inv_Done E. rename a into nd.
    set (m1 := match s_nodes ix !! Value nd with
               | Some _ => s_nodes ix
               | None => <[Value nd := empty_slice]> (s_nodes ix)
               end) in *.
    assert (index_wf (mkSIndex m1 (s_arrays ix))) as Hwf1.
    { subst m1. destruct ix as [m A]. simpl in *.
      destruct (m !! Value nd) eqn:En; [done|].
      apply (index_wf_insert m A A); auto using slice_ok_empty. }
    set (b := default empty_slice (m1 !! Value nd)) in *.
    assert (slice_ok (s_arrays ix) b) as Hb.
    { subst b. destruct (m1 !! Value nd) as [c|] eqn:Ec; simpl;
        [|apply slice_ok_empty]. by apply (proj1 Hwf1 _ _ Ec). }
    destruct (go_append grow (s_arrays ix) b (Some n)) as [A' b'] eqn:Ea.
    injection E as <-.
    destruct (go_append_ok _ _ _ _ _ ∅ Ea Hb) as (Hb' & Hc & _ & _ & Hcase).
    { right. apply not_elem_of_empty. }
    { apply empty_subseteq. }
    apply (index_wf_insert m1 (s_arrays ix)); [done..|].
    intros v' c Hne Ec Earr. destruct Hcase as [(Ea1 & Ea2 & Hpos)|Hfresh].
    + destruct (m1 !! Value nd) as [c0|] eqn:Ec0; subst b; simpl in *; [|lia].
      rewrite Ea2. apply (proj2 Hwf1 v' (Value nd) c c0); [done..|]. congruence.
    + left. apply (slice_ok_fresh (s_arrays ix)); [|congruence].
      by apply (proj1 Hwf1 _ _ Ec).
  - unfold subCount_s in E. inv_Done E. rename a into nd.
    destruct (s_nodes ix !! Value nd) as [nds|] eqn:En; [|by injection E as <-].
    destruct (subCount_s_loop grow n nds (s_arrays ix)) as [A' newNds] eqn:El.
    injection E as <-.
    destruct (subCount_s_loop_ok n nds (dom (s_arrays ix)) (seq 0 (s_len nds))
                (s_arrays ix, empty_slice)) as (Hb' & Haw & _ & Hc).
    { apply slice_ok_empty. }
    { by left. }
    { done. }
    unfold subCount_s_loop in El. rewrite El in Hb', Haw, Hc. simpl in *.
    destruct ix as [m A]. simpl in *.
    apply (index_wf_insert m A); [done..|].
    intros v' c Hne Ec Earr. destruct Haw as [?|Hfresh]; [by right|].
    left. apply (slice_ok_fresh A); [|congruence]. by apply (proj1 Hwf _ _ Ec).
  - split; simpl; intros *; by rewrite ?lookup_empty.
Qed.

Lemma index_steps_wf ix : rtc (index_step grow) empty_index ix → index_wf ix.
Proof.
  revert ix. apply (rtc_ind_r (λ ix, index_wf ix)).
  - apply index_wf_empty.
  - intros ix1 ix2 _ Hstep IH. by eapply index_step_wf.
Qed.

(** A bucket of a well-formed index is a stable view of it. *)
Lemma bucket_stable_view ix v s :
  index_wf ix → FindNodes_s ix v = Some s → stable_view ix s.
Proof.
  intros [Hok Hd] Es. unfold FindNodes_s in Es.
  pose proof (Hok _ _ Es) as Hs. split.
  - destruct (decide (s_arr s ∈ dom (s_arrays ix))) as [?|Hf]; [by right|].
    left. pose proof (slice_ok_fresh _ _ Hs Hf). destruct Hs. lia.
  - intros v' b Eb Ea Hlt. destruct (decide (v' = v)) as [->|Hne].
    + assert (b = s) as -> by congruence. done.
    + destruct (Hd v' v b s Hne Eb Es Ea) as [?|?]; [lia|].
      destruct Hs. lia.
Qed.

(** *** The list model follows the slices *)

Lemma go_append_elems A b x A' b' :
  go_append grow A b x = (A', b') → slice_ok A b →
  slice_elems A' b' = slice_elems A b ++ [x].
Proof.
  unfold go_append. intros E [Hlc Hca]. case_decide as Hlt; injection E as <- <-.
  - unfold slice_elems. simpl. rewrite array_at_write, decide_True by done.
    rewrite (take_S_r _ _ x) by (apply list_lookup_insert_eq; lia).
    rewrite take_insert. rewrite decide_False by lia. done.
  - unfold slice_elems at 1. simpl. rewrite array_at_alloc, decide_True by done.
    rewrite (cons_middle x), app_assoc. apply take_app_length'.
    rewrite length_app. simpl. unfold slice_elems. rewrite length_take. lia.
Qed.

Lemma filter_fmap_Some n (b : list ref) :
  filter (λ y, y ≠ Some n) (Some <$> b) = Some <$> filter (λ y, y ≠ n) b.
Proof.
  induction b as [|y b IH]; [done|]. rewrite fmap_cons.
  destruct (decide (y = n)) as [->|Hne].
  - rewrite !filter_cons_False by (by intros ?). done.
  - rewrite !filter_cons_True by congruence. by rewrite fmap_cons, IH.
Qed.

Lemma reads_seq (l : list (option ref)) :
  (λ j, default None (l !! j)) <$> seq 0 (length l) = l.
Proof.
  induction l as [|y l IH] using rev_ind; [done|].
  rewrite length_app. simpl. rewrite Nat.add_1_r, seq_S, fmap_app. simpl.
  rewrite lookup_app_r, Nat.sub_diag by done. simpl. f_equal.
  rewrite <- IH at 2. apply list_fmap_ext. intros i j Hj.
  apply lookup_seq in Hj as [-> Hj]. simpl. by rewrite lookup_app_l.
Qed.

(** The loop of [subCount] copies, in order, the elements of the bucket
    that differ from [n]. *)
Lemma subCount_s_loop_elems n nds A0 : ∀ (js : list nat) (acc : arrays * slice),
  (∀ j, j ∈ js → j < s_len nds) →
  slice_elems acc.1 nds = slice_elems A0 nds →
  (s_len nds = 0 ∨ s_arr nds ∈ dom acc.1) → guarded acc.2 nds →
  slice_ok acc.1 acc.2 →
  let r := foldl (subCount_s_body grow n nds) acc js in
  slice_elems r.1 r.2 =
  slice_elems acc.1 acc.2 ++
  filter (λ y, y ≠ Some n)
         ((λ j, default None (slice_elems A0 nds !! j)) <$> js).
Proof.
  induction js as [|j js IH]; intros acc Hjs E0 Hs Hg Hok; cbn [foldl].
  { simpl. by rewrite app_nil_r. }
  assert (default None (array_at acc.1 (s_arr nds) !! j) =
          default None (slice_elems A0 nds !! j)) as Eread.
  { rewrite <- E0. unfold slice_elems. rewrite lookup_take.
    rewrite decide_True; [done|]. apply Hjs. by left. }
  destruct (subCount_s_body grow n nds acc j) as [A' b'] eqn:E.
  destruct (subCount_s_body_stable _ _ nds _ _ _ _ E Hs Hg) as (E1 & Hg' & Hs').
  assert (∀ j, j ∈ js → j < s_len nds) as Hjs'
    by (intros j' Hj'; apply Hjs; by right).
  rewrite fmap_cons. unfold subCount_s_body in E. rewrite Eread in E.
  case_decide as Hn.
  - subst acc. rewrite filter_cons_False by (by intros ?).
    by apply IH.
  - destruct (go_append_ok _ _ _ _ _ ∅ E Hok) as (Hok' & _).
    { right. apply not_elem_of_empty. }
    { apply empty_subseteq. }
    rewrite filter_cons_True by done.
    rewrite (IH (A', b')); try done.
    + simpl. rewrite (go_append_elems _ _ _ _ _ E Hok).
      by rewrite <- app_assoc.
    + simpl. by rewrite E1.
Qed.

Lemma bucket_contents_stable ix ix' v :
  index_wf ix → index_step grow ix ix' →
  s_nodes ix' !! v = s_nodes ix !! v →
  bucket_contents ix' v = bucket_contents ix v.
Proof.
  intros Hwf Hstep En. unfold bucket_contents, FindNodes_s. rewrite En.
  destruct (s_nodes ix !! v) as [c|] eqn:Ec; [|done].
  eapply index_step_stable; [exact Hstep|]. by eapply bucket_stable_view.
Qed.

(** [addCount] over slices appends the node to the elements of the bucket
    of its value and leaves the elements of the other buckets. *)
Lemma addCount_s_elems h ix n nd :
  index_wf ix → h !! n = Some nd →
  ∃ ix', addCount_s grow h ix n = Done ix' ∧
         ∀ v, bucket_contents ix' v =
              if decide (Value nd = v) then bucket_contents ix v ++ [Some n]
              else bucket_contents ix v.
Proof.
  intros Hwf E.
  assert (∃ ix', addCount_s grow h ix n = Done ix') as [ix' Eadd].
  { unfold addCount_s. rewrite (load_Some _ _ _ E). simpl.
    destruct (go_append _ _ _ _). eauto. }
  exists ix'. split; [done|]. intros v.
  pose proof (step_addCount grow h ix n ix' Eadd) as Hstep.
  unfold addCount_s in Eadd. rewrite (load_Some _ _ _ E) in Eadd. simpl in Eadd.
  set (m1 := match s_nodes ix !! Value nd with
             | Some _ => s_nodes ix
             | None => <[Value nd := empty_slice]> (s_nodes ix)
             end) in *.
  destruct (go_append grow (s_arrays ix) _ (Some n)) as [A' b'] eqn:Ea.
  injection Eadd as <-.
  destruct (decide (Value nd = v)) as [<-|Hne].
  - unfold bucket_contents at 1, FindNodes_s. simpl. rewrite lookup_insert_eq.
    rewrite (go_append_elems _ _ _ _ _ Ea).
    + f_equal. unfold bucket_contents, FindNodes_s. subst m1.
      destruct (s_nodes ix !! Value nd) as [c|] eqn:Ec.
      * by rewrite Ec.
      * by rewrite lookup_insert_eq.
    + subst m1. destruct (s_nodes ix !! Value nd) as [c|] eqn:Ec.
      * rewrite Ec. simpl. by apply (proj1 Hwf _ _ Ec).
      * rewrite lookup_insert_eq. apply slice_ok_empty.
  - apply bucket_contents_stable; [done..|]. simpl.
    rewrite lookup_insert_ne by done. subst m1.
    destruct (s_nodes ix !! Value nd); [done|]. by rewrite lookup_insert_ne.
Qed.

(** [subCount] over slices keeps of the bucket the elements that differ
    from the node and leaves the elements of the other buckets. *)
Lemma subCount_s_elems h ix n nd :
  index_wf ix → h !! n = Some nd →
  ∃ ix', subCount_s grow h ix n = Done ix' ∧
         ∀ v, bucket_contents ix' v =
              if decide (Value nd = v)
              then filter (λ y, y ≠ Some n) (bucket_contents ix v)
              else bucket_contents ix v.
Proof.
  intros Hwf E.
  assert (∃ ix', subCount_s grow h ix n = Done ix') as [ix' Esub].
  { unfold subCount_s. rewrite (load_Some _ _ _ E). simpl.
    destruct (s_nodes ix !! Value nd); [|by eauto].
    destruct (subCount_s_loop _ _ _ _). eauto. }
  exists ix'. split; [done|]. intros v.
  pose proof (step_subCount grow h ix n ix' Esub) as Hstep.
  unfold subCount_s in Esub. rewrite (load_Some _ _ _ E) in Esub. simpl in Esub.
  destruct (s_nodes ix !! Value nd) as [nds|] eqn:En.
  - destruct (subCount_s_loop grow n nds (s_arrays ix)) as [A' newNds] eqn:El.
    injection Esub as <-.
    destruct (decide (Value nd = v)) as [<-|Hne].
    + unfold bucket_contents, FindNodes_s. simpl. rewrite lookup_insert_eq, En.
      pose proof (proj1 Hwf _ _ En) as [Hlc Hca].
      destruct (bucket_stable_view ix (Value nd) nds Hwf En) as [Hs Hg].
      pose proof (subCount_s_loop_elems n nds (s_arrays ix) (seq 0 (s_len nds))
                    (s_arrays ix, empty_slice)) as Hloop.
      unfold subCount_s_loop in El. rewrite El in Hloop. simpl in Hloop.
      rewrite Hloop.
      * assert (s_len nds = length (slice_elems (s_arrays ix) nds)) as Elen
          by (unfold slice_elems; rewrite length_take; lia).
        rewrite Elen at 1. by rewrite reads_seq.
      * intros j Hj. apply elem_of_seq in Hj. lia.
      * done.
      * done.
      * apply guarded_empty_slice.
      * apply slice_ok_empty.
    + apply bucket_contents_stable; [done..|]. simpl.
      by rewrite lookup_insert_ne.
  - injection Esub as <-. destruct (decide (Value nd = v)) as [<-|]; [|done].
    unfold bucket_contents, FindNodes_s. by rewrite En.
Qed.

(** The list model simulates the slices: from related states, [addCount]
    and [subCount] of the list model and of the slices end in related
    states. *)
Theorem addCount_refines h ix l n l' :
  index_wf ix → index_rel ix l → addCount h l n = Done l' →
  ∃ ix', addCount_s grow h ix n = Done ix' ∧ index_wf ix' ∧ index_rel ix' l'.
Proof.
  intros Hwf Hrel E. destruct (addCount_inv _ _ _ _ E) as (nd & End & _ & _ & HF).
  destruct (addCount_s_elems h ix n nd Hwf End) as (ix' & E' & HB).
  exists ix'. split; [done|]. split.
  - eapply index_step_wf; [|done]. by eapply step_addCount.
  - intros v. rewrite HB, HF, Hrel. case_decide; [|done]. by rewrite fmap_app.
Qed.

Theorem subCount_refines h ix l n l' :
  index_wf ix → index_rel ix l → subCount h l n = Done l' →
  ∃ ix', subCount_s grow h ix n = Done ix' ∧ index_wf ix' ∧ index_rel ix' l'.
Proof.
  intros Hwf Hrel E. destruct (subCount_inv _ _ _ _ E) as (nd & End & _ & _ & HF).
  destruct (subCount_s_elems h ix n nd Hwf End) as (ix' & E' & HB).
  exists ix'. split; [done|]. split.
  - eapply index_step_wf; [|done]. by eapply step_subCount.
  - intros v. rewrite HB, HF, Hrel. case_decide; [|done].
    apply filter_fmap_Some.
Qed.

(** C6, amended: [FindNodes] returns the header of the bucket itself.  What
    the caller stores into the sequence it received is stored into the
    bucket: it is what [FindNodes] shows from then on.  The list operations,
    on their side, never change the elements of a sequence that [FindNodes]
    has returned. *)
Theorem FindNodes_shares_storage ix v s :
  rtc (index_step grow) empty_index ix → FindNodes_s ix v = Some s →
  s_nodes ix !! v = Some s ∧
  (∀ i x A', slice_set (s_arrays ix) s i x = Done A' →
     bucket_contents (mkSIndex (s_nodes ix) A') v = <[i := x]> (bucket_contents ix v)) ∧
  (∀ ix', rtc (index_step grow) ix ix' →
     slice_elems (s_arrays ix') s = slice_elems (s_arrays ix) s).
Proof.
  intros Hr Es. split; [exact Es|]. split.
  - intros i x A'. unfold slice_set. case_decide as Hi; [|done].
    intros [= <-]. unfold bucket_contents, FindNodes_s in *. simpl. rewrite Es.
    by apply slice_elems_write_within.
  - intros ix' Hr'. eapply index_steps_stable; [exact Hr'|].
    eapply bucket_stable_view; [|exact Es]. by apply index_steps_wf.
Qed.

End go_slices_facts.

(** *** Buckets as sequences, and the end of sharing *)

Section go_slices_more.
Context {V : Type} `{Countable V}.
Variable grow : nat → nat.
Hypothesis grow_gt : ∀ c, c < grow c.
Implicit Types (A : arrays) (s b : slice) (ix : SIndex V) (x : option ref).

(** X23: [addCount] and [subCount] over slices, on any index that list
    operations can produce from the empty one and for any growth of
    [append]'s arrays: both complete; [addCount] appends the node to the
    elements of the bucket of its value, [subCount] removes the node from
    them and keeps the order of the others; the elements of every other
    bucket are unchanged, although [append] may write in place. *)
Theorem reachable_index_acts_on_sequences (h : mem V) ix n nd :
  rtc (index_step grow) empty_index ix → h !! n = Some nd →
  (∃ ix', addCount_s grow h ix n = Done ix' ∧
          ∀ v, bucket_contents ix' v =
               if decide (Value nd = v) then bucket_contents ix v ++ [Some n]
               else bucket_contents ix v) ∧
  (∃ ix', subCount_s grow h ix n = Done ix' ∧
          ∀ v, bucket_contents ix' v =
               if decide (Value nd = v)
               then filter (λ y, y ≠ Some n) (bucket_contents ix v)
               else bucket_contents ix v).
Proof.
  intros Hr En. pose proof (index_steps_wf grow grow_gt ix Hr) as Hwf. split.
  - by apply addCount_s_elems.
  - by apply subCount_s_elems.
Qed.

(** X24: the sharing of C6 ends at the next deregistration.  [subCount]
    copies the nodes it keeps into a slice of its own: once a node of
    value [v] is deregistered ([Delete], [SetValue]), a store through a
    sequence that [FindNodes(v)] had returned before is no longer seen in
    the bucket of [v]. *)
Theorem subCount_s_ends_sharing (h : mem V) ix n nd s :
  rtc (index_step grow) empty_index ix → h !! n = Some nd →
  FindNodes_s ix (Value nd) = Some s →
  ∃ ix', subCount_s grow h ix n = Done ix' ∧
         ∀ i x A', slice_set (s_arrays ix') s i x = Done A' →
           bucket_contents (mkSIndex (s_nodes ix') A') (Value nd) =
           bucket_contents ix' (Value nd).
Proof.
  intros Hr En Es. pose proof (index_steps_wf grow grow_gt ix Hr) as Hwf.
  unfold FindNodes_s in Es. unfold subCount_s. rewrite (load_Some _ _ _ En).
  cbn [obind]. rewrite Es.
  destruct (subCount_s_loop grow n s (s_arrays ix)) as [A1 newNds] eqn:El.
  eexists. split; [done|]. intros i x A'. unfold slice_set.
  case_decide as Hi; [|done]. intros [= <-].
  destruct (subCount_s_loop_ok grow grow_gt n s (dom (s_arrays ix)) (seq 0 (s_len s))
              (s_arrays ix, empty_slice)) as (Hok & Haw & _ & _).
  { apply slice_ok_empty. }
  { by left. }
  { done. }
  unfold subCount_s_loop in El. rewrite El in Hok, Haw. simpl in Hok, Haw.
  unfold bucket_contents, FindNodes_s. cbn [s_nodes s_arrays].
  rewrite lookup_insert_eq. apply slice_elems_write_beyond. intros Ea.
  destruct Haw as [Hz|Hf].
  - destruct Hok. lia.
  - exfalso. apply Hf. rewrite Ea.
    destruct (decide (s_arr s ∈ dom (s_arrays ix))) as [?|Hn]; [done|].
    pose proof (proj1 Hwf _ _ Es) as Hs.
    pose proof (slice_ok_fresh _ _ Hs Hn). destruct Hs. lia.
Qed.

End go_slices_more.

(** ** The example list *)

Local Open Scope string_scope.
Local Open Scope positive_scope.

(** The states the two runs reach. *)
Example ex_state_eq :
  ex_state =
  ({[ 1 := mkNode "x" (Some 3) (Some 2);
      2 := mkNode "x" (Some 1) None;
      3 := mkNode "y" None (Some 1);
      4 := mkNode "x" None None ]},
   mkLList (Some 2) (Some 3) {[ "x" := [1; 2]; "y" := [3] ]}).
Proof. vm_compute. reflexivity. Qed.

Example ex_single_eq :
  ex_single = (ex_heap, mkLList (Some 1) (Some 1) {[ "x" := [1] ]}).
Proof. vm_compute. reflexivity. Qed.

(** The calls that build the example list respect the preconditions of the
    API, so the list matches its chain. *)
Lemma ex_ops_calls : chain_calls (ex_heap, New) [] ex_ops [2; 1; 3].
Proof.
  eapply calls_cons.
  { by apply (call_Append_empty _ None 1 (mkNode "x" None None)). }
  { vm_compute. reflexivity. }
  eapply calls_cons.
  { apply (call_Prepend _ [] 1 [] 2); [compute_done | by eexists]. }
  { vm_compute. reflexivity. }
  eapply calls_cons.
  { apply (call_Append _ [2] 1 [] 3); [compute_done | by eexists]. }
  { vm_compute. reflexivity. }
  apply calls_nil.
Qed.

Lemma ex_state_matches : matches_chain ex_h ex_l [2; 1; 3].
Proof.
  destruct (runs_keep_matching (ex_heap, New) [] ex_ops [2; 1; 3])
    as (st' & Erun & Hm); [apply New_matches | apply ex_ops_calls |].
  unfold ex_h, ex_l, ex_state. by rewrite Erun.
Qed.

Lemma ex_single_matches : matches_chain ex1_h ex1_l [1].
Proof.
  destruct (calls_keep_matching ex_heap New [] (OAppend None 1) [1])
    as (h' & l' & Estep & Hm).
  { apply New_matches. }
  { by apply (call_Append_empty _ None 1 (mkNode "x" None None)). }
  unfold ex1_h, ex1_l, ex_single. simpl in Estep. by rewrite Estep.
Qed.

(** *** Instances of the theorems *)

Lemma Delete_sole_node_keeps_tail_witness :
  matches_chain ex1_h ex1_l [1] ∧
  ∃ h' l', Delete ex1_h ex1_l 1 = Done (h', l') ∧
           Head l' = None ∧ Tail l' = Some 1.
Proof.
  split; [exact ex_single_matches|].
  exact (Delete_sole_node_keeps_tail ex1_h ex1_l 1 ex_single_matches).
Defined.

Lemma Append_Delete_on_New_stale_tail_witness :
  ∃ h' l', run [OAppend None 1; ODelete 1] (ex_heap, New) = Done (h', l') ∧
           members_after (V := string) ∅ [OAppend None 1; ODelete 1] = ∅ ∧
           Head l' = None ∧ Tail l' = Some 1.
Proof.
  apply (Append_Delete_on_New_stale_tail ex_heap None 1 (mkNode "x" None None));
    reflexivity.
Defined.

Lemma Append_Delete_empty_not_restored_witness :
  ∃ h1 l1 h2 l2,
    Append ex_heap New None 1 = Done (h1, l1) ∧ Delete h1 l1 1 = Done (h2, l2) ∧
    (∀ v, FindNodes l2 v = FindNodes New v) ∧
    Head l2 = Head (New (V := string)) ∧ Tail l2 = Some 1 ∧
    Tail l2 ≠ Tail (New (V := string)).
Proof.
  apply (Append_Delete_empty_not_restored ex_heap New None 1
           (mkNode "x" None None)); try reflexivity.
  vm_compute. by intros ?%elem_of_nil.
Defined.

Lemma FindNodes_exact_witness :
  trace_ok ∅ ex_ops = true ∧
  run ex_ops (ex_heap, New) = Done (ex_h, ex_l) ∧
  NoDup (FindNodes ex_l "x") ∧
  ∀ n, n ∈ FindNodes ex_l "x" ↔
       n ∈ members_after ∅ ex_ops ∧ has_value ex_h n "x".
Proof.
  assert (trace_ok ∅ ex_ops = true) as Hok by (vm_compute; reflexivity).
  assert (run ex_ops (ex_heap, New) = Done (ex_h, ex_l)) as Hrun
    by (vm_compute; reflexivity).
  split; [exact Hok|]. split; [exact Hrun|].
  exact (FindNodes_exact ex_ops ex_heap ex_h ex_l "x" Hok Hrun).
Defined.

Lemma Delete_unregistered_noop_witness :
  closed ex_h ∧ (4 ∉ FindNodes ex_l "x") ∧
  ∃ h' l', Delete ex_h ex_l 4 = Done (h', l') ∧
           nodes l' = nodes ex_l ∧
           (∀ v, FindNodes l' v = FindNodes ex_l v) ∧
           (Head ex_l ≠ Some 4 → Head l' = Head ex_l) ∧
           (Tail ex_l ≠ Some 4 → Tail l' = Tail ex_l).
Proof.
  assert (closed ex_h) as Hc
    by (apply closedb_closed; vm_compute; reflexivity).
  assert (4 ∉ FindNodes ex_l "x") as Hn by compute_done.
  split; [exact Hc|]. split; [exact Hn|].
  apply (Delete_unregistered_noop ex_h ex_l 4 (mkNode "x" None None));
    [exact Hc | reflexivity | exact Hn].
Defined.

Lemma SetValue_reindexes_witness :
  ∃ h' l', SetValue ex_h ex_l 1 "z" = Done (h', l') ∧
           1 ∈ FindNodes l' "z" ∧ last (FindNodes l' "z") = Some 1 ∧
           ("z" ≠ "x" → 1 ∉ FindNodes l' "x") ∧
           Head l' = Head ex_l ∧ Tail l' = Tail ex_l ∧
           (∀ r, Next <$> (h' !! r) = Next <$> (ex_h !! r)) ∧
           (∀ r, Prev <$> (h' !! r) = Prev <$> (ex_h !! r)).
Proof.
  apply (SetValue_reindexes ex_h ex_l 1
           (mkNode "x" (Some 3) (Some 2)) "z").
  reflexivity.
Defined.

Lemma SetValue_same_value_moves_last_witness :
  1 ∈ FindNodes ex_l "x" ∧
  ∃ h' l', SetValue ex_h ex_l 1 "x" = Done (h', l') ∧
           (∀ x, x ∈ FindNodes l' "x" ↔ x ∈ FindNodes ex_l "x") ∧
           FindNodes l' "x" =
             (filter (λ x, x ≠ 1) (FindNodes ex_l "x") ++ [1])%list ∧
           last (FindNodes l' "x") = Some 1 ∧
           (last (FindNodes ex_l "x") ≠ Some 1 →
            FindNodes l' "x" ≠ FindNodes ex_l "x") ∧
           (∀ w, w ≠ "x" → FindNodes l' w = FindNodes ex_l w).
Proof.
  assert (1 ∈ FindNodes ex_l "x") as Hn by compute_done.
  split; [exact Hn|].
  apply (SetValue_same_value_moves_last ex_h ex_l 1
           (mkNode "x" (Some 3) (Some 2))); [reflexivity | exact Hn].
Defined.

Lemma repair_of_matching_state_witness :
  matches_chain ex_h ex_l [2; 1; 3] ∧
  (∃ l', FixCounts ex_h ex_l = Done l' ∧
         Head l' = Head ex_l ∧ Tail l' = Tail ex_l ∧
         (∀ v, FindNodes l' v ≡ₚ FindNodes ex_l v) ∧
         (∀ v, FindNodes l' v =
               filter (λ x, value_is ex_h v x) [2; 1; 3])) ∧
  ([2; 1; 3] ≠ [] →
   FixHead Panic ex_h ex_l = Done ex_l ∧
   FixTail Panic ex_h ex_l = Done ex_l).
Proof.
  split; [exact ex_state_matches|].
  exact (repair_of_matching_state Panic Panic ex_h ex_l [2; 1; 3]
           ex_state_matches).
Defined.


(** *** Where the claims as stated fail *)

(** C3 as stated fails: the methods accept every call, also the insert of a
    node that is in the list already.  On a new list, [Append(nil, n)]
    followed by [Append(n, n)], with [n] the node 1 holding "x": both calls
    complete, and [FindNodes("x")] returns node 1 twice. *)
Lemma FindNodes_twice_after_second_insert :
  ∃ h l, run [OAppend None 1; OAppend (Some 1) 1] (ex_heap, New) = Done (h, l) ∧
         has_value h 1 "x" ∧
         FindNodes l "x" = [1; 1] ∧
         ¬ NoDup (FindNodes l "x").
Proof.
  assert (∃ h l, run [OAppend None 1; OAppend (Some 1) 1] (ex_heap, New)
                 = Done (h, l) ∧
                 has_value h 1 "x" ∧ FindNodes l "x" = [1; 1])
    as (h & l & E & Hv & EF).
  { eexists _, _. split; [vm_compute; reflexivity|].
    split; [eexists; split; [vm_compute; reflexivity|done]|].
    vm_compute. reflexivity. }
  exists h, l. split; [done|]. split; [done|]. split; [done|].
  rewrite EF. intros [Hn _]%NoDup_cons. apply Hn. by left.
Qed.


(** C5 as stated fails: the example list matches its chain 2 - 1 - 3, and
    [FixCounts] turns the bucket of "x" from 1, 2 (registration order) into
    2, 1 (chain order). *)
Lemma FixCounts_reorders_bucket :
  matches_chain ex_h ex_l [2; 1; 3] ∧
  FindNodes ex_l "x" = [1; 2] ∧
  ∃ l', FixCounts ex_h ex_l = Done l' ∧
        FindNodes l' "x" = [2; 1] ∧
        FindNodes l' "x" ≠ FindNodes ex_l "x".
Proof.
  split; [exact ex_state_matches|]. split; [by vm_compute|].
  eexists. split; [vm_compute; reflexivity|]. split; [by vm_compute|].
  vm_compute. discriminate.
Qed.

(** C8 as stated fails when the new value is the old one: node 1 holds "x"
    and is registered under "x"; after [SetValue(node, "x")] the bucket of
    its old value "x" still holds it. *)
Lemma SetValue_same_value_still_registered :
  has_value ex_h 1 "x" ∧ 1 ∈ FindNodes ex_l "x" ∧
  ∃ h' l', SetValue ex_h ex_l 1 "x" = Done (h', l') ∧
           1 ∈ FindNodes l' "x".
Proof.
  split; [eexists; split; [reflexivity|done]|]. split; [compute_done|].
  eexists _, _. split; [vm_compute; reflexivity|]. compute_done.
Qed.

(** *** The example index *)

Lemma ex_grow_gt c : (c < ex_grow c)%nat.
Proof. unfold ex_grow. case_decide; lia. Qed.

Lemma ex_index_reachable : rtc (index_step ex_grow) empty_index ex_index.
Proof.
  apply rtc_l with ex_index1.
  { apply step_addCount with ex_heap 1. vm_compute. reflexivity. }
  apply rtc_once.
  apply step_addCount with ex_heap 2. vm_compute. reflexivity.
Qed.

Lemma FindNodes_shares_storage_witness :
  rtc (index_step ex_grow) empty_index ex_index ∧
  FindNodes_s ex_index "x" = Some (mkSlice 3 2 2) ∧
  s_nodes ex_index !! "x" = Some (mkSlice 3 2 2) ∧
  (∀ i x A', slice_set (s_arrays ex_index) (mkSlice 3 2 2) i x = Done A' →
     bucket_contents (mkSIndex (s_nodes ex_index) A') "x" =
     <[i := x]> (bucket_contents ex_index "x")) ∧
  (∀ ix', rtc (index_step ex_grow) ex_index ix' →
     slice_elems (s_arrays ix') (mkSlice 3 2 2) =
     slice_elems (s_arrays ex_index) (mkSlice 3 2 2)).
Proof.
  assert (FindNodes_s ex_index "x" = Some (mkSlice 3 2 2)) as Es
    by (vm_compute; reflexivity).
  split; [exact ex_index_reachable|]. split; [exact Es|].
  exact (FindNodes_shares_storage ex_grow ex_grow_gt ex_index "x" (mkSlice 3 2 2)
           ex_index_reachable Es).
Defined.

(** C6 as stated fails: [FindNodes("x")] returns a header over the array of
    the bucket, which holds nodes 1 and 2; the caller stores node 2 into
    element 0 of what it received, and the bucket of the index holds 2 and 2
    from then on. *)
Lemma FindNodes_result_aliases_bucket :
  ∃ s A',
    FindNodes_s ex_index "x" = Some s ∧
    bucket_contents ex_index "x" = [Some 1; Some 2] ∧
    slice_set (s_arrays ex_index) s 0 (Some 2) = Done A' ∧
    bucket_contents (mkSIndex (s_nodes ex_index) A') "x" = [Some 2; Some 2].
Proof.
  eexists _, _. split; [vm_compute; reflexivity|].
  split; [vm_compute; reflexivity|].
  split; vm_compute; reflexivity.
Qed.

(** *** Instances of the theorems on the loops and the repairs *)

Lemma ex_state_values : Forall2 (has_value ex_h) [2; 1; 3] ["x"; "x"; "y"].
Proof. repeat constructor; eexists; (split; [reflexivity|done]). Qed.

Lemma ex_state_index : index_ok (list_to_set [2; 1; 3]) ex_h ex_l.
Proof. by destruct ex_state_matches as (_ & _ & _ & _ & ?). Qed.

Lemma ex_state_other_value : ∃ x, x ∈ [2; 1; 3] ∧ ¬ has_value ex_h x "x".
Proof.
  exists 3. split; [compute_done|]. intros (nd & E & Ev).
  vm_compute in E. injection E as <-. discriminate.
Qed.

Lemma ex_heap_unlinked : unlinked ex_heap.
Proof.
  change (map_Forall (λ _ nd, Next nd = None ∧ Prev nd = None) ex_heap).
  apply (bool_decide_unpack _). vm_compute. exact I.
Qed.

Lemma Prepend_links_before_anchor_witness :
  matches_chain ex_h ex_l [2; 1; 3] ∧ (4 ∉ [2; 1; 3]) ∧
  ex_h !! 4 = Some (mkNode "x" None None) ∧
  ∃ h' l', Prepend ex_h ex_l (Some 1) 4 = Done (h', l') ∧
           matches_chain h' l' [2; 4; 1; 3] ∧
           Head l' = (if decide (Head ex_l = Some 1) then Some 4 else Head ex_l) ∧
           Tail l' = Tail ex_l ∧
           (∀ v, FindNodes l' v =
                 if decide ("x" = v) then (FindNodes ex_l v ++ [4])%list
                 else FindNodes ex_l v) ∧
           same_values ex_h h'.
Proof.
  assert (4 ∉ [2; 1; 3]) as Hn by compute_done.
  split; [exact ex_state_matches|]. split; [exact Hn|]. split; [reflexivity|].
  exact (Prepend_links_before_anchor ex_h ex_l [2] 1 [3] 4 (mkNode "x" None None)
           ex_state_matches Hn eq_refl).
Defined.

Lemma Append_links_after_anchor_witness :
  matches_chain ex_h ex_l [2; 1; 3] ∧ (4 ∉ [2; 1; 3]) ∧
  ex_h !! 4 = Some (mkNode "x" None None) ∧
  ∃ h' l', Append ex_h ex_l (Some 1) 4 = Done (h', l') ∧
           matches_chain h' l' [2; 1; 4; 3] ∧
           Head l' = Head ex_l ∧
           Tail l' = (if decide (Tail ex_l = Some 1) then Some 4 else Tail ex_l) ∧
           (∀ v, FindNodes l' v =
                 if decide ("x" = v) then (FindNodes ex_l v ++ [4])%list
                 else FindNodes ex_l v) ∧
           same_values ex_h h'.
Proof.
  assert (4 ∉ [2; 1; 3]) as Hn by compute_done.
  split; [exact ex_state_matches|]. split; [exact Hn|]. split; [reflexivity|].
  exact (Append_links_after_anchor ex_h ex_l [2] 1 [3] 4 (mkNode "x" None None)
           ex_state_matches Hn eq_refl).
Defined.

Lemma Delete_takes_node_out_witness :
  matches_chain ex_h ex_l [2; 1; 3] ∧ ([] ++ [1; 3])%list ≠ [] ∧
  ∃ h' l', Delete ex_h ex_l 2 = Done (h', l') ∧
           matches_chain h' l' [1; 3] ∧
           Head l' = (if decide (Head ex_l = Some 2) then hd_error [1; 3]
                      else Head ex_l) ∧
           Tail l' = (if decide (Tail ex_l = Some 2) then last [] else Tail ex_l) ∧
           (∀ v, FindNodes l' v = filter (λ x, x ≠ 2) (FindNodes ex_l v)) ∧
           same_values ex_h h'.
Proof.
  assert (([] ++ [1; 3])%list ≠ []) as Hne by done.
  split; [exact ex_state_matches|]. split; [exact Hne|].
  exact (Delete_takes_node_out ex_h ex_l [] 2 [1; 3] ex_state_matches Hne).
Defined.

Lemma Append_twice_after_same_anchor_witness :
  matches_chain ex1_h ex1_l [1] ∧ (2 ∉ [1]) ∧ (3 ∉ [1]) ∧ 2 ≠ 3 ∧
  is_Some (ex1_h !! 2) ∧ is_Some (ex1_h !! 3) ∧
  ∃ h1 l1 h2 l2,
    Append ex1_h ex1_l (Some 1) 2 = Done (h1, l1) ∧
    Append h1 l1 (Some 1) 3 = Done (h2, l2) ∧
    matches_chain h2 l2 [1; 3; 2].
Proof.
  assert (2 ∉ [1]) as H2 by compute_done.
  assert (3 ∉ [1]) as H3 by compute_done.
  assert (2 ≠ 3) as Hne by done.
  assert (is_Some (ex1_h !! 2)) as E2 by (by eexists).
  assert (is_Some (ex1_h !! 3)) as E3 by (by eexists).
  split; [exact ex_single_matches|]. do 5 (split; [done|]).
  exact (Append_twice_after_same_anchor ex1_h ex1_l [] 1 [] 2 3
           ex_single_matches H2 H3 Hne E2 E3).
Defined.

Lemma insert_then_Delete_restores_witness :
  matches_chain ex_h ex_l [2; 1; 3] ∧ 1 ∈ [2; 1; 3] ∧ (4 ∉ [2; 1; 3]) ∧
  ex_h !! 4 = Some (mkNode "x" None None) ∧
  (∃ h1 l1 h2 l2,
     Append ex_h ex_l (Some 1) 4 = Done (h1, l1) ∧ Delete h1 l1 4 = Done (h2, l2) ∧
     matches_chain h2 l2 [2; 1; 3] ∧ Head l2 = Head ex_l ∧ Tail l2 = Tail ex_l ∧
     ∀ v, FindNodes l2 v = FindNodes ex_l v) ∧
  (∃ h1 l1 h2 l2,
     Prepend ex_h ex_l (Some 1) 4 = Done (h1, l1) ∧ Delete h1 l1 4 = Done (h2, l2) ∧
     matches_chain h2 l2 [2; 1; 3] ∧ Head l2 = Head ex_l ∧ Tail l2 = Tail ex_l ∧
     ∀ v, FindNodes l2 v = FindNodes ex_l v).
Proof.
  assert (1 ∈ [2; 1; 3]) as Ha by compute_done.
  assert (4 ∉ [2; 1; 3]) as Hn by compute_done.
  split; [exact ex_state_matches|]. split; [exact Ha|]. split; [exact Hn|].
  split; [reflexivity|].
  exact (insert_then_Delete_restores ex_h ex_l [2; 1; 3] 1 4 (mkNode "x" None None)
           ex_state_matches Ha Hn eq_refl).
Defined.

Lemma Delete_then_Prepend_moves_to_front_witness :
  matches_chain ex_h ex_l [2; 1; 3] ∧ ([2] ++ [3])%list ≠ [] ∧
  ∃ h1 l1 h2 l2,
    Delete ex_h ex_l 1 = Done (h1, l1) ∧
    Prepend h1 l1 (Head l1) 1 = Done (h2, l2) ∧
    matches_chain h2 l2 [1; 2; 3] ∧
    same_values ex_h h2 ∧
    ∀ v x, x ∈ FindNodes l2 v ↔ x ∈ FindNodes ex_l v.
Proof.
  assert (([2] ++ [3])%list ≠ []) as Hne by done.
  split; [exact ex_state_matches|]. split; [exact Hne|].
  exact (Delete_then_Prepend_moves_to_front ex_h ex_l [2] 1 [3]
           ex_state_matches Hne).
Defined.

Lemma Append_recovers_after_sole_Delete_witness :
  matches_chain ex1_h ex1_l [1] ∧
  ex1_h !! 2 = Some (mkNode "x" None None) ∧
  ∃ h1 l1 l2, Delete ex1_h ex1_l 1 = Done (h1, l1) ∧
              Head l1 = None ∧ Tail l1 = Some 1 ∧
              Append h1 l1 (Tail l1) 2 = Done (h1, l2) ∧
              matches_chain h1 l2 [2].
Proof.
  split; [exact ex_single_matches|]. split; [reflexivity|].
  destruct (Append_recovers_after_sole_Delete ex1_h ex1_l 1 (Some 1) 2
              (mkNode "x" None None) ex_single_matches eq_refl eq_refl eq_refl)
    as (h1 & l1 & l2 & ED & Hh & Ht & EA & Hm).
  exists h1, l1, l2. rewrite Ht. done.
Defined.

Lemma Prepend_after_sole_Delete_stays_headless_witness :
  matches_chain ex1_h ex1_l [1] ∧ 2 ≠ 1 ∧
  ex1_h !! 2 = Some (mkNode "x" None None) ∧
  ∃ h1 l1, Delete ex1_h ex1_l 1 = Done (h1, l1) ∧
           Head l1 = None ∧ Tail l1 = Some 1 ∧
           Prepend h1 l1 (Head l1) 2 = Panic ∧
           ∃ h2 l2, Prepend h1 l1 (Tail l1) 2 = Done (h2, l2) ∧
                    Head l2 = None ∧ Tail l2 = Some 1 ∧
                    2 ∈ FindNodes l2 "x" ∧
                    (Next <$> h2 !! 2) = Some (Some 1).
Proof.
  assert (2 ≠ 1) as Hne by done.
  split; [exact ex_single_matches|]. split; [exact Hne|]. split; [reflexivity|].
  exact (Prepend_after_sole_Delete_stays_headless ex1_h ex1_l 1 2
           (mkNode "x" None None) ex_single_matches Hne eq_refl eq_refl eq_refl).
Defined.

Lemma repairs_keep_stale_tail_witness :
  matches_chain ex1_h ex1_l [1] ∧
  ∃ h1 l1, Delete ex1_h ex1_l 1 = Done (h1, l1) ∧
           Head l1 = None ∧ Tail l1 = Some 1 ∧
           FixTail Panic h1 l1 = Done l1 ∧
           FixCounts h1 l1 = Done l1.
Proof.
  split; [exact ex_single_matches|].
  exact (repairs_keep_stale_tail Panic ex1_h ex1_l 1 ex_single_matches).
Defined.

Lemma SetValue_each_moves_bucket_witness :
  matches_chain ex_h ex_l [2; 1; 3] ∧ "x" ≠ "z" ∧
  ∃ h' l', SetValue_each (FindNodes ex_l "x") "z" (ex_h, ex_l) = Done (h', l') ∧
           matches_chain h' l' [2; 1; 3] ∧
           FindNodes l' "x" = [] ∧
           FindNodes l' "z" = (FindNodes ex_l "z" ++ FindNodes ex_l "x")%list ∧
           (∀ u, u ≠ "x" → u ≠ "z" → FindNodes l' u = FindNodes ex_l u) ∧
           (∀ n, n ∈ FindNodes ex_l "x" → has_value h' n "z") ∧
           (∀ n u, n ∉ FindNodes ex_l "x" → has_value ex_h n u → has_value h' n u).
Proof.
  assert ("x" ≠ "z") as Hne by done.
  split; [exact ex_state_matches|]. split; [exact Hne|].
  exact (SetValue_each_moves_bucket ex_h ex_l [2; 1; 3] "x" "z"
           ex_state_matches Hne).
Defined.

Lemma SetValue_each_same_value_restores_witness :
  index_ok (list_to_set [2; 1; 3]) ex_h ex_l ∧
  FindNodes ex_l "x" = [1; 2] ∧
  ∃ l', SetValue_each (FindNodes ex_l "x") "x" (ex_h, ex_l) = Done (ex_h, l') ∧
        Head l' = Head ex_l ∧ Tail l' = Tail ex_l ∧
        ∀ u, FindNodes l' u = FindNodes ex_l u.
Proof.
  split; [exact ex_state_index|]. split; [reflexivity|].
  exact (SetValue_each_same_value_restores ex_h ex_l (list_to_set [2; 1; 3]) "x"
           ex_state_index).
Defined.

Lemma Delete_each_shrinks_bucket_witness :
  matches_chain ex_h ex_l [2; 1; 3] ∧
  (∃ x, x ∈ [2; 1; 3] ∧ ¬ has_value ex_h x "x") ∧
  ∃ h' l', Delete_each (take 1%nat (FindNodes ex_l "x")) (ex_h, ex_l) = Done (h', l') ∧
           FindNodes l' "x" = drop 1%nat (FindNodes ex_l "x") ∧
           (∀ u, u ≠ "x" → FindNodes l' u = FindNodes ex_l u) ∧
           matches_chain h' l'
             (filter (λ x, x ∉ take 1%nat (FindNodes ex_l "x")) [2; 1; 3]).
Proof.
  split; [exact ex_state_matches|]. split; [exact ex_state_other_value|].
  exact (Delete_each_shrinks_bucket ex_h ex_l [2; 1; 3] "x" 1%nat
           ex_state_matches ex_state_other_value).
Defined.

(** The example heap under a list whose cached head and tail both point to
    the middle node and whose index is empty. *)
Lemma repairs_restore_matching_witness :
  NoDup [2; 1; 3] ∧ linked ex_h None [2; 1; 3] ∧ 1 ∈ [2; 1; 3] ∧
  ∃ l1 l2 l3,
    FixHead Panic ex_h (mkLList (Some 1) (Some 1) ∅) = Done l1 ∧
    FixTail Panic ex_h l1 = Done l2 ∧
    FixCounts ex_h l2 = Done l3 ∧
    matches_chain ex_h l3 [2; 1; 3].
Proof.
  destruct ex_state_matches as (ND & Hl & _).
  assert (1 ∈ [2; 1; 3]) as Hn by compute_done.
  split; [exact ND|]. split; [exact Hl|]. split; [exact Hn|].
  exact (repairs_restore_matching Panic Panic ex_h (mkLList (Some 1) (Some 1) ∅)
           [2; 1; 3] 1 1 ND Hl eq_refl Hn eq_refl Hn).
Defined.

Lemma FixCounts_after_direct_value_write_witness :
  matches_chain ex_h ex_l [2; 1; 3] ∧ 1 ∈ [2; 1; 3] ∧
  ex_h !! 1 = Some (mkNode "x" (Some 3) (Some 2)) ∧ "z" ≠ "x" ∧
  ∃ h', set_Value ex_h 1 "z" = Done h' ∧
        has_value h' 1 "z" ∧ (1 ∉ FindNodes ex_l "z") ∧ 1 ∈ FindNodes ex_l "x" ∧
        ∃ l', FixCounts h' ex_l = Done l' ∧ matches_chain h' l' [2; 1; 3].
Proof.
  assert (1 ∈ [2; 1; 3]) as Hn by compute_done.
  assert ("z" ≠ "x") as Hne by done.
  split; [exact ex_state_matches|]. split; [exact Hn|]. split; [reflexivity|].
  split; [exact Hne|].
  exact (FixCounts_after_direct_value_write ex_h ex_l [2; 1; 3] 1
           (mkNode "x" (Some 3) (Some 2)) "z" ex_state_matches Hn eq_refl Hne).
Defined.

Lemma FixHead_after_direct_prepends_witness :
  matches_chain ex_h ex_l [2; 1; 3] ∧
  ∃ h' ns, prepend_direct ["a"; "b"] 0 ex_h (Head ex_l) = Done h' ∧
           NoDup (reverse ns ++ [2; 1; 3])%list ∧
           linked h' None (reverse ns ++ [2; 1; 3])%list ∧
           Forall2 (has_value h') ns ["a"; "b"] ∧
           (∀ x w, has_value ex_h x w → has_value h' x w) ∧
           Head ex_l = Some 2 ∧
           FixHead Panic h' ex_l =
             Done (with_head ex_l (Some (default 2 (last ns)))).
Proof.
  split; [exact ex_state_matches|].
  exact (FixHead_after_direct_prepends Panic ["a"; "b"] ex_h ex_l 2 [1; 3]
           ex_state_matches).
Defined.

Lemma FixTail_after_direct_appends_witness :
  matches_chain ex_h ex_l [2; 1; 3] ∧
  ∃ h' ns, append_direct ["a"; "b"] 0 ex_h (Tail ex_l) = Done h' ∧
           NoDup ([2; 1] ++ 3 :: ns)%list ∧
           linked h' None ([2; 1] ++ 3 :: ns)%list ∧
           Forall2 (has_value h') ns ["a"; "b"] ∧
           (∀ x w, has_value ex_h x w → has_value h' x w) ∧
           Tail ex_l = Some 3 ∧
           FixTail Panic h' ex_l =
             Done (with_tail ex_l (Some (default 3 (last ns)))).
Proof.
  split; [exact ex_state_matches|].
  exact (FixTail_after_direct_appends Panic ["a"; "b"] ex_h ex_l [2; 1] 3
           ex_state_matches).
Defined.

Lemma valid_runs_stay_consistent_witness :
  unlinked ex_heap ∧ chain_of_run (dom ex_heap) [] ex_ops_move = Some [1; 2; 3] ∧
  ∃ h l, run ex_ops_move (ex_heap, New) = Done (h, l) ∧
         matches_chain h l [1; 2; 3] ∧
         (Head l = None ↔ Tail l = None) ∧
         (Head l = None ↔ [1; 2; 3] = []) ∧
         dom h = dom ex_heap.
Proof.
  assert (chain_of_run (dom ex_heap) [] ex_ops_move = Some [1; 2; 3]) as Hc
    by (vm_compute; reflexivity).
  split; [exact ex_heap_unlinked|]. split; [exact Hc|].
  exact (valid_runs_stay_consistent ex_heap ex_ops_move [1; 2; 3]
           ex_heap_unlinked Hc).
Defined.

Lemma buckets_are_never_dropped_witness :
  is_Some (nodes ex1_l !! "x") ∧
  ∃ h' l', run [ODelete 1] (ex1_h, ex1_l) = Done (h', l') ∧
           FindNodes l' "x" = [] ∧ is_Some (nodes l' !! "x").
Proof.
  assert (is_Some (nodes ex1_l !! "x")) as Hs by (by eexists).
  split; [exact Hs|].
  assert (run [ODelete 1] (ex1_h, ex1_l) =
          Done (ex_heap, mkLList None (Some 1) {[ "x" := [] ]})) as E
    by (vm_compute; reflexivity).
  eexists _, _. split; [exact E|]. split; [reflexivity|].
  exact (buckets_are_never_dropped [ODelete 1] ex1_h ex1_l _ _ "x" E Hs).
Defined.

Lemma FixCounts_drops_empty_buckets_witness :
  matches_chain ex_h ex_l [2; 1; 3] ∧ [2; 1; 3] ≠ [] ∧
  ∃ l', FixCounts ex_h ex_l = Done l' ∧
        ∀ v, is_Some (nodes l' !! v) ↔ ∃ x, x ∈ [2; 1; 3] ∧ has_value ex_h x v.
Proof.
  assert ([2; 1; 3] ≠ []) as Hne by done.
  split; [exact ex_state_matches|]. split; [exact Hne|].
  exact (FixCounts_drops_empty_buckets ex_h ex_l [2; 1; 3] ex_state_matches Hne).
Defined.

Lemma print_shows_chain_and_counts_witness :
  matches_chain ex_h ex_l [2; 1; 3] ∧ [2; 1; 3] ≠ [] ∧
  Forall2 (has_value ex_h) [2; 1; 3] ["x"; "x"; "y"] ∧
  print (λ _, Panic) ex_h ex_l "The list" =
  Done (printed "The list" ["x"; "x"; "y"]).
Proof.
  assert ([2; 1; 3] ≠ []) as Hne by done.
  split; [exact ex_state_matches|]. split; [exact Hne|].
  split; [exact ex_state_values|].
  exact (print_shows_chain_and_counts (λ _, Panic) ex_h ex_l [2; 1; 3]
           ["x"; "x"; "y"] "The list" ex_state_matches Hne ex_state_values).
Defined.

Lemma reachable_index_acts_on_sequences_witness :
  rtc (index_step ex_grow) empty_index ex_index ∧
  ex_heap !! 4 = Some (mkNode "x" None None) ∧
  (∃ ix', addCount_s ex_grow ex_heap ex_index 4 = Done ix' ∧
          ∀ v, bucket_contents ix' v =
               if decide ("x" = v) then (bucket_contents ex_index v ++ [Some 4])%list
               else bucket_contents ex_index v) ∧
  (∃ ix', subCount_s ex_grow ex_heap ex_index 4 = Done ix' ∧
          ∀ v, bucket_contents ix' v =
               if decide ("x" = v)
               then filter (λ y, y ≠ Some 4) (bucket_contents ex_index v)
               else bucket_contents ex_index v).
Proof.
  split; [exact ex_index_reachable|]. split; [reflexivity|].
  exact (reachable_index_acts_on_sequences ex_grow ex_grow_gt ex_heap ex_index 4
           (mkNode "x" None None) ex_index_reachable eq_refl).
Defined.

Lemma subCount_s_ends_sharing_witness :
  rtc (index_step ex_grow) empty_index ex_index ∧
  ex_heap !! 1 = Some (mkNode "x" None None) ∧
  FindNodes_s ex_index "x" = Some (mkSlice 3 2 2) ∧
  ∃ ix', subCount_s ex_grow ex_heap ex_index 1 = Done ix' ∧
         ∀ i x A', slice_set (s_arrays ix') (mkSlice 3 2 2) i x = Done A' →
           bucket_contents (mkSIndex (s_nodes ix') A') "x" =
           bucket_contents ix' "x".
Proof.
  assert (FindNodes_s ex_index "x" = Some (mkSlice 3 2 2)) as Es
    by (vm_compute; reflexivity).
  split; [exact ex_index_reachable|]. split; [reflexivity|]. split; [exact Es|].
  exact (subCount_s_ends_sharing ex_grow ex_grow_gt ex_heap ex_index 1
           (mkNode "x" None None) (mkSlice 3 2 2) ex_index_reachable eq_refl Es).
Defined.

(** The demo runs to completion, whatever [VisitByNext] does on a nil
    receiver, and prints the five lists that the comments of [main]
    announce. *)
Example main_output VisitByNext_nil :
  main VisitByNext_nil =
  Done (printed "Vanilla list" words ++
        printed "After prepending 'yesterday'" ("yesterday" :: words) ++
        printed "Three more foxes"
          ["yesterday"; "the"; "quick"; "brown"; "fox"; "fox"; "fox"; "fox";
           "jumped"; "over"; "the"; "lazy"; "dog"] ++
        printed "Three deletes of the 5th node" ("yesterday" :: words) ++
        printed "Lazy is now quick"
          ["yesterday"; "the"; "quick"; "brown"; "fox"; "jumped"; "over";
           "the"; "quick"; "dog"])%list.
Proof. vm_compute. reflexivity. Qed.
